(** * p5.grain 0.4.0: a shallow embedding of [src/p5.grain.js]

    The development follows the class [P5Grain]: the JavaScript values
    its methods receive, the private state it keeps, the host (p5.js)
    surfaces and drawing primitives it drives, then the methods
    themselves, and finally the properties proved about them.

    Numbers.  A JavaScript number is modelled by the rational it
    denotes ([Q]); surface dimensions, the pixel density, pixel samples,
    frame counters and everything produced by [Math.floor]/[Math.round]
    are integers ([Z]).  The cursor of the tiling sweep is advanced as
    the code advances it, by an addition rounded to the nearest double
    ([rnd]).  The draws [floor(random() * n + min)] and
    [floor(random() * amount)] are taken on the exact product and sum;
    evaluated in doubles, a draw differs by one where the exact value
    lies within a rounding error of an integer.  What is proved of the
    draws (their bounds, their order, which random number feeds which
    sample) does not rest on the value at such a boundary.
    [NaN] and the infinities are outside the model: an operation that
    would need the numeric coercion of a non-number ends in
    [Unmodelled].

    Not modelled: the [version] field, and what the functions
    registered on the prototypes do when they are called (they forward
    to the methods of the one instance). *)

From Stdlib Require Import ZArith QArith Qround Qminmax Qpower List Bool String Lia Lqa.
From Equations Require Import Equations.
Import ListNotations.

Set Warnings "-register-all".
Local Open Scope string_scope.
Local Open Scope list_scope.
Local Open Scope Z_scope.

(** ** JavaScript values *)

(** Host classes the code tests with [instanceof]. *)
Inductive HostClass := P5Image | P5Graphics | P5Element | HTMLElement | SVGElement.

(** A drawing surface of the host: the main canvas or a [p5.Graphics]
    buffer.  [pixels] is the flat RGBA sample array. *)
Record Surface := {
  width : Z;
  height : Z;
  pixelDensity : Z;
  pixels : list Z
}.

Inductive Value :=
| VUndefined
| VNull
| VBool (b : bool)
| VNum (q : Q)
| VStr (s : string)
| VFun
| VObject (props : list (string * Value))
| VImage (w h : Z)
| VGraphics (s : Surface)
| VElement (k : HostClass).

(** [typeof v] *)
Definition typeof (v : Value) : string :=
  match v with
  | VUndefined => "undefined"
  | VBool _ => "boolean"
  | VNum _ => "number"
  | VStr _ => "string"
  | VFun => "function"
  | VNull | VObject _ | VImage _ _ | VGraphics _ | VElement _ => "object"
  end.

(** [v instanceof c]; in p5.js [p5.Graphics] extends [p5.Element]. *)
Definition instanceof (v : Value) (c : HostClass) : bool :=
  match v, c with
  | VImage _ _, P5Image => true
  | VGraphics _, P5Graphics => true
  | VGraphics _, P5Element => true
  | VElement P5Element, P5Element => true
  | VElement HTMLElement, HTMLElement => true
  | VElement SVGElement, SVGElement => true
  | _, _ => false
  end.

(** Truthiness, as [||], [&&], [?:] and [if] test it. *)
Definition truthy (v : Value) : bool :=
  match v with
  | VUndefined | VNull => false
  | VBool b => b
  | VNum q => negb (Qeq_bool q 0)
  | VStr s => negb (String.eqb s "")
  | _ => true
  end.

Fixpoint assoc (k : string) (l : list (string * Value)) : Value :=
  match l with
  | [] => VUndefined
  | (k', v) :: l' => if String.eqb k k' then v else assoc k l'
  end.

(** ** Completions: normal return, a thrown exception, or the two ways
    the model itself can stop *)

Inductive Exn :=
| JsError (msg : string)   (* [throw new Error(msg)] of [#validateArguments] *)
| TypeError.               (* raised by the runtime, e.g. reading a property of [undefined] *)

Inductive Completion (A : Type) :=
| Normal (a : A)
| Thrown (e : Exn)
| Unmodelled
| OutOfFuel.
Arguments Normal {A} a.
Arguments Thrown {A} e.
Arguments Unmodelled {A}.
Arguments OutOfFuel {A}.

(** [v.k]: a [TypeError] on [undefined] and [null]; primitives and
    functions have none of the properties the code reads. *)
Definition get (v : Value) (k : string) : Completion Value :=
  match v with
  | VUndefined | VNull => Thrown TypeError
  | VObject props => Normal (assoc k props)
  | VImage w h =>
      Normal (if String.eqb k "width" then VNum (inject_Z w)
              else if String.eqb k "height" then VNum (inject_Z h)
              else VUndefined)
  | VGraphics s =>
      Normal (if String.eqb k "width" then VNum (inject_Z (width s))
              else if String.eqb k "height" then VNum (inject_Z (height s))
              else VUndefined)
  | _ => Normal VUndefined
  end.

(** Coercion to a number, defined on numbers only. *)
Definition to_number (v : Value) : Completion Q :=
  match v with
  | VNum q => Normal q
  | _ => Unmodelled
  end.

(** [Math.round]: nearest integer, ties towards plus infinity. *)
Definition round (q : Q) : Z := Qfloor (q + (1 # 2)).

(** [floor] *)
Definition floor (q : Q) : Z := Qfloor q.

(** [x < y] and [x >= y] on numbers. *)
Definition Qltb (x y : Q) : bool := negb (Qle_bool y x).
Definition Qgeb (x y : Q) : bool := Qle_bool y x.

(** ** Doubles

    A finite double is [m * 2 ^ e] for integers [|m| <= 2 ^ 53] and
    [e >= -1074].  The result of an arithmetic operation is the double
    nearest to the exact result, the one with the even [m] when two are
    as near.  Nothing overflows here: the model has no infinity, and a
    number beyond the largest double rounds like any other. *)

(** The integer nearest to [q], the even one of two. *)
Definition rne (q : Q) : Z :=
  let f := Qfloor q in
  match (q - inject_Z f ?= 1 # 2)%Q with
  | Lt => f
  | Gt => f + 1
  | Eq => if Z.even f then f else f + 1
  end.

(** [floor (log2 q)], for a positive [q]. *)
Definition ilog2 (q : Q) : Z :=
  let l := Z.log2 (Qnum q) - Z.log2 (Zpos (Qden q)) in
  if Qle_bool (2 ^ l) q then l else l - 1.

(** The exponent of the smallest subnormal double. *)
Definition emin : Z := -1074.

(** The exponent [e] at which a positive [q] is rounded: 53 bits
    above it, or the subnormal one. *)
Definition exponent (q : Q) : Z := Z.max emin (ilog2 q - 52).

Definition rnd_pos (q : Q) : Q :=
  Qred (inject_Z (rne (q / 2 ^ exponent q)) * 2 ^ exponent q).

(** The double nearest to [q]. *)
Definition rnd (q : Q) : Q :=
  match Qnum q with
  | Z0 => 0
  | Zpos _ => rnd_pos q
  | Zneg _ => - rnd_pos (- q)
  end.

(** The number is a double: rounding leaves it as it is. *)
Definition double (q : Q) : Prop := (rnd q == q)%Q.

(** ** The private state of [P5Grain] *)

(** The random source [#random]: the values it returns, in order, and
    how many have been taken. *)
Record RandomSource := {
  stream : nat -> Q;
  taken : nat
}.

Record TextureAnimateState := { ta_frameCount : Z }.

Record TextureOverlayState := {
  frameCount : Z;
  tX_anchor : Z;
  tX : Z;
  tY : Z
}.

Record P5Grain := {
  ignoreWarnings : bool;
  ignoreErrors : bool;
  random : RandomSource;
  textureAnimateState : TextureAnimateState;
  textureOverlayState : TextureOverlayState
}.

(** [constructor()], given the values [Math.random] is going to return. *)
Definition constructor (math_random : nat -> Q) : P5Grain :=
  {| ignoreWarnings := false;
     ignoreErrors := false;
     random := {| stream := math_random; taken := 0 |};
     textureAnimateState := {| ta_frameCount := 0 |};
     textureOverlayState :=
       {| frameCount := 0; tX_anchor := 0; tX := 0; tY := 0 |} |}.

(** ** The host: drawing primitives and element styling *)

Inductive Receiver := OnCanvas | OnPg.

Inductive DrawOp :=
| BlendMode (mode : Value)
| Push
| Pop
| Scale (sx sy : Q)
| Image (x y w h : Q)
| Reset
| LoadPixels
| UpdatePixels.

Inductive StyleOp :=
| SetBackgroundPosition (x y : Z)     (* [style.backgroundPosition = `${x}px ${y}px`] *)
| SetTop (y : Z)                      (* [style.top = `${y}px`] *)
| SetLeft (x : Z)                     (* [style.left = `${x}px`] *)
| StyleBackgroundPosition (x y : Z).  (* [style('background-position', `${x}px ${y}px`)] *)

(** Blend mode constants of p5.js. *)
Definition MULTIPLY : Value := VStr "multiply".
Definition BLEND : Value := VStr "source-over".

(** What a method runs in: the instance, the main canvas behind the
    globals [width], [height], [pixelDensity()] and [pixels], and the
    calls made to the host so far (oldest first). *)
Record World := {
  grain : P5Grain;
  canvas : Surface;
  drawn : list (Receiver * DrawOp);
  styled : list StyleOp
}.

(** ** A state and exception monad for the method bodies *)

Definition M (A : Type) : Type := World -> Completion A * World.

Definition ret {A} (a : A) : M A := fun w => (Normal a, w).

Definition bind {A B} (m : M A) (f : A -> M B) : M B :=
  fun w =>
    match m w with
    | (Normal a, w') => f a w'
    | (Thrown e, w') => (Thrown e, w')
    | (Unmodelled, w') => (Unmodelled, w')
    | (OutOfFuel, w') => (OutOfFuel, w')
    end.

Notation "x <- m ;; k" := (bind m (fun x => k))
  (at level 61, m at next level, right associativity).
Notation "m ;;; k" := (bind m (fun _ => k))
  (at level 61, right associativity).

Definition lift {A} (c : Completion A) : M A := fun w => (c, w).
Definition throw {A} (e : Exn) : M A := lift (Thrown e).
Definition read {A} (f : World -> A) : M A := fun w => (Normal (f w), w).
Definition write (f : World -> World) : M unit := fun w => (Normal tt, f w).

Definition set_grain (g : P5Grain) (w : World) : World :=
  {| grain := g; canvas := canvas w; drawn := drawn w; styled := styled w |}.
Definition set_canvas (c : Surface) (w : World) : World :=
  {| grain := grain w; canvas := c; drawn := drawn w; styled := styled w |}.
Definition emit (ops : list (Receiver * DrawOp)) : M unit :=
  write (fun w => {| grain := grain w; canvas := canvas w;
                     drawn := drawn w ++ ops; styled := styled w |}).
Definition style (ops : list StyleOp) : M unit :=
  write (fun w => {| grain := grain w; canvas := canvas w;
                     drawn := drawn w; styled := styled w ++ ops |}).

(** [this.#random()] *)
Definition next_random : M Q :=
  fun w =>
    let g := grain w in
    let r := random g in
    (Normal (stream r (taken r)),
     set_grain {| ignoreWarnings := ignoreWarnings g;
                  ignoreErrors := ignoreErrors g;
                  random := {| stream := stream r; taken := S (taken r) |};
                  textureAnimateState := textureAnimateState g;
                  textureOverlayState := textureOverlayState g |} w).

(** ** [#validateArguments(method, args)] *)

(** [args[n]] *)
Definition arg (args : list Value) (n : nat) : Value := nth n args VUndefined.

(** [if (cond) throw new Error(msg)] *)
Definition throw_if (cond : bool) (msg : string) : M unit :=
  if cond then throw (JsError msg) else ret tt.

(** [typeof v !== t] *)
Definition typeof_ne (v : Value) (t : string) : bool := negb (String.eqb (typeof v) t).

(** [typeof obj.prop !== 'undefined' && typeof obj.prop !== t] guarding a throw *)
Definition check_optional_prop (obj : Value) (prop t msg : string) : M unit :=
  p <- lift (get obj prop) ;;
  throw_if (typeof_ne p "undefined" && typeof_ne p t) msg.

Definition validateArguments (method : string) (args : list Value) : M unit :=
  ignore <- read (fun w => ignoreErrors (grain w)) ;;
  if negb ignore then
    if String.eqb method "setup" then
      throw_if (typeof_ne (arg args 0) "undefined" && typeof_ne (arg args 0) "object")
        ("[p5.grain] The optional config argument passed to p5grain." ++ method
         ++ "() must be of type object.")%string ;;;
      if String.eqb (typeof (arg args 0)) "object" then
        check_optional_prop (arg args 0) "random" "function"
          ("[p5.grain] The optional config.random property passed to p5grain." ++ method
           ++ "() must be of type function.")%string ;;;
        check_optional_prop (arg args 0) "ignoreErrors" "boolean"
          ("[p5.grain] The optional config.ignoreErrors property passed to p5grain." ++ method
           ++ "() must be of type boolean.")%string ;;;
        check_optional_prop (arg args 0) "ignoreWarnings" "boolean"
          ("[p5.grain] The optional config.ignoreWarnings property passed to p5grain." ++ method
           ++ "() must be of type boolean.")%string
      else ret tt
    else if String.eqb method "granulateSimple" || String.eqb method "granulateChannels" then
      throw_if (typeof_ne (arg args 0) "number")
        ("[p5.grain] The amount argument passed to " ++ method
         ++ "() must be of type number.")%string ;;;
      throw_if (typeof_ne (arg args 1) "undefined" && typeof_ne (arg args 1) "boolean")
        ("[p5.grain] The optional alpha argument passed to " ++ method
         ++ "() must be of type boolean.")%string ;;;
      throw_if (typeof_ne (arg args 2) "undefined" && negb (instanceof (arg args 2) P5Graphics))
        ("[p5.grain] The offscreen graphics buffer for " ++ method
         ++ "() must be an instance of p5.Graphics.")%string
    else if String.eqb method "tinkerPixels" then
      throw_if (typeof_ne (arg args 0) "function")
        ("[p5.grain] The callback argument passed to " ++ method
         ++ "() must be of type function.")%string ;;;
      throw_if (typeof_ne (arg args 1) "undefined" && negb (instanceof (arg args 1) P5Graphics))
        ("[p5.grain] The offscreen graphics buffer for " ++ method
         ++ "() must be an instance of p5.Graphics.")%string
    else if String.eqb method "textureAnimate" then
      throw_if (negb (instanceof (arg args 0) HTMLElement
                      || instanceof (arg args 0) SVGElement
                      || instanceof (arg args 0) P5Element))
        ("[p5.grain] The textureElement argument passed to " ++ method
         ++ "() must be an instance of HTMLElement, SVGElement or p5.Element.")%string ;;;
      throw_if (typeof_ne (arg args 1) "undefined" && typeof_ne (arg args 1) "object")
        ("[p5.grain] The optional config argument passed to " ++ method
         ++ "() must be of type object.")%string ;;;
      if String.eqb (typeof (arg args 1)) "object" then
        check_optional_prop (arg args 1) "atFrame" "number"
          ("[p5.grain] The optional config.atFrame property passed to " ++ method
           ++ "() must be of type number.")%string ;;;
        check_optional_prop (arg args 1) "amount" "number"
          ("[p5.grain] The optional config.amount argument passed to " ++ method
           ++ "() must be of type number.")%string
      else ret tt
    else if String.eqb method "textureOverlay" then
      throw_if (negb (instanceof (arg args 0) P5Image))
        ("[p5.grain] The texture argument passed to " ++ method
         ++ "() must be an instance of p5.Image.")%string ;;;
      throw_if (typeof_ne (arg args 1) "undefined" && typeof_ne (arg args 1) "object")
        ("[p5.grain] The optional config argument passed to " ++ method
         ++ "() must be of type object.")%string ;;;
      (if String.eqb (typeof (arg args 1)) "object" then
         check_optional_prop (arg args 1) "width" "number"
           ("[p5.grain] The optional config.width property passed to " ++ method
            ++ "() must be of type number.")%string ;;;
         check_optional_prop (arg args 1) "height" "number"
           ("[p5.grain] The optional config.height property passed to " ++ method
            ++ "() must be of type number.")%string ;;;
         check_optional_prop (arg args 1) "mode" "string"
           ("[p5.grain] The optional config.mode property passed to " ++ method
            ++ "() must be of type string.")%string ;;;
         check_optional_prop (arg args 1) "reflect" "boolean"
           ("[p5.grain] The optional config.reflect property passed to " ++ method
            ++ "() must be of type boolean.")%string
       else ret tt) ;;;
      throw_if (typeof_ne (arg args 2) "undefined" && negb (instanceof (arg args 2) P5Graphics))
        ("[p5.grain] The offscreen graphics buffer for " ++ method
         ++ "() must be an instance of p5.Graphics.")%string
    else ret tt
  else ret tt.

(** ** [#randomIntInclusive(min, max)] *)

(** The body, given the number [this.#random()] returns in it; the
    product and the sum are the exact ones. *)
Definition randomIntInclusive_with (r : Q) (min max : Q) : Z :=
  let min := Qceiling min in
  let max := Qfloor max in
  floor (r * inject_Z (max - min + 1) + inject_Z min).

Definition randomIntInclusive (min max : Q) : M Z :=
  r <- next_random ;;
  ret (randomIntInclusive_with r min max).

(** ** The pixel array of a surface *)

Fixpoint set_nth (n : nat) (v : Z) (l : list Z) : list Z :=
  match l, n with
  | [], _ => []
  | _ :: l', O => v :: l'
  | x :: l', S n' => x :: set_nth n' v l'
  end.

(** [for (let i = 0; i < total; i += 4) body], threading what the body
    works on. *)
Equations? for_pixels {A : Type} (body : Z -> A -> M A) (total i : Z) (a : A) : M A
  by wf (Z.to_nat (total - i)) lt :=
  for_pixels body total i a with Z_lt_dec i total := {
    | left _ => a' <- body i a ;; for_pixels body total (i + 4) a'
    | right _ => ret a }.
Proof. lia. Qed.

(** The surface a pixel method works on, from [pg ? pg.f() : f()].  The
    members of a truthy [pg] that is no [p5.Graphics] are not modelled. *)
Definition surface_of (pg : Value) : M (Receiver * Surface) :=
  if truthy pg then
    match pg with
    | VGraphics s => ret (OnPg, s)
    | _ => lift Unmodelled
    end
  else
    cv <- read canvas ;; ret (OnCanvas, cv).

Definition with_pixels (s : Surface) (px : list Z) : Surface :=
  {| width := width s; height := height s;
     pixelDensity := pixelDensity s; pixels := px |}.

(** The array was mutated in place: it is the one of the main canvas, or
    the one of the object [pg], which the model hands back. *)
Definition put_pixels (target : Receiver * Surface) (pg : Value) (px : list Z) : M Value :=
  match fst target with
  | OnPg => ret (VGraphics (with_pixels (snd target) px))
  | OnCanvas => write (set_canvas (with_pixels (snd target) px)) ;;; ret pg
  end.

Section PixelMethods.

(** What the host array keeps of a number assigned to one of its
    elements (a [Uint8ClampedArray] clamps to 0..255). *)
Variable sample : Z -> Z.

(** [_pixels[i] = _pixels[i] + g]: beyond the end of a typed array the
    read is [undefined] and the assignment is dropped. *)
Definition add_sample (px : list Z) (i : Z) (g : Z) : list Z :=
  if i <? 0 then px
  else match nth_error px (Z.to_nat i) with
       | Some v => set_nth (Z.to_nat i) (sample (v + g)) px
       | None => px
       end.

(** The body of the loop of [granulateSimple]. *)
Definition granulateSimple_body (_amount : Z) (_alpha : bool) (i : Z) (_pixels : list Z)
  : M (list Z) :=
  grainAmount <- randomIntInclusive (inject_Z (- _amount)) (inject_Z _amount) ;;
  let _pixels := add_sample _pixels i grainAmount in
  let _pixels := add_sample _pixels (i + 1) grainAmount in
  let _pixels := add_sample _pixels (i + 2) grainAmount in
  ret (if _alpha then add_sample _pixels (i + 3) grainAmount else _pixels).

Definition granulateSimple (amount alpha pg : Value) : M Value :=
  validateArguments "granulateSimple" [amount; alpha; pg] ;;;
  a <- lift (to_number amount) ;;
  let _amount := round a in
  let _alpha := truthy alpha in
  target <- surface_of pg ;;
  emit [(fst target, LoadPixels)] ;;;
  cv <- read canvas ;;
  let density := pixelDensity (snd target) in
  let total := 4 * (width cv * density) * (height cv * density) in
  let _pixels := pixels (snd target) in
  px <- for_pixels (granulateSimple_body _amount _alpha) total 0 _pixels ;;
  emit [(fst target, UpdatePixels)] ;;;
  put_pixels target pg px.

(** The body of the loop of [granulateChannels]. *)
Definition granulateChannels_body (_amount : Z) (_alpha : bool) (i : Z) (_pixels : list Z)
  : M (list Z) :=
  g0 <- randomIntInclusive (inject_Z (- _amount)) (inject_Z _amount) ;;
  let _pixels := add_sample _pixels i g0 in
  g1 <- randomIntInclusive (inject_Z (- _amount)) (inject_Z _amount) ;;
  let _pixels := add_sample _pixels (i + 1) g1 in
  g2 <- randomIntInclusive (inject_Z (- _amount)) (inject_Z _amount) ;;
  let _pixels := add_sample _pixels (i + 2) g2 in
  if _alpha then
    g3 <- randomIntInclusive (inject_Z (- _amount)) (inject_Z _amount) ;;
    ret (add_sample _pixels (i + 3) g3)
  else ret _pixels.

Definition granulateChannels (amount alpha pg : Value) : M Value :=
  validateArguments "granulateChannels" [amount; alpha; pg] ;;;
  a <- lift (to_number amount) ;;
  let _amount := round a in
  let _alpha := truthy alpha in
  target <- surface_of pg ;;
  emit [(fst target, LoadPixels)] ;;;
  cv <- read canvas ;;
  let density := pixelDensity (snd target) in
  let total := 4 * (width cv * density) * (height cv * density) in
  let _pixels := pixels (snd target) in
  px <- for_pixels (granulateChannels_body _amount _alpha) total 0 _pixels ;;
  emit [(fst target, UpdatePixels)] ;;;
  put_pixels target pg px.

End PixelMethods.

(** [tinkerPixels(callback, pg)]: the callback is a JavaScript function
    (the first argument validated is a function value); what it does to
    the program it closes over is a transformer of a state [S] of the
    caller's. *)
Definition tinkerPixels {S : Type} (callback : Z -> Z -> S -> S) (pg : Value) (s : S) : M S :=
  validateArguments "tinkerPixels" [VFun; pg] ;;;
  target <- surface_of pg ;;
  emit [(fst target, LoadPixels)] ;;;
  cv <- read canvas ;;
  let density := pixelDensity (snd target) in
  let total := 4 * (width cv * density) * (height cv * density) in
  s' <- for_pixels (fun i s => ret (callback i total s)) total 0 s ;;
  emit [(fst target, UpdatePixels)] ;;;
  ret s'.

(** ** [textureAnimate(textureElement, config)] *)

(** [obj && obj.prop ? round(obj.prop) : dflt] *)
Definition round_prop_or (obj : Value) (prop : string) (dflt : Z) : M Z :=
  if truthy obj then
    p <- lift (get obj prop) ;;
    if truthy p then q <- lift (to_number p) ;; ret (round q)
    else ret dflt
  else ret dflt.

Definition set_textureAnimateState (s : TextureAnimateState) : M unit :=
  write (fun w =>
    let g := grain w in
    set_grain {| ignoreWarnings := ignoreWarnings g;
                 ignoreErrors := ignoreErrors g;
                 random := random g;
                 textureAnimateState := s;
                 textureOverlayState := textureOverlayState g |} w).

Definition set_textureOverlayState (s : TextureOverlayState) : M unit :=
  write (fun w =>
    let g := grain w in
    set_grain {| ignoreWarnings := ignoreWarnings g;
                 ignoreErrors := ignoreErrors g;
                 random := random g;
                 textureAnimateState := textureAnimateState g;
                 textureOverlayState := s |} w).

Definition textureAnimate (textureElement config : Value) : M unit :=
  validateArguments "textureAnimate" [textureElement; config] ;;;
  _atFrame <- round_prop_or config "atFrame" 2 ;;
  st <- read (fun w => textureAnimateState (grain w)) ;;
  set_textureAnimateState {| ta_frameCount := ta_frameCount st + 1 |} ;;;
  if ta_frameCount st + 1 >=? _atFrame then
    cv <- read canvas ;;
    _amount <- round_prop_or config "amount" (Z.min (width cv) (height cv)) ;;
    rx <- next_random ;;
    let bgPosX := floor (rx * inject_Z _amount) in
    ry <- next_random ;;
    let bgPosY := floor (ry * inject_Z _amount) in
    (if instanceof textureElement HTMLElement then
       style [SetBackgroundPosition bgPosX bgPosY]
     else if instanceof textureElement SVGElement then
       style [SetTop (- bgPosY); SetLeft (- bgPosX)]
     else if instanceof textureElement P5Element then
       style [StyleBackgroundPosition bgPosX bgPosY]
     else ret tt) ;;;
    set_textureAnimateState {| ta_frameCount := 0 |}
  else ret tt.

(** ** [textureOverlay(textureImage, config, pg)] *)

Section Sweep.

Variables (_reflect isGraphicsBuffer : bool).
Variables (_width _height tW tH : Q).
(** [this.#textureOverlay.tX_anchor] *)
Variable anchor : Q.

Definition receiver : Receiver := if isGraphicsBuffer then OnPg else OnCanvas.

(** The body of the inner loop up to [tX += tW]: the calls that draw
    one tile. *)
Definition draw_tile (tRowFirst tColFirst : bool) (tX tY : Q) : list (Receiver * DrawOp) :=
  if _reflect then
    [(receiver, Push)]
    ++ (if tRowFirst then
          if tColFirst then
            [(receiver, Image tX tY tW tH)]
          else
            [(receiver, Scale (-1) 1); (receiver, Image (- tX) tY (- tW) tH)]
        else
          if tColFirst then
            [(receiver, Scale 1 (-1)); (receiver, Image tX (- tY) tW (- tH))]
          else
            [(receiver, Scale (-1) (-1)); (receiver, Image (- tX) (- tY) (- tW) (- tH))])
    ++ [(receiver, Pop)]
  else
    [(receiver, Image tX tY tW tH)].

(** [while (tX < _width) { ... }]: the cursor and column flag it
    leaves, and the calls it made.  [tX += tW] and [tY += tH] are
    additions of doubles: the sum is rounded. *)
Fixpoint sweep_row (fuel : nat) (tRowFirst : bool) (tX tY : Q) (tColFirst : bool)
  : option (Q * Q * bool * list (Receiver * DrawOp)) :=
  match fuel with
  | O => None
  | S fuel =>
      if Qltb tX _width then
        let ops := draw_tile tRowFirst tColFirst tX tY in
        let tX := rnd (tX + tW) in
        if Qgeb tX _width then
          Some (anchor, rnd (tY + tH), true, ops)
        else
          match sweep_row fuel tRowFirst tX tY (negb tColFirst) with
          | Some (tX, tY, tColFirst, ops') => Some (tX, tY, tColFirst, ops ++ ops')
          | None => None
          end
      else Some (tX, tY, tColFirst, [])
  end.

(** [while (tY < _height) { ...; tRowFirst = !tRowFirst; }] *)
Fixpoint sweep (fuel : nat) (tX tY : Q) (tRowFirst tColFirst : bool)
  : option (list (Receiver * DrawOp)) :=
  match fuel with
  | O => None
  | S fuel =>
      if Qltb tY _height then
        match sweep_row fuel tRowFirst tX tY tColFirst with
        | Some (tX, tY, tColFirst, ops) =>
            match sweep fuel tX tY (negb tRowFirst) tColFirst with
            | Some ops' => Some (ops ++ ops')
            | None => None
            end
        | None => None
        end
      else Some []
  end.

End Sweep.

(** [pg ? pg.f(..) : f(..)] for a drawing primitive. *)
Definition call_on (pg : Value) (op : DrawOp) : M unit :=
  if truthy pg then
    if instanceof pg P5Graphics then emit [(OnPg, op)] else lift Unmodelled
  else emit [(OnCanvas, op)].

(** [typeof config.prop === 'number' ? config.prop : textureImage.prop] *)
Definition tile_size (config textureImage : Value) (prop : string) : M Q :=
  c <- lift (get config prop) ;;
  if String.eqb (typeof c) "number" then lift (to_number c)
  else t <- lift (get textureImage prop) ;; lift (to_number t).

(** The constants resolved at the head of the method. *)
Record Resolved := {
  isGraphicsBuffer : bool;
  _width : Z;
  _height : Z;
  _mode : Value;
  _reflect : bool;
  _animate : bool;
  _animateAtFrame : Z;
  _animateAmount : Z;
  tW : Q;
  tH : Q
}.

Definition resolve (textureImage config pg : Value) : M Resolved :=
  let isGraphicsBuffer := instanceof pg P5Graphics in
  cv <- read canvas ;;
  let target := match pg with VGraphics s => s | _ => cv end in
  let _width := width target in
  let _height := height target in
  mode <- lift (get config "mode") ;;
  let _mode := if truthy mode then mode else MULTIPLY in
  reflect <- lift (get config "reflect") ;;
  let _reflect := truthy reflect in
  animate <- lift (get config "animate") ;;
  let _animate := truthy animate in
  _animateAtFrame <- round_prop_or animate "atFrame" 2 ;;
  _animateAmount <- round_prop_or animate "amount" (Z.min _width _height) ;;
  tW <- tile_size config textureImage "width" ;;
  tH <- tile_size config textureImage "height" ;;
  ret {| isGraphicsBuffer := isGraphicsBuffer; _width := _width; _height := _height;
         _mode := _mode; _reflect := _reflect; _animate := _animate;
         _animateAtFrame := _animateAtFrame; _animateAmount := _animateAmount;
         tW := tW; tH := tH |}.

(** [if (_animate) { ... }]: animate the texture coordinates. *)
Definition animate_step (p : Resolved) : M unit :=
  if _animate p then
    st <- read (fun w => textureOverlayState (grain w)) ;;
    set_textureOverlayState
      {| frameCount := frameCount st + 1; tX_anchor := tX_anchor st;
         tX := tX st; tY := tY st |} ;;;
    if frameCount st + 1 >=? _animateAtFrame p then
      rx <- next_random ;;
      let ax := - floor (rx * inject_Z (_animateAmount p)) in
      ry <- next_random ;;
      let ay := - floor (ry * inject_Z (_animateAmount p)) in
      set_textureOverlayState
        {| frameCount := 0; tX_anchor := ax; tX := tX st; tY := ay |}
    else ret tt
  else ret tt.

(** From [let tX = ...] to the end: the tiling sweep between the two
    [blendMode] calls, and the reset of an offscreen buffer. *)
Definition composite (fuel : nat) (pg : Value) (p : Resolved) : M unit :=
  st <- read (fun w => textureOverlayState (grain w)) ;;
  call_on pg (BlendMode (_mode p)) ;;;
  match sweep (_reflect p) (isGraphicsBuffer p)
              (inject_Z (_width p)) (inject_Z (_height p)) (tW p) (tH p)
              (inject_Z (tX_anchor st)) fuel
              (inject_Z (tX_anchor st)) (inject_Z (tY st)) true true with
  | None => lift OutOfFuel
  | Some ops => emit ops
  end ;;;
  call_on pg (BlendMode BLEND) ;;;
  if isGraphicsBuffer p then emit [(OnPg, Reset)] else ret tt.

Definition textureOverlay (fuel : nat) (textureImage config pg : Value) : M unit :=
  validateArguments "textureOverlay" [textureImage; config; pg] ;;;
  p <- resolve textureImage config pg ;;
  animate_step p ;;;
  composite fuel pg p.

(** ** The host's transform stack

    A model of what the p5.js primitives the sweep calls do to a
    surface: [push]/[pop] save and restore the transform, [scale]
    multiplies it, [reset] clears it, and [image(img, x, y, w, h)] lays
    the image over the rectangle between the transformed corners
    [(x, y)] and [(x + w, y + h)].  The image data is drawn in its own
    direction whatever the signs of [w] and [h], so a tile appears
    mirrored along an axis exactly when the scale factor of that axis is
    negative. *)

Record Tile := {
  tile_x : Q;      (* where the corner [(x, y)] lands *)
  tile_y : Q;
  tile_w : Q;      (* signed extent to the opposite corner *)
  tile_h : Q;
  flipX : bool;    (* mirrored horizontally *)
  flipY : bool     (* mirrored vertically *)
}.

Record Painter := {
  scale_x : Q;
  scale_y : Q;
  saved : list (Q * Q);
  painted : list Tile
}.

Definition blank : Painter :=
  {| scale_x := 1; scale_y := 1; saved := []; painted := [] |}.

Definition paint_op (p : Painter) (op : DrawOp) : Painter :=
  match op with
  | Push =>
      {| scale_x := scale_x p; scale_y := scale_y p;
         saved := (scale_x p, scale_y p) :: saved p; painted := painted p |}
  | Pop =>
      match saved p with
      | (sx, sy) :: rest =>
          {| scale_x := sx; scale_y := sy; saved := rest; painted := painted p |}
      | [] => p
      end
  | Scale sx sy =>
      {| scale_x := (scale_x p * sx)%Q; scale_y := (scale_y p * sy)%Q;
         saved := saved p; painted := painted p |}
  | Image x y w h =>
      {| scale_x := scale_x p; scale_y := scale_y p; saved := saved p;
         painted := painted p ++
           [{| tile_x := (scale_x p * x)%Q; tile_y := (scale_y p * y)%Q;
               tile_w := (scale_x p * w)%Q; tile_h := (scale_y p * h)%Q;
               flipX := Qltb (scale_x p) 0; flipY := Qltb (scale_y p) 0 |}] |}
  | Reset =>
      {| scale_x := 1; scale_y := 1; saved := saved p; painted := painted p |}
  | BlendMode _ | LoadPixels | UpdatePixels => p
  end.

Definition paint (p : Painter) (ops : list DrawOp) : Painter :=
  fold_left paint_op ops p.

Definition same_receiver (a b : Receiver) : bool :=
  match a, b with
  | OnCanvas, OnCanvas | OnPg, OnPg => true
  | _, _ => false
  end.

(** The primitives called on one receiver. *)
Definition ops_on (r : Receiver) (calls : list (Receiver * DrawOp)) : list DrawOp :=
  map snd (filter (fun c => same_receiver r (fst c)) calls).

(** The tiles a list of calls lays on a fresh surface. *)
Definition tiles_on (r : Receiver) (calls : list (Receiver * DrawOp)) : list Tile :=
  painted (paint blank (ops_on r calls)).

(** The point [(px, py)] lies under the tile. *)
Definition covers (t : Tile) (px py : Q) : Prop :=
  (Qmin (tile_x t) (tile_x t + tile_w t) <= px < Qmax (tile_x t) (tile_x t + tile_w t))%Q
  /\ (Qmin (tile_y t) (tile_y t + tile_h t) <= py < Qmax (tile_y t) (tile_y t + tile_h t))%Q.


(** [new P5Grain()] beside a main canvas, before any call. *)
Definition start (math_random : nat -> Q) (cv : Surface) : World :=
  {| grain := constructor math_random; canvas := cv; drawn := []; styled := [] |}.

(** ** The grid a sweep follows

    Ghost data for the proofs: where the sweep stands when it draws a
    tile, and the rows and columns those places are expected to form. *)

(** [n] as a number. *)
Definition num (n : nat) : Q := inject_Z (Z.of_nat n).

Record Placement := {
  pl_row : bool;   (* [tRowFirst] *)
  pl_col : bool;   (* [tColFirst] *)
  pl_x : Q;        (* [tX] *)
  pl_y : Q         (* [tY] *)
}.

Definition draw_plan (reflect gb : bool) (tw th : Q) (plan : list Placement)
  : list (Receiver * DrawOp) :=
  flat_map (fun pl => draw_tile reflect gb tw th (pl_row pl) (pl_col pl) (pl_x pl) (pl_y pl))
           plan.

(** Column [c] starts at [colX], row [r] at [rowY]. *)
Definition colX (ax tw : Q) (c : nat) : Q := (ax + num c * tw)%Q.
Definition rowY (ay th : Q) (r : nat) : Q := (ay + num r * th)%Q.

(** Where a cursor stands after [n] additions [x += t] from [o], each
    rounded to the nearest double. *)
Fixpoint cursor (o t : Q) (n : nat) : Q :=
  match n with
  | O => o
  | S n => rnd (cursor o t n + t)
  end.

(** The steps of a cursor from [o] by [t] are exact as long as it
    stands before [bound]: the next place is a double, so the addition
    that reaches it is not rounded. *)
Definition exact_steps (o t bound : Q) : Prop :=
  forall n : nat, (colX o t n < bound)%Q -> double (colX o t (S n)).

(** The tile a placement becomes on the surface. *)
Definition placed_as (reflect : bool) (tw th : Q) (pl : Placement) (t : Tile) : Prop :=
  (tile_x t == pl_x pl)%Q /\ (tile_y t == pl_y pl)%Q /\
  (tile_w t == tw)%Q /\ (tile_h t == th)%Q /\
  flipX t = reflect && negb (pl_col pl) /\
  flipY t = reflect && negb (pl_row pl).

(** A computation that leaves the world as it found it. *)
Definition pure {A : Type} (m : M A) : Prop := forall w, snd (m w) = w.

(** ** Reading a pixel pass

    Ghost data for the proofs about the pixel methods. *)

(** The world once [n] more random numbers have been taken. *)
Definition skip_random (n : nat) (w : World) : World :=
  let g := grain w in
  set_grain {| ignoreWarnings := ignoreWarnings g;
               ignoreErrors := ignoreErrors g;
               random := {| stream := stream (random g); taken := n + taken (random g) |};
               textureAnimateState := textureAnimateState g;
               textureOverlayState := textureOverlayState g |} w.

(** The [n]-th random number still to come. *)
Definition upcoming (w : World) (n : nat) : Q :=
  stream (random (grain w)) (n + taken (random (grain w))).

(** The delta the granulate methods draw, for the rounded amount
    [_amount], out of the random number [r]. *)
Definition grainAmount_of (_amount : Z) (r : Q) : Z :=
  randomIntInclusive_with r (inject_Z (- _amount)) (inject_Z _amount).

(** A sample after [_pixels[i] = _pixels[i] + g], if there is one. *)
Definition bump (sample : Z -> Z) (g : Z) (old : option Z) : option Z :=
  option_map (fun v => sample (v + g)) old.

(** The pixels a pixel method worked on, once it has returned [pg']. *)
Definition result_pixels (pg' : Value) (w' : World) : list Z :=
  match pg' with
  | VGraphics s => pixels s
  | _ => pixels (canvas w')
  end.

(** [total], as the pixel methods compute it. *)
Definition total_of (cv target : Surface) : Z :=
  4 * (width cv * pixelDensity target) * (height cv * pixelDensity target).

(** The optional [alpha] argument, as documented: absent or a boolean. *)
Definition boolean_or_absent (alpha : Value) : Prop :=
  alpha = VUndefined \/ exists b, alpha = VBool b.

(** The optional [pg] argument, as documented: absent, and the method
    works on the main canvas, or a [p5.Graphics], and it works on that. *)
Definition targets (pg : Value) (w : World) (target : Surface) : Prop :=
  (pg = VUndefined /\ target = canvas w) \/ pg = VGraphics target.

(** ** Sessions of animated overlays *)

(** The call resolves with animation enabled and a positive amount. *)
Definition animates_positively (textureImage config pg : Value) (w : World) : Prop :=
  exists p, fst (resolve textureImage config pg w) = Normal p
            /\ _animate p = true /\ 0 < _animateAmount p.

(** The worlds a sequence of such [textureOverlay] calls leads to. *)
Inductive animated_from (w0 : World) : World -> Prop :=
| animated_start : animated_from w0 w0
| animated_call (w : World) (fuel : nat) (textureImage config pg : Value) :
    animated_from w0 w ->
    animates_positively textureImage config pg w ->
    animated_from w0 (snd (textureOverlay fuel textureImage config pg w)).

(** ** [setup(config)]

    A function value carries no behaviour in [Value]; the numbers the
    function [config.random] is going to return, when it is one, are
    [config_random], and those of the global [random] of p5.js are
    [p5_random]. *)

Definition set_random (r : RandomSource) : M unit :=
  write (fun w =>
    let g := grain w in
    set_grain {| ignoreWarnings := ignoreWarnings g;
                 ignoreErrors := ignoreErrors g;
                 random := r;
                 textureAnimateState := textureAnimateState g;
                 textureOverlayState := textureOverlayState g |} w).

Definition set_ignoreErrors (b : bool) : M unit :=
  write (fun w =>
    let g := grain w in
    set_grain {| ignoreWarnings := ignoreWarnings g;
                 ignoreErrors := b;
                 random := random g;
                 textureAnimateState := textureAnimateState g;
                 textureOverlayState := textureOverlayState g |} w).

Definition set_ignoreWarnings (b : bool) : M unit :=
  write (fun w =>
    let g := grain w in
    set_grain {| ignoreWarnings := b;
                 ignoreErrors := ignoreErrors g;
                 random := random g;
                 textureAnimateState := textureAnimateState g;
                 textureOverlayState := textureOverlayState g |} w).

Definition setup (p5_random config_random : nat -> Q) (config : Value) : M unit :=
  validateArguments "setup" [config] ;;;
  if String.eqb (typeof config) "undefined" then
    set_random {| stream := p5_random; taken := 0 |}
  else if String.eqb (typeof config) "object" then
    r <- lift (get config "random") ;;
    (if String.eqb (typeof r) "function"
     then set_random {| stream := config_random; taken := 0 |}
     else ret tt) ;;;
    e <- lift (get config "ignoreErrors") ;;
    (match e with
     | VBool b => set_ignoreErrors b      (* [typeof e === 'boolean'] *)
     | _ => ret tt
     end) ;;;
    i <- lift (get config "ignoreWarnings") ;;
    match i with
    | VBool b => set_ignoreWarnings b     (* [typeof i === 'boolean'] *)
    | _ => ret tt
    end
  else ret tt.

(** A computation that leaves one aspect [f] of the world as it found
    it, however it completes. *)
Definition keeps {A X : Type} (f : World -> X) (m : M A) : Prop :=
  forall w, f (snd (m w)) = f w.

(** What holds of the calls of a loop that ended: all on one receiver,
    and painting them leaves the transform and its stack as they were. *)
Definition isolated_on (gb : bool) (ops : list (Receiver * DrawOp)) : Prop :=
  Forall (fun c => fst c = receiver gb) ops
  /\ forall p,
       let p' := paint p (ops_on (receiver gb) ops) in
       scale_x p' = scale_x p /\ scale_y p' = scale_y p /\ saved p' = saved p.

(** A computation whose completion does not depend on the world. *)
Definition steady {A : Type} (m : M A) : Prop :=
  forall w1 w2, fst (m w1) = fst (m w2).

(** The world after [k] calls [textureAnimate(textureElement, config)]
    in a row. *)
Definition animated (textureElement config : Value) (k : nat) (w : World) : World :=
  Nat.iter k (fun w => snd (textureAnimate textureElement config w)) w.


(** What [textureAnimate] writes on the element when it shifts the
    texture by [(bgPosX, bgPosY)], by the class of the element. *)
Definition shift_styles (textureElement : Value) (bgPosX bgPosY : Z) : list StyleOp :=
  if instanceof textureElement HTMLElement then [SetBackgroundPosition bgPosX bgPosY]
  else if instanceof textureElement SVGElement then [SetTop (- bgPosY); SetLeft (- bgPosX)]
  else if instanceof textureElement P5Element then [StyleBackgroundPosition bgPosX bgPosY]
  else [].

(** The pixels the loop of a pixel method visits: [total / 4], none
    when [total] is not positive. *)
Definition visited (cv target : Surface) : nat := Z.to_nat (total_of cv target / 4).

(** The receiver of the host calls of a pixel method:
    [pg ? pg.f() : f()]. *)
Definition pixel_receiver (pg : Value) : Receiver := if truthy pg then OnPg else OnCanvas.

(** ** The script after the class: [new P5Grain()] and the registration
    of the methods on the prototypes of p5 *)

(** [p5.prototype] and [p5.Graphics.prototype]. *)
Inductive Prototype := P5Prototype | GraphicsPrototype.

(** An own property of a prototype: one that was there before the
    script ran, or a function of the script's,
    [function(...) { return p5grain.method(...) }], which hands [this]
    over as [pg] when it is registered on [p5.Graphics.prototype]. *)
Inductive Member :=
| Foreign (id : nat)
| Wrapper (method : string) (passes_this : bool).

(** [console.warn('[p5.grain] name() could not be registered, ...')] *)
Inductive Warning := CouldNotRegister (on : Prototype) (name : string).

Record Host := {
  p5_prototype : list (string * Member);
  graphics_prototype : list (string * Member);
  console : list Warning
}.

Definition prototype_of (on : Prototype) (h : Host) : list (string * Member) :=
  match on with
  | P5Prototype => p5_prototype h
  | GraphicsPrototype => graphics_prototype h
  end.

(** The own property [name] of a prototype, if it has one. *)
Fixpoint member (proto : list (string * Member)) (name : string) : option Member :=
  match proto with
  | [] => None
  | (k, m) :: proto' => if String.eqb k name then Some m else member proto' name
  end.

Definition hasOwnProperty (proto : list (string * Member)) (name : string) : bool :=
  match member proto name with
  | Some _ => true
  | None => false
  end.

(** [proto.name = m], for a name the prototype does not have. *)
Definition define (on : Prototype) (name : string) (m : Member) (h : Host) : Host :=
  match on with
  | P5Prototype =>
      {| p5_prototype := (name, m) :: p5_prototype h;
         graphics_prototype := graphics_prototype h;
         console := console h |}
  | GraphicsPrototype =>
      {| p5_prototype := p5_prototype h;
         graphics_prototype := (name, m) :: graphics_prototype h;
         console := console h |}
  end.

Definition warn (x : Warning) (h : Host) : Host :=
  {| p5_prototype := p5_prototype h;
     graphics_prototype := graphics_prototype h;
     console := console h ++ [x] |}.

(** The function the script defines for [name] on [on]. *)
Definition wrapper (on : Prototype) (name : string) : Member :=
  Wrapper name (match on with GraphicsPrototype => true | P5Prototype => false end).

(** One block of the script:
    [if (!proto.hasOwnProperty(name)) { proto.name = function ... }
     else if (!p5grain.ignoreWarnings) { console.warn(...) }] *)
Definition register (p5grain : P5Grain) (on : Prototype) (name : string) (h : Host) : Host :=
  if negb (hasOwnProperty (prototype_of on h) name) then
    define on name (wrapper on name) h
  else if negb (ignoreWarnings p5grain) then warn (CouldNotRegister on name) h
  else h.

(** The script, from [const p5grain = new P5Grain()] on. *)
Definition script (math_random : nat -> Q) (h : Host) : P5Grain * Host :=
  let p5grain := constructor math_random in
  let h := register p5grain P5Prototype "granulateSimple" h in
  let h := register p5grain GraphicsPrototype "granulateSimple" h in
  let h := register p5grain P5Prototype "granulateChannels" h in
  let h := register p5grain GraphicsPrototype "granulateChannels" h in
  let h := register p5grain P5Prototype "tinkerPixels" h in
  let h := register p5grain GraphicsPrototype "tinkerPixels" h in
  let h := register p5grain P5Prototype "textureAnimate" h in
  let h := register p5grain P5Prototype "textureOverlay" h in
  let h := register p5grain GraphicsPrototype "textureOverlay" h in
  (p5grain, h).

(** The names the script registers, in its order. *)
Definition registrations : list (Prototype * string) :=
  [(P5Prototype, "granulateSimple"); (GraphicsPrototype, "granulateSimple");
   (P5Prototype, "granulateChannels"); (GraphicsPrototype, "granulateChannels");
   (P5Prototype, "tinkerPixels"); (GraphicsPrototype, "tinkerPixels");
   (P5Prototype, "textureAnimate");
   (P5Prototype, "textureOverlay"); (GraphicsPrototype, "textureOverlay")].

Definition same_prototype (a b : Prototype) : bool :=
  match a, b with
  | P5Prototype, P5Prototype | GraphicsPrototype, GraphicsPrototype => true
  | _, _ => false
  end.

(** The script has a block for [name] on the prototype [on]. *)
Definition registers (on : Prototype) (name : string) : bool :=
  existsb (fun r => same_prototype (fst r) on && String.eqb (snd r) name) registrations.
(** * Properties *)

(** ** Comparisons and counting steps over the rationals *)

Lemma Qltb_true (x y : Q) : Qltb x y = true <-> (x < y)%Q.
Proof.
  unfold Qltb. rewrite negb_true_iff.
  split; intro Hxy.
  - apply Qnot_le_lt. intro Hle. apply Qle_bool_iff in Hle. congruence.
  - destruct (Qle_bool y x) eqn:E; [|reflexivity].
    apply Qle_bool_iff in E. exfalso. apply (Qlt_not_le _ _ Hxy E).
Qed.

Lemma Qltb_false (x y : Q) : Qltb x y = false <-> (y <= x)%Q.
Proof.
  unfold Qltb. rewrite negb_false_iff. apply Qle_bool_iff.
Qed.

Lemma Qgeb_true (x y : Q) : Qgeb x y = true <-> (y <= x)%Q.
Proof. unfold Qgeb. apply Qle_bool_iff. Qed.

Lemma Qgeb_false (x y : Q) : Qgeb x y = false <-> (x < y)%Q.
Proof.
  unfold Qgeb. split; intro Hxy.
  - apply Qnot_le_lt. intro Hle. apply Qle_bool_iff in Hle. congruence.
  - destruct (Qle_bool y x) eqn:E; [|reflexivity].
    apply Qle_bool_iff in E. exfalso. apply (Qlt_not_le _ _ Hxy E).
Qed.

Lemma num_S (n : nat) : (num (S n) == num n + 1)%Q.
Proof.
  unfold num. rewrite Nat2Z.inj_succ. unfold Z.succ.
  rewrite inject_Z_plus. reflexivity.
Qed.

Lemma num_nonneg (n : nat) : (0 <= num n)%Q.
Proof.
  unfold num. change 0%Q with (inject_Z 0). rewrite <- Zle_Qle. lia.
Qed.

Lemma num_le (n m : nat) : (n <= m)%nat -> (num n <= num m)%Q.
Proof. intro Hnm. unfold num. rewrite <- Zle_Qle. lia. Qed.

Lemma num_inj (n m : nat) : (num n == num m)%Q -> n = m.
Proof.
  unfold num. intro E. apply -> inject_Z_injective in E. lia.
Qed.

Lemma Qpos_nonzero (t : Q) : (0 < t)%Q -> ~ (t == 0)%Q.
Proof. intros Ht E. rewrite E in Ht. apply (Qlt_irrefl 0 Ht). Qed.

(** Enough steps of a positive size get past any distance. *)
Lemma steps_reach (d t : Q) : (0 < t)%Q -> exists n : nat, (d <= num n * t)%Q.
Proof.
  intro Ht.
  exists (Z.to_nat (Qceiling (d / t))).
  assert (Hd : (d == d / t * t)%Q) by (field; apply Qpos_nonzero; exact Ht).
  destruct (Z_le_gt_dec 0 (Qceiling (d / t))) as [Hc|Hc].
  - unfold num. rewrite Z2Nat.id by exact Hc.
    rewrite Hd at 1. apply Qmult_le_compat_r; [apply Qle_ceiling | lra].
  - assert (Hq : (d / t <= 0)%Q).
    { apply Qle_trans with (inject_Z (Qceiling (d / t))); [apply Qle_ceiling|].
      change 0%Q with (inject_Z 0). rewrite <- Zle_Qle. lia. }
    replace (Z.to_nat (Qceiling (d / t))) with O by lia.
    assert (Hd0 : (d / t * t <= 0 * t)%Q) by (apply Qmult_le_compat_r; lra).
    apply Qle_trans with (d / t * t)%Q; [rewrite <- Hd; apply Qle_refl | exact Hd0].
Qed.



(** ** Doubles *)

Lemma rne_floor (q : Q) : Qfloor q <= rne q <= Qfloor q + 1.
Proof.
  unfold rne. destruct (q - inject_Z (Qfloor q) ?= 1 # 2)%Q; [destruct (Z.even _)| |]; lia.
Qed.

Lemma rne_Z (n : Z) : rne (inject_Z n) = n.
Proof.
  unfold rne. rewrite Qfloor_Z.
  destruct (Qcompare_spec (inject_Z n - inject_Z n) (1 # 2)) as [E|E|E]; try lra.
  reflexivity.
Qed.

Lemma rne_comp (x y : Q) : (x == y)%Q -> rne x = rne y.
Proof.
  intro E. unfold rne.
  assert (Hf : Qfloor x = Qfloor y) by (apply Qfloor_comp; exact E).
  rewrite Hf.
  assert (Hc : (x - inject_Z (Qfloor y) ?= 1 # 2)%Q = (y - inject_Z (Qfloor y) ?= 1 # 2)%Q)
    by (rewrite E; reflexivity).
  rewrite Hc. reflexivity.
Qed.

Lemma rne_mono (x y : Q) : (x <= y)%Q -> rne x <= rne y.
Proof.
  intro Hxy.
  pose proof (Qfloor_resp_le _ _ Hxy) as Hf.
  pose proof (rne_floor x) as Bx. pose proof (rne_floor y) as By.
  destruct (Z_lt_le_dec (Qfloor x) (Qfloor y)) as [Hlt|Hge]; [lia|].
  assert (Heq : Qfloor x = Qfloor y) by lia.
  unfold rne in *. rewrite Heq in *.
  destruct (Qcompare_spec (x - inject_Z (Qfloor y)) (1 # 2)) as [Ex|Ex|Ex];
    destruct (Qcompare_spec (y - inject_Z (Qfloor y)) (1 # 2)) as [Ey|Ey|Ey];
    try lia; try lra; destruct (Z.even (Qfloor y)); lia.
Qed.

Lemma rne_le (q : Q) (n : Z) : (q <= inject_Z n)%Q -> rne q <= n.
Proof. intro H. rewrite <- (rne_Z n). apply rne_mono. exact H. Qed.

Lemma rne_ge (q : Q) (n : Z) : (inject_Z n <= q)%Q -> n <= rne q.
Proof. intro H. rewrite <- (rne_Z n). apply rne_mono. exact H. Qed.

(** *** Powers of two *)

Lemma two_pos (e : Z) : (0 < 2 ^ e)%Q.
Proof. apply Qpower_0_lt. reflexivity. Qed.

Lemma two_plus (a b : Z) : (2 ^ (a + b) == 2 ^ a * 2 ^ b)%Q.
Proof. apply Qpower_plus. discriminate. Qed.

Lemma two_le (a b : Z) : a <= b -> (2 ^ a <= 2 ^ b)%Q.
Proof. intro H. apply Qpower_le_compat_l; [exact H|discriminate]. Qed.

Lemma two_lt (a b : Z) : a < b -> (2 ^ a < 2 ^ b)%Q.
Proof. intro H. apply Qpower_lt_compat_l; [exact H|reflexivity]. Qed.

Lemma two_Z (n : Z) : 0 <= n -> (inject_Z (2 ^ n) == 2 ^ n)%Q.
Proof. intro H. rewrite Zpower_Qpower by exact H. reflexivity. Qed.

Lemma ilog2_spec (q : Q) : (0 < q)%Q -> (2 ^ ilog2 q <= q < 2 ^ (ilog2 q + 1))%Q.
Proof.
  intro Hq. destruct q as [a b].
  assert (Ha : 0 < a) by (unfold Qlt in Hq; cbn in Hq; lia).
  unfold ilog2. cbn [Qnum Qden].
  set (la := Z.log2 a). set (lb := Z.log2 (Z.pos b)).
  destruct (Z.log2_spec a Ha) as [Ha1 Ha2]. fold la in Ha1, Ha2.
  destruct (Z.log2_spec (Z.pos b) ltac:(lia)) as [Hb1 Hb2]. fold lb in Hb1, Hb2.
  assert (Hla : 0 <= la) by apply Z.log2_nonneg.
  assert (Hlb : 0 <= lb) by apply Z.log2_nonneg.
  assert (Eq : ((a # b) * inject_Z (Z.pos b) == inject_Z a)%Q).
  { rewrite (Qmake_Qdiv a b). field. intro Hz.
    assert (Hb0 : (0 < inject_Z (Z.pos b))%Q) by reflexivity. lra. }
  assert (A1 : (2 ^ la <= inject_Z a)%Q) by (rewrite <- two_Z, <- Zle_Qle; assumption).
  assert (A2 : (inject_Z a < 2 ^ (la + 1))%Q)
    by (rewrite <- two_Z, <- Zlt_Qlt by lia; unfold Z.succ in Ha2; assumption).
  assert (B1 : (2 ^ lb <= inject_Z (Z.pos b))%Q) by (rewrite <- two_Z, <- Zle_Qle; assumption).
  assert (B2 : (inject_Z (Z.pos b) < 2 ^ (lb + 1))%Q)
    by (rewrite <- two_Z, <- Zlt_Qlt by lia; unfold Z.succ in Hb2; assumption).
  pose proof (two_pos lb) as Plb. pose proof (two_pos (la - lb)) as Pl.
  assert (U : ((a # b) < 2 ^ (la - lb + 1))%Q).
  { apply Qnot_le_lt. intro Hc.
    assert (Hm : (2 ^ (la - lb + 1) * 2 ^ lb <= (a # b) * inject_Z (Z.pos b))%Q).
    { apply Qle_trans with ((a # b) * 2 ^ lb)%Q.
      - apply Qmult_le_compat_r; [exact Hc|apply Qlt_le_weak; exact Plb].
      - rewrite !(Qmult_comm (a # b)). apply Qmult_le_compat_r; [exact B1|].
        apply Qlt_le_weak. exact Hq. }
    rewrite <- two_plus, Eq in Hm.
    replace (la - lb + 1 + lb) with (la + 1) in Hm by lia. lra. }
  assert (L : (2 ^ (la - lb - 1) <= (a # b))%Q).
  { apply Qnot_lt_le. intro Hc.
    assert (Hm : ((a # b) * inject_Z (Z.pos b) < 2 ^ (la - lb - 1) * 2 ^ (lb + 1))%Q).
    { apply Qle_lt_trans with ((a # b) * 2 ^ (lb + 1))%Q.
      - rewrite !(Qmult_comm (a # b)). apply Qmult_le_compat_r; [|apply Qlt_le_weak; exact Hq].
        apply Qlt_le_weak. exact B2.
      - apply Qmult_lt_compat_r; [apply two_pos|exact Hc]. }
    rewrite <- two_plus, Eq in Hm.
    replace (la - lb - 1 + (lb + 1)) with la in Hm by lia. lra. }
  destruct (Qle_bool (2 ^ (la - lb)) (a # b)) eqn:Ht.
  - apply Qle_bool_iff in Ht. split; assumption.
  - split; [exact L|].
    replace (la - lb - 1 + 1) with (la - lb) by lia.
    apply Qnot_le_lt. intro Hc. apply Qle_bool_iff in Hc. congruence.
Qed.

Lemma ilog2_unique (q : Q) (l : Z) :
  (2 ^ l <= q)%Q -> (q < 2 ^ (l + 1))%Q -> ilog2 q = l.
Proof.
  intros H1 H2.
  assert (Hq : (0 < q)%Q) by (pose proof (two_pos l); lra).
  destruct (ilog2_spec q Hq) as [S1 S2].
  destruct (Z.lt_trichotomy (ilog2 q) l) as [Hlt|[Heq|Hgt]]; [|exact Heq|]; exfalso.
  - pose proof (two_le (ilog2 q + 1) l ltac:(lia)). lra.
  - pose proof (two_le (l + 1) (ilog2 q) ltac:(lia)). lra.
Qed.

Lemma ilog2_comp (x y : Q) : (0 < x)%Q -> (x == y)%Q -> ilog2 x = ilog2 y.
Proof.
  intros Hx E. symmetry. destruct (ilog2_spec x Hx) as [S1 S2].
  apply ilog2_unique; rewrite <- E; assumption.
Qed.

Lemma ilog2_mono (x y : Q) : (0 < x)%Q -> (x <= y)%Q -> ilog2 x <= ilog2 y.
Proof.
  intros Hx Hxy.
  destruct (ilog2_spec x Hx) as [X1 X2].
  destruct (ilog2_spec y ltac:(lra)) as [Y1 Y2].
  destruct (Z_le_gt_dec (ilog2 x) (ilog2 y)) as [H|H]; [exact H|exfalso].
  pose proof (two_le (ilog2 y + 1) (ilog2 x) ltac:(lia)). lra.
Qed.

Lemma ilog2_lt (q : Q) (k : Z) : (0 < q)%Q -> (q < 2 ^ k)%Q -> ilog2 q < k.
Proof.
  intros Hq Hk. destruct (ilog2_spec q Hq) as [S1 _].
  destruct (Z_lt_le_dec (ilog2 q) k) as [H|H]; [exact H|exfalso].
  pose proof (two_le k (ilog2 q) H). lra.
Qed.

(** *** Rounding to a double *)

Lemma rnd_pos_value (q : Q) :
  (rnd_pos q == inject_Z (rne (q / 2 ^ exponent q)) * 2 ^ exponent q)%Q.
Proof. unfold rnd_pos. apply Qred_correct. Qed.

Lemma exponent_comp (x y : Q) : (0 < x)%Q -> (x == y)%Q -> exponent x = exponent y.
Proof. intros Hx E. unfold exponent. rewrite (ilog2_comp x y Hx E). reflexivity. Qed.

Lemma rnd_pos_comp (x y : Q) : (0 < x)%Q -> (x == y)%Q -> rnd_pos x = rnd_pos y.
Proof.
  intros Hx E. unfold rnd_pos. apply Qred_complete.
  rewrite (exponent_comp x y Hx E).
  rewrite (rne_comp (x / 2 ^ exponent y) (y / 2 ^ exponent y)) by (rewrite E; reflexivity).
  reflexivity.
Qed.

Lemma rnd_of_pos (q : Q) : (0 < q)%Q -> rnd q = rnd_pos q.
Proof.
  destruct q as [[|a|a] b]; unfold Qlt; cbn; intro H; try lia. reflexivity.
Qed.

Lemma rnd_of_neg (q : Q) : (q < 0)%Q -> rnd q = (- rnd_pos (- q))%Q.
Proof.
  destruct q as [[|a|a] b]; unfold Qlt; cbn; intro H; try lia. reflexivity.
Qed.

Lemma rnd_of_zero (q : Q) : (q == 0)%Q -> rnd q = 0%Q.
Proof.
  destruct q as [[|a|a] b]; unfold Qeq; cbn; intro H; try lia. reflexivity.
Qed.

Lemma rnd_comp (x y : Q) : (x == y)%Q -> rnd x = rnd y.
Proof.
  intro E.
  destruct (Q_dec x 0) as [[Hneg|Hpos]|Hz].
  - rewrite (rnd_of_neg x Hneg), (rnd_of_neg y) by (rewrite <- E; exact Hneg).
    rewrite (rnd_pos_comp (- x) (- y)); [reflexivity|lra|rewrite E; reflexivity].
  - rewrite (rnd_of_pos x Hpos), (rnd_of_pos y) by (rewrite <- E; exact Hpos).
    apply rnd_pos_comp; assumption.
  - rewrite (rnd_of_zero x Hz), (rnd_of_zero y) by (rewrite <- E; exact Hz). reflexivity.
Qed.

#[global] Instance rnd_proper : Proper (Qeq ==> Qeq) rnd.
Proof. intros x y E. rewrite (rnd_comp x y E). reflexivity. Qed.

Lemma scaled_nonneg (q : Q) (e : Z) : (0 <= q)%Q -> (0 <= q / 2 ^ e)%Q.
Proof.
  intro H. apply Qle_shift_div_l; [apply two_pos|]. lra.
Qed.

Lemma rnd_pos_nonneg (q : Q) : (0 <= q)%Q -> (0 <= rnd_pos q)%Q.
Proof.
  intro H. rewrite rnd_pos_value.
  apply Qmult_le_0_compat; [|apply Qlt_le_weak, two_pos].
  change 0%Q with (inject_Z 0). rewrite <- Zle_Qle.
  apply rne_ge. apply scaled_nonneg. exact H.
Qed.

Lemma rnd_nonneg (q : Q) : (0 <= q)%Q -> (0 <= rnd q)%Q.
Proof.
  intro H. destruct (Qle_lt_or_eq _ _ H) as [Hpos|Hz].
  - rewrite (rnd_of_pos q Hpos). apply rnd_pos_nonneg. exact H.
  - rewrite (rnd_of_zero q) by (symmetry; exact Hz). lra.
Qed.

Lemma rnd_nonpos (q : Q) : (q <= 0)%Q -> (rnd q <= 0)%Q.
Proof.
  intro H. destruct (Qle_lt_or_eq _ _ H) as [Hneg|Hz].
  - rewrite (rnd_of_neg q Hneg).
    pose proof (rnd_pos_nonneg (- q) ltac:(lra)). lra.
  - rewrite (rnd_of_zero q Hz). lra.
Qed.

(** The scaled number lies below [2 ^ 53], and at or above [2 ^ 52]
    unless the number is subnormal. *)
Lemma scaled_lt (q : Q) : (0 < q)%Q -> (q / 2 ^ exponent q < 2 ^ 53)%Q.
Proof.
  intro Hq. apply Qlt_shift_div_r; [apply two_pos|].
  rewrite <- two_plus.
  destruct (ilog2_spec q Hq) as [_ S2].
  apply Qlt_le_trans with (2 ^ (ilog2 q + 1))%Q; [exact S2|].
  apply two_le. unfold exponent. lia.
Qed.

Lemma scaled_ge (q : Q) :
  (0 < q)%Q -> emin < exponent q -> (2 ^ 52 <= q / 2 ^ exponent q)%Q.
Proof.
  intros Hq He. apply Qle_shift_div_l; [apply two_pos|].
  rewrite <- two_plus.
  destruct (ilog2_spec q Hq) as [S1 _].
  apply Qle_trans with (2 ^ ilog2 q)%Q; [|exact S1].
  apply two_le. unfold exponent in *. lia.
Qed.

Lemma rnd_pos_mono (x y : Q) : (0 < x)%Q -> (x <= y)%Q -> (rnd_pos x <= rnd_pos y)%Q.
Proof.
  intros Hx Hxy. assert (Hy : (0 < y)%Q) by lra.
  rewrite !rnd_pos_value.
  assert (He : exponent x <= exponent y).
  { unfold exponent. pose proof (ilog2_mono x y Hx Hxy). lia. }
  destruct (Z_le_lt_eq_dec _ _ He) as [Hlt|Heq].
  - pose proof (scaled_lt x Hx) as Sx.
    pose proof (scaled_ge y Hy ltac:(unfold exponent in *; lia)) as Sy.
    assert (Mx : (inject_Z (rne (x / 2 ^ exponent x)) <= 2 ^ 53)%Q).
    { rewrite <- (two_Z 53), <- Zle_Qle by lia. apply rne_le.
      rewrite two_Z by lia. apply Qlt_le_weak. exact Sx. }
    assert (My : (2 ^ 52 <= inject_Z (rne (y / 2 ^ exponent y)))%Q).
    { rewrite <- (two_Z 52), <- Zle_Qle by lia. apply rne_ge.
      rewrite two_Z by lia. exact Sy. }
    apply Qle_trans with (2 ^ 53 * 2 ^ exponent x)%Q.
    { apply Qmult_le_compat_r; [exact Mx|apply Qlt_le_weak, two_pos]. }
    apply Qle_trans with (2 ^ 52 * 2 ^ exponent y)%Q.
    { rewrite <- !two_plus. apply two_le. lia. }
    apply Qmult_le_compat_r; [exact My|apply Qlt_le_weak, two_pos].
  - rewrite Heq.
    apply Qmult_le_compat_r; [|apply Qlt_le_weak, two_pos].
    rewrite <- Zle_Qle. apply rne_mono.
    apply Qmult_le_compat_r; [exact Hxy|].
    apply Qlt_le_weak, Qinv_lt_0_compat, two_pos.
Qed.

Lemma rnd_mono (x y : Q) : (x <= y)%Q -> (rnd x <= rnd y)%Q.
Proof.
  intro Hxy.
  destruct (Q_dec x 0) as [[Hx|Hx]|Hx].
  - destruct (Q_dec y 0) as [[Hy|Hy]|Hy].
    + rewrite (rnd_of_neg x Hx), (rnd_of_neg y Hy).
      pose proof (rnd_pos_mono (- y) (- x) ltac:(lra) ltac:(lra)). lra.
    + pose proof (rnd_nonpos x ltac:(lra)). pose proof (rnd_nonneg y ltac:(lra)). lra.
    + pose proof (rnd_nonpos x ltac:(lra)). pose proof (rnd_nonneg y ltac:(lra)). lra.
  - rewrite (rnd_of_pos x Hx), (rnd_of_pos y) by lra.
    apply rnd_pos_mono; assumption.
  - pose proof (rnd_nonpos x ltac:(lra)). pose proof (rnd_nonneg y ltac:(lra)). lra.
Qed.

(** A number that scales to an integer is a double. *)
Lemma rnd_pos_exact (q : Q) (k : Z) :
  (q / 2 ^ exponent q == inject_Z k)%Q -> (rnd_pos q == q)%Q.
Proof.
  intro E. rewrite rnd_pos_value, (rne_comp _ _ E), rne_Z, <- E.
  field. pose proof (two_pos (exponent q)). lra.
Qed.

Lemma rnd_pos_Z (n : Z) : 0 < n <= 2 ^ 53 -> (rnd_pos (inject_Z n) == inject_Z n)%Q.
Proof.
  intros [Hn0 Hn].
  assert (Hq : (0 < inject_Z n)%Q) by (change 0%Q with (inject_Z 0); rewrite <- Zlt_Qlt; lia).
  assert (Hl : ilog2 (inject_Z n) < 54).
  { apply ilog2_lt; [exact Hq|].
    rewrite <- (two_Z 54), <- Zlt_Qlt by lia. lia. }
  set (e := exponent (inject_Z n)).
  assert (He : e <= 1) by (unfold e, exponent, emin; lia).
  destruct (Z_le_gt_dec e 0) as [Hneg|Hpos].
  - apply (rnd_pos_exact _ (n * 2 ^ (- e))). fold e.
    rewrite inject_Z_mult, two_Z by lia.
    rewrite (Qpower_opp 2 e). reflexivity.
  - assert (E1 : e = 1) by lia.
    assert (Hil : ilog2 (inject_Z n) = 53) by (unfold e, exponent, emin in E1; lia).
    destruct (ilog2_spec _ Hq) as [S1 _]. rewrite Hil in S1.
    rewrite <- (two_Z 53), <- Zle_Qle in S1 by lia.
    assert (n = 2 ^ 53) as -> by lia.
    apply (rnd_pos_exact _ (2 ^ 52)). fold e. rewrite E1. reflexivity.
Qed.

(** Integers up to [2 ^ 53] in magnitude are doubles. *)
Lemma double_Z (n : Z) : - 2 ^ 53 <= n <= 2 ^ 53 -> double (inject_Z n).
Proof.
  intro Hn. unfold double.
  destruct (Z.lt_trichotomy n 0) as [Hneg|[->|Hpos]].
  - rewrite rnd_of_neg by (change 0%Q with (inject_Z 0); rewrite <- Zlt_Qlt; lia).
    rewrite <- inject_Z_opp, rnd_pos_Z by lia.
    rewrite inject_Z_opp. ring.
  - reflexivity.
  - rewrite rnd_of_pos by (change 0%Q with (inject_Z 0); rewrite <- Zlt_Qlt; lia).
    apply rnd_pos_Z. lia.
Qed.

Lemma rnd_le_double (x y : Q) : double y -> (x <= y)%Q -> (rnd x <= y)%Q.
Proof.
  intros Hy Hxy. unfold double in Hy.
  apply Qle_trans with (rnd y); [apply rnd_mono; exact Hxy|rewrite Hy; apply Qle_refl].
Qed.

Lemma rnd_ge_double (x y : Q) : double y -> (y <= x)%Q -> (y <= rnd x)%Q.
Proof.
  intros Hy Hxy. unfold double in Hy.
  apply Qle_trans with (rnd y); [rewrite Hy; apply Qle_refl|apply rnd_mono; exact Hxy].
Qed.
(** ** Columns and rows of the grid *)

Lemma colX_0 (ax tw : Q) : (colX ax tw 0 == ax)%Q.
Proof. unfold colX, num. simpl. ring. Qed.

Lemma colX_S (ax tw : Q) (c : nat) : (colX ax tw (S c) == colX ax tw c + tw)%Q.
Proof. unfold colX. rewrite num_S. ring. Qed.

Lemma steps_0 (t : Q) : (num 0 * t == 0)%Q.
Proof. unfold num. simpl. ring. Qed.

Lemma steps_S (n : nat) (t : Q) : (num (S n) * t == num n * t + t)%Q.
Proof. rewrite num_S. ring. Qed.

(** *** What the calls of a plan paint *)

Lemma ops_on_app (r : Receiver) (a b : list (Receiver * DrawOp)) :
  ops_on r (a ++ b) = ops_on r a ++ ops_on r b.
Proof. unfold ops_on. rewrite filter_app, map_app. reflexivity. Qed.

Lemma paint_app (p : Painter) (a b : list DrawOp) :
  paint p (a ++ b) = paint (paint p a) b.
Proof. unfold paint. apply fold_left_app. Qed.

Section Painting.

Variables (reflect gb : bool) (tw th : Q).

(** One tile, drawn on an untransformed surface, lands where the cursor
    stands and leaves the transform as it found it. *)
Lemma paint_tile (sv : list (Q * Q)) (done : list Tile) (pl : Placement) :
  exists t,
    paint {| scale_x := 1; scale_y := 1; saved := sv; painted := done |}
          (ops_on (receiver gb)
             (draw_tile reflect gb tw th (pl_row pl) (pl_col pl) (pl_x pl) (pl_y pl)))
    = {| scale_x := 1; scale_y := 1; saved := sv; painted := done ++ [t] |}
    /\ placed_as reflect tw th pl t.
Proof.
  destruct pl as [rf cf x y]. cbn [pl_row pl_col pl_x pl_y].
  destruct reflect, gb, rf, cf; cbn;
    (eexists; split; [reflexivity|]);
    unfold placed_as; cbn; repeat split; ring.
Qed.

Lemma paint_plan (plan : list Placement) :
  forall sv done,
  exists ts,
    paint {| scale_x := 1; scale_y := 1; saved := sv; painted := done |}
          (ops_on (receiver gb) (draw_plan reflect gb tw th plan))
    = {| scale_x := 1; scale_y := 1; saved := sv; painted := done ++ ts |}
    /\ Forall2 (placed_as reflect tw th) plan ts.
Proof.
  induction plan as [|pl plan IH]; intros sv done.
  - exists []. rewrite app_nil_r. split; [reflexivity|constructor].
  - unfold draw_plan. cbn [flat_map]. fold (draw_plan reflect gb tw th plan).
    rewrite ops_on_app, paint_app.
    destruct (paint_tile sv done pl) as (t & -> & Ht).
    destruct (IH sv (done ++ [t])) as (ts & -> & Hts).
    exists (t :: ts). rewrite <- app_assoc. split; [reflexivity|].
    constructor; assumption.
Qed.

Lemma tiles_of_plan (plan : list Placement) :
  Forall2 (placed_as reflect tw th) plan
          (tiles_on (receiver gb) (draw_plan reflect gb tw th plan)).
Proof.
  unfold tiles_on, blank.
  destruct (paint_plan plan [] []) as (ts & -> & Hts). exact Hts.
Qed.

End Painting.

Lemma Forall2_nth_error_r {A B : Type} (R : A -> B -> Prop) (l : list A) (l' : list B) :
  Forall2 R l l' ->
  forall i b, nth_error l' i = Some b -> exists a, nth_error l i = Some a /\ R a b.
Proof.
  induction 1 as [|a b0 l l' Hab _ IH]; intros i b Hi.
  - destruct i; discriminate.
  - destruct i as [|i]; cbn in Hi.
    + injection Hi as <-. exists a. split; [reflexivity|exact Hab].
    + exact (IH i b Hi).
Qed.



Lemma placed_covers (reflect : bool) (tw th : Q) (pl : Placement) (t : Tile) (px py : Q) :
  (0 < tw)%Q -> (0 < th)%Q ->
  placed_as reflect tw th pl t ->
  covers t px py ->
  (pl_x pl <= px)%Q /\ (px < pl_x pl + tw)%Q /\ (pl_y pl <= py)%Q /\ (py < pl_y pl + th)%Q.
Proof.
  intros Htw Hth (Hx & Hy & Hw & Hh & _). unfold covers.
  rewrite (Q.min_l (tile_x t) (tile_x t + tile_w t)) by lra.
  rewrite (Q.max_r (tile_x t) (tile_x t + tile_w t)) by lra.
  rewrite (Q.min_l (tile_y t) (tile_y t + tile_h t)) by lra.
  rewrite (Q.max_r (tile_y t) (tile_y t + tile_h t)) by lra.
  intros [[H1 H2] [H3 H4]]. repeat split; lra.
Qed.



(** ** Running [textureOverlay] *)

Lemma bind_normal {A B : Type} (m : M A) (f : A -> M B) (w w' : World) (a : A) :
  m w = (Normal a, w') -> bind m f w = f a w'.
Proof. intro E. unfold bind. rewrite E. reflexivity. Qed.

(** Nothing is thrown once the arguments are validated and resolved. *)
Lemma animate_step_normal (p : Resolved) (w : World) :
  fst (animate_step p w) = Normal tt.
Proof.
  unfold animate_step, bind, read, set_textureOverlayState, write, next_random, ret.
  destruct (_animate p); [|reflexivity].
  destruct (frameCount (textureOverlayState (grain w)) + 1 >=? _animateAtFrame p);
    reflexivity.
Qed.

Lemma composite_never_throws (fuel : nat) (pg : Value) (p : Resolved) (w : World) (e : Exn) :
  fst (composite fuel pg p w) <> Thrown e.
Proof.
  unfold composite, call_on, bind, read, emit, write, lift, ret.
  destruct (truthy pg), (instanceof pg P5Graphics), (isGraphicsBuffer p);
    cbn; try discriminate;
    match goal with |- context [sweep ?a ?b ?c ?d ?e ?f ?g ?h ?i ?j ?k ?l] =>
      destruct (sweep a b c d e f g h i j k l) end; discriminate.
Qed.

(** ** Fuel *)

Section Fuel.

Variables (reflect gb : bool) (W H tw th ax : Q).

(** More fuel changes nothing to a loop that ended. *)
Lemma sweep_row_fuel_mono :
  forall fuel fuel' rf x y cf res,
    (fuel <= fuel')%nat ->
    sweep_row reflect gb W tw th ax fuel rf x y cf = Some res ->
    sweep_row reflect gb W tw th ax fuel' rf x y cf = Some res.
Proof.
  induction fuel as [|fuel IH]; intros fuel' rf x y cf res Hle; [discriminate|].
  destruct fuel' as [|fuel']; [lia|].
  cbn [sweep_row].
  destruct (Qltb x W); [|auto].
  destruct (Qgeb (rnd (x + tw)) W); [auto|].
  destruct (sweep_row reflect gb W tw th ax fuel rf (rnd (x + tw)) y (negb cf)) as [r1|] eqn:E;
    [|discriminate].
  rewrite (IH fuel' _ _ _ _ r1 ltac:(lia) E). auto.
Qed.

Lemma sweep_fuel_mono :
  forall fuel fuel' x y rf cf ops,
    (fuel <= fuel')%nat ->
    sweep reflect gb W H tw th ax fuel x y rf cf = Some ops ->
    sweep reflect gb W H tw th ax fuel' x y rf cf = Some ops.
Proof.
  induction fuel as [|fuel IH]; intros fuel' x y rf cf ops Hle; [discriminate|].
  destruct fuel' as [|fuel']; [lia|].
  cbn [sweep].
  destruct (Qltb y H); [|auto].
  destruct (sweep_row reflect gb W tw th ax fuel rf x y cf) as [[[[x1 y1] c1] o1]|] eqn:E;
    [|discriminate].
  rewrite (sweep_row_fuel_mono fuel fuel' _ _ _ _ _ ltac:(lia) E).
  destruct (sweep reflect gb W H tw th ax fuel x1 y1 (negb rf) c1) as [o2|] eqn:E2;
    [|discriminate].
  rewrite (IH fuel' _ _ _ _ o2 ltac:(lia) E2). auto.
Qed.

(** So the calls of a sweep that ends do not depend on the fuel. *)
Lemma sweep_deterministic :
  forall fuel fuel' x y rf cf ops ops',
    sweep reflect gb W H tw th ax fuel x y rf cf = Some ops ->
    sweep reflect gb W H tw th ax fuel' x y rf cf = Some ops' ->
    ops = ops'.
Proof.
  intros fuel fuel' x y rf cf ops ops' E E'.
  apply (sweep_fuel_mono fuel (Nat.max fuel fuel')) in E; [|lia].
  apply (sweep_fuel_mono fuel' (Nat.max fuel fuel')) in E'; [|lia].
  congruence.
Qed.

End Fuel.

(** ** Which computations touch the world *)

Create HintDb pure.

Lemma pure_ret {A : Type} (a : A) : pure (ret a).
Proof. intro w. reflexivity. Qed.

Lemma pure_lift {A : Type} (c : Completion A) : pure (lift c).
Proof. intro w. reflexivity. Qed.

Lemma pure_throw {A : Type} (e : Exn) : pure (@throw A e).
Proof. intro w. reflexivity. Qed.

Lemma pure_read {A : Type} (f : World -> A) : pure (read f).
Proof. intro w. reflexivity. Qed.

Lemma pure_bind {A B : Type} (m : M A) (f : A -> M B) :
  pure m -> (forall a, pure (f a)) -> pure (bind m f).
Proof.
  intros Hm Hf w. unfold bind.
  specialize (Hm w). destruct (m w) as [[a|e| |] w']; cbn in Hm; subst w'; cbn; auto.
  apply Hf.
Qed.

Lemma pure_if {A : Type} (b : bool) (m m' : M A) :
  pure m -> pure m' -> pure (if b then m else m').
Proof. destruct b; auto. Qed.

#[local] Hint Resolve pure_ret pure_lift pure_throw pure_read pure_bind pure_if : pure.

Lemma pure_throw_if (b : bool) (msg : string) : pure (throw_if b msg).
Proof. unfold throw_if. auto with pure. Qed.

Lemma pure_check_optional_prop (obj : Value) (prop t msg : string) :
  pure (check_optional_prop obj prop t msg).
Proof.
  unfold check_optional_prop. apply pure_bind; [auto with pure|].
  intro a. apply pure_throw_if.
Qed.

#[local] Hint Resolve pure_throw_if pure_check_optional_prop : pure.

Lemma pure_validateArguments (method : string) (args : list Value) :
  pure (validateArguments method args).
Proof.
  unfold validateArguments.
  repeat first [ apply pure_bind; [|intro]
               | apply pure_if
               | solve [auto with pure] ].
Qed.

Lemma pure_round_prop_or (obj : Value) (prop : string) (dflt : Z) :
  pure (round_prop_or obj prop dflt).
Proof.
  unfold round_prop_or.
  repeat first [ apply pure_bind; [|intro]
               | apply pure_if
               | solve [auto with pure] ].
Qed.

Lemma pure_tile_size (config textureImage : Value) (prop : string) :
  pure (tile_size config textureImage prop).
Proof.
  unfold tile_size.
  repeat first [ apply pure_bind; [|intro]
               | apply pure_if
               | solve [auto with pure] ].
Qed.

#[local] Hint Resolve pure_validateArguments pure_round_prop_or pure_tile_size : pure.

Lemma pure_resolve (textureImage config pg : Value) : pure (resolve textureImage config pg).
Proof.
  unfold resolve.
  repeat first [ apply pure_bind; [|intro]
               | apply pure_if
               | solve [auto with pure] ].
Qed.

(** What a computation that is pure leaves behind, whatever it returns. *)
Lemma pure_run {A : Type} (m : M A) (w : World) :
  pure m -> m w = (fst (m w), w).
Proof. intro Hm. specialize (Hm w). destruct (m w) as [c w']. cbn in *. subst. reflexivity. Qed.

(** ** Running a method body step by step *)

Lemma bind_thrown {A B : Type} (m : M A) (f : A -> M B) (w w' : World) (e : Exn) :
  m w = (Thrown e, w') -> bind m f w = (Thrown e, w').
Proof. intro E. unfold bind. rewrite E. reflexivity. Qed.

Lemma bind_unmodelled {A B : Type} (m : M A) (f : A -> M B) (w w' : World) :
  m w = (Unmodelled, w') -> bind m f w = (Unmodelled, w').
Proof. intro E. unfold bind. rewrite E. reflexivity. Qed.

Lemma bind_out_of_fuel {A B : Type} (m : M A) (f : A -> M B) (w w' : World) :
  m w = (OutOfFuel, w') -> bind m f w = (OutOfFuel, w').
Proof. intro E. unfold bind. rewrite E. reflexivity. Qed.

Lemma pure_cases {A : Type} (m : M A) (w : World) :
  pure m ->
  (exists a, m w = (Normal a, w)) \/ (exists e, m w = (Thrown e, w))
  \/ m w = (Unmodelled, w) \/ m w = (OutOfFuel, w).
Proof.
  intro Hm. rewrite (pure_run m w Hm).
  destruct (fst (m w)) as [a|e| |]; eauto.
Qed.

Lemma bind_read {A B : Type} (g : World -> A) (f : A -> M B) (w : World) :
  bind (read g) f w = f (g w) w.
Proof. reflexivity. Qed.

Lemma bind_write {B : Type} (g : World -> World) (f : unit -> M B) (w : World) :
  bind (write g) f w = f tt (g w).
Proof. reflexivity. Qed.

(** Split on how a pure step completes, and push the result through
    the binds of the goal. *)
Ltac pure_step m Hpure w a E :=
  destruct (pure_cases m w Hpure) as [[a E]|[[? E]|[E|E]]];
  [ rewrite ?(bind_normal _ _ _ _ _ E)
  | rewrite ?(bind_thrown _ _ _ _ _ E)
  | rewrite ?(bind_unmodelled _ _ _ _ E)
  | rewrite ?(bind_out_of_fuel _ _ _ _ E) ].

(** ** Animation *)

(** The sweep and the calls around it leave the instance alone. *)
Lemma composite_grain (fuel : nat) (pg : Value) (p : Resolved) (w : World) :
  grain (snd (composite fuel pg p w)) = grain w.
Proof.
  unfold composite, call_on, bind, read, emit, write, lift, ret.
  destruct (truthy pg), (instanceof pg P5Graphics), (isGraphicsBuffer p);
    cbn; try reflexivity;
    match goal with |- context [sweep ?a ?b ?c ?d ?e ?f ?g ?h ?i ?j ?k ?l] =>
      destruct (sweep a b c d e f g h i j k l) end; reflexivity.
Qed.

(** What the animation step leaves in the instance. *)
Lemma animate_step_spec (p : Resolved) (w : World) :
  let g := grain w in
  let st := textureOverlayState g in
  let r := random g in
  let g' := grain (snd (animate_step p w)) in
  stream (random g') = stream r
  /\ if _animate p then
       if frameCount st + 1 >=? _animateAtFrame p then
         textureOverlayState g' =
           {| frameCount := 0;
              tX_anchor := - floor (stream r (taken r) * inject_Z (_animateAmount p));
              tX := tX st;
              tY := - floor (stream r (S (taken r)) * inject_Z (_animateAmount p)) |}
       else
         textureOverlayState g' =
           {| frameCount := frameCount st + 1; tX_anchor := tX_anchor st;
              tX := tX st; tY := tY st |}
     else g' = g.
Proof.
  cbv zeta. unfold animate_step.
  destruct (_animate p); [|split; reflexivity].
  rewrite bind_read. unfold set_textureOverlayState at 1. rewrite bind_write.
  destruct (frameCount (textureOverlayState (grain w)) + 1 >=? _animateAtFrame p);
    split; reflexivity.
Qed.

(** The instance after a [textureOverlay] call is the one before it, or
    the one its animation step left. *)
Lemma textureOverlay_grain (fuel : nat) (textureImage config pg : Value) (w : World) :
  let w' := snd (textureOverlay fuel textureImage config pg w) in
  grain w' = grain w
  \/ exists p, resolve textureImage config pg w = (Normal p, w)
               /\ grain w' = grain (snd (animate_step p w)).
Proof.
  cbv zeta. unfold textureOverlay.
  pure_step (validateArguments "textureOverlay" [textureImage; config; pg])
            (pure_validateArguments "textureOverlay" [textureImage; config; pg]) w a E;
    try (left; reflexivity).
  pure_step (resolve textureImage config pg) (pure_resolve textureImage config pg) w p Ep;
    try (left; reflexivity).
  right. exists p. split; [exact Ep|].
  unfold bind at 1.
  destruct (animate_step p w) as [[[]|e| |] w1] eqn:Ea; cbn [snd];
    try reflexivity.
  apply composite_grain.
Qed.


(** ** The anchor never moves right or down *)

Lemma floor_scaled_nonneg (r : Q) (amount : Z) :
  (0 <= r)%Q -> 0 < amount -> 0 <= floor (r * inject_Z amount).
Proof.
  intros Hr Ha. unfold floor.
  change 0 with (Qfloor 0). apply Qfloor_resp_le.
  apply Qmult_le_0_compat; [exact Hr|].
  change 0%Q with (inject_Z 0). rewrite <- Zle_Qle. lia.
Qed.

(** C5.  From a fresh instance, whose anchor is (0, 0), and with a
    random source that returns numbers in [0, 1), any sequence of
    [textureOverlay] calls that resolve with animation enabled and a
    positive animate amount leaves both stored anchor coordinates at or
    below 0. *)
Theorem anchor_sign_invariant (math_random : nat -> Q) (cv : Surface) (w : World) :
  (forall n, (0 <= math_random n < 1)%Q) ->
  animated_from (start math_random cv) w ->
  tX_anchor (textureOverlayState (grain w)) <= 0
  /\ tY (textureOverlayState (grain w)) <= 0.
Proof.
  intros Hrnd Hrun.
  assert (Hinv : stream (random (grain w)) = math_random
                 /\ tX_anchor (textureOverlayState (grain w)) <= 0
                 /\ tY (textureOverlayState (grain w)) <= 0);
    [|tauto].
  induction Hrun as [|w fuel ti cfg pg Hrun (Hs & Hx & Hy) (p & Hp & Hanim & Hamt)].
  - cbn. repeat split; lia.
  - destruct (textureOverlay_grain fuel ti cfg pg w) as [-> | (p' & Ep & ->)];
      [repeat split; assumption|].
    rewrite Ep in Hp. cbn in Hp. injection Hp as ->.
    destruct (animate_step_spec p w) as [Hstream Hst].
    rewrite Hanim in Hst. rewrite Hstream.
    split; [exact Hs|].
    destruct (frameCount (textureOverlayState (grain w)) + 1 >=? _animateAtFrame p);
      rewrite Hst; cbn [tX_anchor tY]; [|split; assumption].
    rewrite Hs.
    pose proof (floor_scaled_nonneg _ _ (proj1 (Hrnd (taken (random (grain w))))) Hamt).
    pose proof (floor_scaled_nonneg _ _ (proj1 (Hrnd (S (taken (random (grain w)))))) Hamt).
    split; lia.
Qed.

Lemma anchor_sign_invariant_witness :
  let cv := {| width := 10; height := 10; pixelDensity := 1; pixels := [] |} in
  let config := VObject [("animate", VBool true)] in
  let w1 := snd (textureOverlay 20 (VImage 4 4) config VUndefined (start (fun _ => 1 # 2) cv)) in
  let w2 := snd (textureOverlay 20 (VImage 4 4) config VUndefined w1) in
  tX_anchor (textureOverlayState (grain w2)) <= 0
  /\ tY (textureOverlayState (grain w2)) <= 0.
Proof.
  intros cv config w1 w2.
  apply (anchor_sign_invariant (fun _ => 1 # 2) cv w2).
  - intro n. split; vm_compute; congruence.
  - apply animated_call; [apply animated_call; [apply animated_start|]|];
      (eexists; split; [vm_compute; reflexivity|split; reflexivity]).
Defined.

(** ** The config argument *)

(** Without a config, validation passes or throws its own error. *)
Lemma validate_without_config (textureImage pg : Value) (w : World) :
  validateArguments "textureOverlay" [textureImage; VUndefined; pg] w = (Normal tt, w)
  \/ exists msg,
       validateArguments "textureOverlay" [textureImage; VUndefined; pg] w
       = (Thrown (JsError msg), w).
Proof.
  unfold validateArguments, bind, read, throw_if, throw, lift, ret.
  destruct (ignoreErrors (grain w)); cbn; [left; reflexivity|].
  destruct (instanceof textureImage P5Image); cbn; [|right; eexists; reflexivity].
  destruct pg as [| | | | | | | | |[]]; cbn;
    try (left; reflexivity); try (right; eexists; reflexivity).
Qed.

(** C10.  Validation lets an undefined config through (with errors not
    ignored, a [p5.Image] texture and a [pg] that is absent or a
    [p5.Graphics], it passes), and rejects a config only when it is
    defined and no object.  Yet every [textureOverlay] call without a
    config ends in an exception before anything is drawn or any state
    is touched: the [TypeError] of reading [config.mode] whenever
    validation passes or is switched off, and validation's own error
    otherwise. *)
Theorem config_is_required :
  forall (fuel : nat) (textureImage pg : Value) (w : World),
    (exists e, textureOverlay fuel textureImage VUndefined pg w = (Thrown e, w))
    /\ (fst (validateArguments "textureOverlay" [textureImage; VUndefined; pg] w) = Normal tt ->
        textureOverlay fuel textureImage VUndefined pg w = (Thrown TypeError, w))
    /\ (instanceof textureImage P5Image = true ->
        pg = VUndefined \/ instanceof pg P5Graphics = true ->
        fst (validateArguments "textureOverlay" [textureImage; VUndefined; pg] w) = Normal tt)
    /\ (forall config,
          ignoreErrors (grain w) = false ->
          instanceof textureImage P5Image = true ->
          (exists msg,
              fst (validateArguments "textureOverlay" [textureImage; config; pg] w)
              = Thrown (JsError msg))
          \/ typeof config = "undefined" \/ typeof config = "object").
Proof.
  intros fuel ti pg w.
  assert (Hrun : validateArguments "textureOverlay" [ti; VUndefined; pg] w = (Normal tt, w) ->
                 textureOverlay fuel ti VUndefined pg w = (Thrown TypeError, w)).
  { intro E. unfold textureOverlay. rewrite (bind_normal _ _ _ _ _ E). reflexivity. }
  split; [|split; [|split]].
  - destruct (validate_without_config ti pg w) as [E|[msg E]].
    + exists TypeError. apply Hrun, E.
    + exists (JsError msg). unfold textureOverlay. apply bind_thrown, E.
  - intro Hv. apply Hrun.
    destruct (validate_without_config ti pg w) as [E|[msg E]]; [exact E|].
    rewrite E in Hv. cbn in Hv. discriminate.
  - intros Hti Hpg.
    destruct ti as [| | | | | | | | |[]]; try discriminate Hti.
    unfold validateArguments, bind, read, throw_if, throw, lift, ret.
    destruct (ignoreErrors (grain w)); cbn; [reflexivity|].
    destruct Hpg as [-> | Hpg]; [reflexivity|].
    destruct pg as [| | | | | | | | |[]]; try discriminate; reflexivity.
  - intros config Hign Hti.
    destruct ti as [| | | | | | | | |[]]; try discriminate Hti.
    unfold validateArguments, bind, read, throw_if, throw, lift, ret.
    rewrite Hign. cbn.
    destruct config; cbn; auto; left; eexists; reflexivity.
Qed.

Lemma config_is_required_witness :
  let w := start (fun _ => 0%Q)
             {| width := 10; height := 10; pixelDensity := 1; pixels := [] |} in
  textureOverlay 10 (VImage 4 4) VUndefined VUndefined w = (Thrown TypeError, w).
Proof.
  intro w.
  apply (proj1 (proj2 (config_is_required 10 (VImage 4 4) VUndefined w))).
  apply (proj1 (proj2 (proj2 (config_is_required 10 (VImage 4 4) VUndefined w)))).
  - reflexivity.
  - left. reflexivity.
Defined.

(** ** Pixel passes *)

Lemma for_pixels_step {A : Type} (body : Z -> A -> M A) (total i : Z) (a : A) (w : World) :
  i < total ->
  for_pixels body total i a w
  = bind (body i a) (fun a' => for_pixels body total (i + 4) a') w.
Proof.
  intro Hi. rewrite for_pixels_equation_1.
  destruct (Z_lt_dec i total) as [Hlt|Hge]; [|lia].
  rewrite for_pixels_clause_1_equation_1. reflexivity.
Qed.

Lemma for_pixels_done {A : Type} (body : Z -> A -> M A) (total i : Z) (a : A) (w : World) :
  total <= i -> for_pixels body total i a w = (Normal a, w).
Proof.
  intro Hi. rewrite for_pixels_equation_1.
  destruct (Z_lt_dec i total) as [Hlt|Hge]; [lia|].
  rewrite for_pixels_clause_1_equation_2. reflexivity.
Qed.

Lemma nth_error_set_nth (l : list Z) :
  forall (n j : nat) (v : Z),
    nth_error (set_nth n v l) j
    = if Nat.eqb j n then option_map (fun _ => v) (nth_error l j) else nth_error l j.
Proof.
  induction l as [|x l IH]; intros n j v.
  - destruct n, j; cbn; try reflexivity; destruct (Nat.eqb _ _); reflexivity.
  - destruct n as [|n], j as [|j]; cbn; try reflexivity.
    apply IH.
Qed.

Lemma nth_error_add_sample (sample : Z -> Z) (px : list Z) (i g : Z) (j : nat) :
  0 <= i ->
  nth_error (add_sample sample px i g) j
  = if Nat.eqb j (Z.to_nat i) then bump sample g (nth_error px j) else nth_error px j.
Proof.
  intro Hi. unfold add_sample, bump.
  destruct (Z.ltb_spec i 0) as [Hneg|_]; [lia|].
  destruct (nth_error px (Z.to_nat i)) as [v|] eqn:E.
  - rewrite nth_error_set_nth.
    destruct (Nat.eqb_spec j (Z.to_nat i)) as [->|]; [rewrite E|]; reflexivity.
  - destruct (Nat.eqb_spec j (Z.to_nat i)) as [->|]; [rewrite E|]; reflexivity.
Qed.

Lemma skip_random_0 (w : World) : skip_random 0 w = w.
Proof. destruct w as [[iw ie [s t] ta ov] cv dr sty]. reflexivity. Qed.

Lemma skip_random_add (a b : nat) (w : World) :
  skip_random a (skip_random b w) = skip_random (a + b) w.
Proof.
  unfold skip_random, set_grain. cbn. rewrite Nat.add_assoc. reflexivity.
Qed.

Lemma upcoming_skip (j n : nat) (w : World) :
  upcoming (skip_random j w) n = upcoming w (n + j).
Proof. unfold upcoming, skip_random. cbn. rewrite Nat.add_assoc. reflexivity. Qed.

Section PixelLoop.

Variable sample : Z -> Z.
Variable body : Z -> list Z -> M (list Z).
(** Random numbers a pixel takes, the channels it writes, what a random
    number becomes, and which of its numbers a channel uses. *)
Variable m : nat.
Variable on : nat -> bool.
Variable delta : Q -> Z.
Variable off : nat -> nat.

Hypothesis body_spec :
  forall (k : nat) (px : list Z) (w : World),
  exists px1,
    body (4 * Z.of_nat k) px w = (Normal px1, skip_random m w)
    /\ forall p c, (c < 4)%nat ->
         nth_error px1 (4 * p + c)
         = if Nat.eqb p k && on c
           then bump sample (delta (upcoming w (off c))) (nth_error px (4 * p + c))
           else nth_error px (4 * p + c).

Lemma loop_spec (total : Z) :
  forall (n k : nat) (px : list Z) (w : World),
    total <= 4 * Z.of_nat (k + n) ->
    (forall q, (q < n)%nat -> 4 * Z.of_nat (k + q) < total) ->
    exists px',
      for_pixels body total (4 * Z.of_nat k) px w = (Normal px', skip_random (m * n) w)
      /\ forall p c, (c < 4)%nat ->
           nth_error px' (4 * p + c)
           = if Nat.leb k p && Nat.ltb p (k + n) && on c
             then bump sample (delta (upcoming w (off c + m * (p - k))))
                       (nth_error px (4 * p + c))
             else nth_error px (4 * p + c).
Proof.
  induction n as [|n IH]; intros k px w Hhi Hlo.
  - exists px. split.
    + rewrite for_pixels_done by lia. rewrite Nat.mul_0_r, skip_random_0. reflexivity.
    + intros p c Hc.
      destruct (Nat.leb_spec k p), (Nat.ltb_spec p (k + 0)); cbn; try reflexivity; lia.
  - rewrite for_pixels_step by (specialize (Hlo 0%nat); rewrite Nat.add_0_r in Hlo; lia).
    destruct (body_spec k px w) as (px1 & Hbody & Hpx1).
    rewrite (bind_normal _ _ _ _ _ Hbody).
    replace (4 * Z.of_nat k + 4) with (4 * Z.of_nat (S k)) by lia.
    destruct (IH (S k) px1 (skip_random m w)) as (px' & Hrun & Hpx').
    + lia.
    + intros q Hq. specialize (Hlo (S q)). lia.
    + exists px'. split.
      * rewrite Hrun, skip_random_add. f_equal. f_equal. lia.
      * intros p c Hc. rewrite (Hpx' p c Hc), (Hpx1 p c Hc).
        destruct (Nat.eqb_spec p k) as [->|Hne].
        -- replace (Nat.leb (S k) k) with false by (symmetry; apply Nat.leb_gt; lia).
           rewrite Nat.leb_refl.
           replace (Nat.ltb k (k + S n)) with true by (symmetry; apply Nat.ltb_lt; lia).
           cbn [andb]. rewrite Nat.sub_diag, Nat.mul_0_r, Nat.add_0_r. reflexivity.
        -- cbn [andb].
           destruct (Nat.leb_spec (S k) p) as [H1|H1].
           ++ replace (Nat.leb k p) with true by (symmetry; apply Nat.leb_le; lia).
              replace (S k + n)%nat with (k + S n)%nat by lia.
              destruct (Nat.ltb p (k + S n)); cbn [andb]; [|reflexivity].
              destruct (on c); [|reflexivity].
              rewrite upcoming_skip.
              replace (off c + m * (p - S k) + m)%nat with (off c + m * (p - k))%nat;
                [reflexivity|].
              replace (p - k)%nat with (S (p - S k)) by lia.
              rewrite Nat.mul_succ_r. lia.
           ++ replace (Nat.leb k p) with false by (symmetry; apply Nat.leb_gt; lia).
              reflexivity.
Qed.

End PixelLoop.

Ltac split_eqb :=
  repeat match goal with
         | |- context [Nat.eqb ?a ?b] => destruct (Nat.eqb_spec a b); try lia
         end.

Lemma granulateSimple_body_spec (sample : Z -> Z) (a : Z) (alpha : bool)
      (k : nat) (px : list Z) (w : World) :
  exists px1,
    granulateSimple_body sample a alpha (4 * Z.of_nat k) px w = (Normal px1, skip_random 1 w)
    /\ forall p c, (c < 4)%nat ->
         nth_error px1 (4 * p + c)
         = if Nat.eqb p k && (Nat.ltb c 3 || alpha)
           then bump sample (grainAmount_of a (upcoming w 0)) (nth_error px (4 * p + c))
           else nth_error px (4 * p + c).
Proof.
  unfold granulateSimple_body, randomIntInclusive, bind, next_random, ret.
  eexists. split; [reflexivity|].
  intros p c Hc.
  change (randomIntInclusive_with _ _ _) with (grainAmount_of a (upcoming w 0)).
  destruct alpha; rewrite !nth_error_add_sample by lia;
    destruct (Nat.eqb_spec p k) as [->|Hne];
    destruct c as [|[|[|[|c]]]]; try lia; cbn [andb orb Nat.ltb Nat.leb];
    split_eqb; reflexivity.
Qed.

Lemma granulateChannels_body_spec (sample : Z -> Z) (a : Z) (alpha : bool)
      (k : nat) (px : list Z) (w : World) :
  exists px1,
    granulateChannels_body sample a alpha (4 * Z.of_nat k) px w
    = (Normal px1, skip_random (if alpha then 4 else 3) w)
    /\ forall p c, (c < 4)%nat ->
         nth_error px1 (4 * p + c)
         = if Nat.eqb p k && (Nat.ltb c 3 || alpha)
           then bump sample (grainAmount_of a (upcoming w c)) (nth_error px (4 * p + c))
           else nth_error px (4 * p + c).
Proof.
  unfold granulateChannels_body, randomIntInclusive, bind, next_random, ret.
  destruct alpha; (eexists; split; [reflexivity|]); intros p c Hc;
    cbn [grain set_grain random stream taken];
    change (randomIntInclusive_with (stream (random (grain w)) (taken (random (grain w)))) _ _)
      with (grainAmount_of a (upcoming w 0));
    change (randomIntInclusive_with (stream (random (grain w)) (S (taken (random (grain w))))) _ _)
      with (grainAmount_of a (upcoming w 1));
    change (randomIntInclusive_with
              (stream (random (grain w)) (S (S (taken (random (grain w)))))) _ _)
      with (grainAmount_of a (upcoming w 2));
    try change (randomIntInclusive_with
              (stream (random (grain w)) (S (S (S (taken (random (grain w))))))) _ _)
      with (grainAmount_of a (upcoming w 3));
    rewrite !nth_error_add_sample by lia;
    destruct (Nat.eqb_spec p k) as [->|Hne];
    destruct c as [|[|[|[|c]]]]; try lia; cbn [andb orb Nat.ltb Nat.leb];
    split_eqb; reflexivity.
Qed.

(** Arguments of the documented types pass the validation of the
    granulate methods. *)
Lemma validate_granulate (method : string) (amount : Q) (alpha pg : Value) (target : Surface)
      (w : World) :
  method = "granulateSimple" \/ method = "granulateChannels" ->
  boolean_or_absent alpha -> targets pg w target ->
  validateArguments method [VNum amount; alpha; pg] w = (Normal tt, w).
Proof.
  intros Hm Ha Hpg.
  unfold validateArguments, bind, read, throw_if, throw, lift, ret.
  destruct (ignoreErrors (grain w)); cbn [negb]; [reflexivity|].
  destruct Hm as [-> | ->], Ha as [-> | [b ->]], Hpg as [[-> _] | ->]; reflexivity.
Qed.

Lemma surface_of_target (pg : Value) (w : World) (target : Surface) :
  targets pg w target ->
  surface_of pg w = (Normal (if truthy pg then OnPg else OnCanvas, target), w).
Proof. intros [[-> ->] | ->]; reflexivity. Qed.

Lemma bind_lift {A B : Type} (a : A) (f : A -> M B) (w : World) :
  bind (lift (Normal a)) f w = f a w.
Proof. reflexivity. Qed.

Lemma in_pass (total_px : Z) (p : nat) :
  Nat.leb 0 p && Nat.ltb p (0 + Z.to_nat total_px) = (4 * Z.of_nat p <? 4 * total_px).
Proof.
  cbn [Nat.leb andb Nat.add].
  destruct (Nat.ltb_spec p (Z.to_nat total_px)), (Z.ltb_spec (4 * Z.of_nat p) (4 * total_px));
    try reflexivity; lia.
Qed.

Lemma granulateSimple_run (sample : Z -> Z) (amount : Q) (alpha pg : Value)
      (target : Surface) (w : World) :
  boolean_or_absent alpha -> targets pg w target ->
  exists pg' w',
    granulateSimple sample (VNum amount) alpha pg w = (Normal pg', w')
    /\ forall p c, (c < 4)%nat ->
         nth_error (result_pixels pg' w') (4 * p + c)
         = if (4 * Z.of_nat p <? total_of (canvas w) target) && (Nat.ltb c 3 || truthy alpha)
           then bump sample (grainAmount_of (round amount) (upcoming w p))
                     (nth_error (pixels target) (4 * p + c))
           else nth_error (pixels target) (4 * p + c).
Proof.
  intros Ha Hpg. unfold granulateSimple.
  rewrite (bind_normal _ _ _ _ _
             (validate_granulate "granulateSimple" amount alpha pg target w
                                 (or_introl eq_refl) Ha Hpg)).
  cbn [to_number]. rewrite bind_lift.
  rewrite (bind_normal _ _ _ _ _ (surface_of_target pg w target Hpg)).
  unfold emit at 1. rewrite bind_write, bind_read.
  cbn [fst snd canvas].
  set (w1 := {| grain := grain w; canvas := canvas w;
                drawn := drawn w ++ [(if truthy pg then OnPg else OnCanvas, LoadPixels)];
                styled := styled w |}).
  set (n := (width (canvas w) * pixelDensity target) * (height (canvas w) * pixelDensity target)).
  destruct (loop_spec sample (granulateSimple_body sample (round amount) (truthy alpha))
              1 (fun c => Nat.ltb c 3 || truthy alpha)
              (grainAmount_of (round amount)) (fun _ => 0%nat)
              (granulateSimple_body_spec sample (round amount) (truthy alpha))
              (4 * n) (Z.to_nat n) 0%nat (pixels target) w1)
    as (px' & Hrun & Hpx').
  - lia.
  - intros q Hq. lia.
  - change (4 * Z.of_nat 0) with 0 in Hrun.
    replace (4 * (width (canvas w) * pixelDensity target)
               * (height (canvas w) * pixelDensity target)) with (4 * n) by (unfold n; ring).
    rewrite (bind_normal _ _ _ _ _ Hrun).
    unfold emit at 1. rewrite bind_write.
    unfold put_pixels. cbn [fst snd].
    destruct Hpg as [[-> ->] | ->]; cbn [truthy];
      (eexists; eexists; split; [reflexivity|]);
      intros p c Hc; cbn [result_pixels with_pixels pixels canvas set_canvas snd];
      rewrite (Hpx' p c Hc), in_pass; unfold total_of;
      replace (4 * (width (canvas w) * pixelDensity _) * (height (canvas w) * pixelDensity _))
        with (4 * n) by (unfold n; ring);
      cbn [Nat.add Nat.mul]; rewrite Nat.sub_0_r, Nat.add_0_r; reflexivity.
Qed.

Lemma granulateChannels_run (sample : Z -> Z) (amount : Q) (alpha pg : Value)
      (target : Surface) (w : World) :
  boolean_or_absent alpha -> targets pg w target ->
  exists pg' w',
    granulateChannels sample (VNum amount) alpha pg w = (Normal pg', w')
    /\ forall p c, (c < 4)%nat ->
         nth_error (result_pixels pg' w') (4 * p + c)
         = if (4 * Z.of_nat p <? total_of (canvas w) target) && (Nat.ltb c 3 || truthy alpha)
           then bump sample
                     (grainAmount_of (round amount)
                        (upcoming w (c + (if truthy alpha then 4 else 3) * p)))
                     (nth_error (pixels target) (4 * p + c))
           else nth_error (pixels target) (4 * p + c).
Proof.
  intros Ha Hpg. unfold granulateChannels.
  rewrite (bind_normal _ _ _ _ _
             (validate_granulate "granulateChannels" amount alpha pg target w
                                 (or_intror eq_refl) Ha Hpg)).
  cbn [to_number]. rewrite bind_lift.
  rewrite (bind_normal _ _ _ _ _ (surface_of_target pg w target Hpg)).
  unfold emit at 1. rewrite bind_write, bind_read.
  cbn [fst snd canvas].
  set (w1 := {| grain := grain w; canvas := canvas w;
                drawn := drawn w ++ [(if truthy pg then OnPg else OnCanvas, LoadPixels)];
                styled := styled w |}).
  set (n := (width (canvas w) * pixelDensity target) * (height (canvas w) * pixelDensity target)).
  destruct (loop_spec sample (granulateChannels_body sample (round amount) (truthy alpha))
              (if truthy alpha then 4 else 3)%nat (fun c => Nat.ltb c 3 || truthy alpha)
              (grainAmount_of (round amount)) (fun c => c)
              (granulateChannels_body_spec sample (round amount) (truthy alpha))
              (4 * n) (Z.to_nat n) 0%nat (pixels target) w1)
    as (px' & Hrun & Hpx').
  - lia.
  - intros q Hq. lia.
  - change (4 * Z.of_nat 0) with 0 in Hrun.
    replace (4 * (width (canvas w) * pixelDensity target)
               * (height (canvas w) * pixelDensity target)) with (4 * n) by (unfold n; ring).
    rewrite (bind_normal _ _ _ _ _ Hrun).
    unfold emit at 1. rewrite bind_write.
    unfold put_pixels. cbn [fst snd].
    destruct Hpg as [[-> ->] | ->]; cbn [truthy];
      (eexists; eexists; split; [reflexivity|]);
      intros p c Hc; cbn [result_pixels with_pixels pixels canvas set_canvas snd];
      rewrite (Hpx' p c Hc), in_pass; unfold total_of;
      replace (4 * (width (canvas w) * pixelDensity _) * (height (canvas w) * pixelDensity _))
        with (4 * n) by (unfold n; ring);
      rewrite Nat.sub_0_r; reflexivity.
Qed.

(** *** The draw *)

Lemma Qfloor_iff (x : Q) (v : Z) :
  Qfloor x = v <-> (inject_Z v <= x < inject_Z (v + 1))%Q.
Proof.
  split.
  - intros <-. split; [apply Qfloor_le|apply Qlt_floor].
  - intros [Hlo Hhi].
    pose proof (Qfloor_le x) as H1. pose proof (Qlt_floor x) as H2.
    assert (Ha : (inject_Z v < inject_Z (Qfloor x + 1))%Q) by lra.
    assert (Hb : (inject_Z (Qfloor x) < inject_Z (v + 1))%Q) by lra.
    rewrite <- Zlt_Qlt in Ha, Hb. lia.
Qed.

Lemma round_integer (amount : Q) (z : Z) : (amount == inject_Z z)%Q -> round amount = z.
Proof.
  intro E. unfold round. apply Qfloor_iff. rewrite inject_Z_plus, E.
  change (inject_Z 1) with 1%Q. split; lra.
Qed.

Lemma round_nonneg (amount : Q) : (0 <= amount)%Q -> 0 <= round amount.
Proof.
  intro H. unfold round. change 0 with (Qfloor 0). apply Qfloor_resp_le. lra.
Qed.

(** A draw is [v] exactly when the random number falls in slice [v + a]
    of the [2a + 1] slices of equal width. *)
Lemma grainAmount_slice (a : Z) (r : Q) (v : Z) :
  grainAmount_of a r = v
  <-> (inject_Z (v + a) <= r * inject_Z (2 * a + 1) < inject_Z (v + a + 1))%Q.
Proof.
  unfold grainAmount_of, randomIntInclusive_with, floor.
  rewrite Qceiling_Z, Qfloor_Z, Qfloor_iff.
  replace (a - - a + 1) with (2 * a + 1) by lia.
  rewrite !inject_Z_plus, inject_Z_opp.
  change (inject_Z 1) with 1%Q.
  split; intros [H1 H2]; split; lra.
Qed.

Lemma grainAmount_range (a : Z) (r : Q) :
  0 <= a -> (0 <= r < 1)%Q -> - a <= grainAmount_of a r <= a.
Proof.
  intros Ha [Hr0 Hr1].
  pose proof (proj1 (grainAmount_slice a r _) eq_refl) as [H1 H2].
  set (g := grainAmount_of a r) in *.
  assert (Hn : (0 < inject_Z (2 * a + 1))%Q)
    by (change 0%Q with (inject_Z 0); rewrite <- Zlt_Qlt; lia).
  assert (Hlo : (0 <= r * inject_Z (2 * a + 1))%Q) by (apply Qmult_le_0_compat; lra).
  assert (Hhi : (r * inject_Z (2 * a + 1) < 1 * inject_Z (2 * a + 1))%Q)
    by (apply Qmult_lt_compat_r; lra).
  assert (Ha' : (inject_Z 0 < inject_Z (g + a + 1))%Q) by (change (inject_Z 0) with 0%Q; lra).
  assert (Hb' : (inject_Z (g + a) < inject_Z (2 * a + 1))%Q) by lra.
  rewrite <- Zlt_Qlt in Ha', Hb'. lia.
Qed.

(** With a negative rounded amount the factor [max - min + 1] is
    negative and the draws fall in [a + 1 .. - a]. *)
Lemma grainAmount_range_negative (a : Z) (r : Q) :
  a < 0 -> (0 <= r < 1)%Q -> a + 1 <= grainAmount_of a r <= - a.
Proof.
  intros Ha [Hr0 Hr1].
  pose proof (proj1 (grainAmount_slice a r _) eq_refl) as [H1 H2].
  set (g := grainAmount_of a r) in *.
  assert (Hn : (0 < - inject_Z (2 * a + 1))%Q).
  { rewrite <- inject_Z_opp. change 0%Q with (inject_Z 0). rewrite <- Zlt_Qlt. lia. }
  assert (Hlo : (0 <= r * - inject_Z (2 * a + 1))%Q) by (apply Qmult_le_0_compat; lra).
  assert (Hhi : (r * - inject_Z (2 * a + 1) < 1 * - inject_Z (2 * a + 1))%Q)
    by (apply Qmult_lt_compat_r; lra).
  assert (Hm : (r * - inject_Z (2 * a + 1) == - (r * inject_Z (2 * a + 1)))%Q) by ring.
  assert (Ha' : (inject_Z (2 * a + 1) < inject_Z (g + a + 1))%Q) by lra.
  assert (Hb' : (inject_Z (g + a) <= inject_Z 0)%Q) by (change (inject_Z 0) with 0%Q; lra).
  rewrite <- Zlt_Qlt in Ha'. rewrite <- Zle_Qle in Hb'. lia.
Qed.

Lemma grainAmount_monotone (a : Z) (r r' : Q) :
  0 <= a -> (r <= r')%Q -> grainAmount_of a r <= grainAmount_of a r'.
Proof.
  intros Ha Hr. unfold grainAmount_of, randomIntInclusive_with, floor.
  apply Qfloor_resp_le.
  assert (Hn : (0 <= inject_Z (Qfloor (inject_Z a) - Qceiling (inject_Z (- a)) + 1))%Q).
  { rewrite Qceiling_Z, Qfloor_Z. change 0%Q with (inject_Z 0). rewrite <- Zle_Qle. lia. }
  apply Qplus_le_l. apply Qmult_le_compat_r; assumption.
Qed.

Lemma grainAmount_onto (a v : Z) :
  0 <= a -> - a <= v <= a -> exists r, (0 <= r < 1)%Q /\ grainAmount_of a r = v.
Proof.
  intros Ha Hv.
  assert (Hn : (0 < inject_Z (2 * a + 1))%Q)
    by (change 0%Q with (inject_Z 0); rewrite <- Zlt_Qlt; lia).
  assert (Hlo : (0 <= inject_Z (v + a))%Q)
    by (change 0%Q with (inject_Z 0); rewrite <- Zle_Qle; lia).
  assert (Hhi : (inject_Z (v + a) < inject_Z (2 * a + 1))%Q) by (rewrite <- Zlt_Qlt; lia).
  exists (inject_Z (v + a) / inject_Z (2 * a + 1))%Q.
  split; [split|].
  - apply Qle_shift_div_l; [exact Hn|]. lra.
  - apply Qlt_shift_div_r; [exact Hn|]. lra.
  - apply grainAmount_slice.
    assert (E : (inject_Z (v + a) / inject_Z (2 * a + 1) * inject_Z (2 * a + 1)
                 == inject_Z (v + a))%Q) by (field; lra).
    rewrite E, (inject_Z_plus (v + a) 1). change (inject_Z 1) with 1%Q. split; lra.
Qed.

(** ** The granulate methods *)

(** C7 holds where the pass reaches and fails beyond it.  For an amount
    that is not negative, [_amount = round(amount)] is not negative
    either (and is the amount itself when that is an integer).  The
    delta drawn out of a random number of [0, 1) lies in
    [-_amount .. _amount], does not decrease when the random number
    grows, is [-_amount] for the random number 0 and, for amounts up to
    [2 ^ 31], takes every value of that range.  [granulateSimple] adds
    to the channels it writes of a pixel [p] of the pass (R, G, B, and A
    when alpha is set) the one delta drawn for that pixel, out of random
    number [p]; [granulateChannels] adds to channel [c] of such a pixel
    a delta of its own, out of random number [c + m * p] where [m] is
    the number of channels written, and no two channels share a random
    number.  But the pass is [total] samples long, [total] taken from
    the size of the main canvas: every other sample of the array is
    left as it was.  On a 2x1 buffer beside a 1x1 canvas the second
    pixel receives no delta from either method, where on a 2x1 main
    canvas both pixels do. *)
Theorem grain_delta_law :
  (forall (sample : Z -> Z) (amount : Q) (alpha pg : Value) (target : Surface) (w : World),
      boolean_or_absent alpha -> targets pg w target -> (0 <= amount)%Q ->
      let a := round amount in
      let total := total_of (canvas w) target in
      let m := if truthy alpha then 4%nat else 3%nat in
      (0 <= a /\ forall z, (amount == inject_Z z)%Q -> a = z)
      /\ (forall p c p' c',
            (c < m)%nat -> (c' < m)%nat -> (c + m * p = c' + m * p')%nat -> p = p' /\ c = c')
      /\ exists delta : Q -> Z,
           (forall r, (0 <= r < 1)%Q -> - a <= delta r <= a)
           /\ (forall r r', (r <= r')%Q -> delta r <= delta r')
           /\ delta 0%Q = - a
           /\ (a <= 2 ^ 31 ->
               forall v, - a <= v <= a -> exists r, (0 <= r < 1)%Q /\ delta r = v)
           /\ (exists pg' w',
                 granulateSimple sample (VNum amount) alpha pg w = (Normal pg', w')
                 /\ forall p c, (c < 4)%nat ->
                      nth_error (result_pixels pg' w') (4 * p + c)
                      = if (4 * Z.of_nat p <? total) && Nat.ltb c m
                        then bump sample (delta (upcoming w p))
                                  (nth_error (pixels target) (4 * p + c))
                        else nth_error (pixels target) (4 * p + c))
           /\ (exists pg' w',
                 granulateChannels sample (VNum amount) alpha pg w = (Normal pg', w')
                 /\ forall p c, (c < 4)%nat ->
                      nth_error (result_pixels pg' w') (4 * p + c)
                      = if (4 * Z.of_nat p <? total) && Nat.ltb c m
                        then bump sample (delta (upcoming w (c + m * p)))
                                  (nth_error (pixels target) (4 * p + c))
                        else nth_error (pixels target) (4 * p + c)))
  /\ (let px := [100; 100; 100; 255] in
      let small := {| width := 1; height := 1; pixelDensity := 1; pixels := px |} in
      let large := {| width := 2; height := 1; pixelDensity := 1; pixels := px ++ px |} in
      let quarters := fun n : nat => (Z.of_nat n # 4)%Q in
      fst (granulateSimple (fun v => v) (VNum 10) (VBool true) (VGraphics large)
             (start (fun _ => 0%Q) small))
      = Normal (VGraphics (with_pixels large [90; 90; 90; 245; 100; 100; 100; 255]))
      /\ fst (granulateChannels (fun v => v) (VNum 10) VUndefined (VGraphics large)
                (start quarters small))
         = Normal (VGraphics (with_pixels large [90; 95; 100; 255; 100; 100; 100; 255]))
      /\ pixels (canvas (snd (granulateSimple (fun v => v) (VNum 10) (VBool true) VUndefined
                                (start (fun _ => 0%Q) large))))
         = [90; 90; 90; 245; 90; 90; 90; 245]).
Proof.
  split.
  - intros sample amount alpha pg target w Ha Hpg Hamt a total m.
    assert (Ha0 : 0 <= a) by (apply round_nonneg, Hamt).
    assert (Hon : forall c, (c < 4)%nat -> Nat.ltb c 3 || truthy alpha = Nat.ltb c m).
    { intros c Hc. unfold m. destruct (truthy alpha).
      - rewrite orb_true_r. symmetry. apply Nat.ltb_lt. exact Hc.
      - apply orb_false_r. }
    split; [split; [exact Ha0|intros z Hz; apply round_integer, Hz]|].
    split; [intros p c p' c'; unfold m; destruct (truthy alpha); lia|].
    exists (grainAmount_of a).
    split; [intros r Hr; apply grainAmount_range; assumption|].
    split; [intros r r'; apply grainAmount_monotone; exact Ha0|].
    split; [apply grainAmount_slice; rewrite Qmult_0_l; ring_simplify (- a + a);
            change (inject_Z 0) with 0%Q; change (inject_Z (0 + 1)) with 1%Q;
            split; [apply Qle_refl|reflexivity]|].
    split; [intros _ v; apply grainAmount_onto; exact Ha0|].
    split.
    + destruct (granulateSimple_run sample amount alpha pg target w Ha Hpg)
        as (pg' & w' & Hrun & Hpx).
      exists pg', w'. split; [exact Hrun|].
      intros p c Hc. rewrite (Hpx p c Hc), (Hon c Hc). reflexivity.
    + destruct (granulateChannels_run sample amount alpha pg target w Ha Hpg)
        as (pg' & w' & Hrun & Hpx).
      exists pg', w'. split; [exact Hrun|].
      intros p c Hc. rewrite (Hpx p c Hc), (Hon c Hc). reflexivity.
  - cbv zeta. repeat split; vm_compute; reflexivity.
Qed.

Lemma grain_delta_law_witness :
  let cv := {| width := 2; height := 1; pixelDensity := 1;
               pixels := [100; 100; 100; 255; 50; 60; 70; 255] |} in
  let w := start (fun _ => 0%Q) cv in
  exists pg' w',
    granulateSimple (fun v => v) (VNum 10) (VBool true) VUndefined w = (Normal pg', w')
    /\ forall p c old,
         (c < 4)%nat -> nth_error (pixels cv) (4 * p + c) = Some old ->
         nth_error (result_pixels pg' w') (4 * p + c) = Some (old - 10).
Proof.
  intros cv w.
  destruct (proj1 grain_delta_law (fun v => v) 10%Q (VBool true) VUndefined cv w)
    as (_ & _ & delta & _ & _ & Hd & _ & (pg' & w' & Hrun & Hpx) & _).
  - right. exists true. reflexivity.
  - left. split; reflexivity.
  - vm_compute. discriminate.
  - change (- round 10) with (-10) in Hd.
    exists pg', w'. split; [exact Hrun|].
    intros p c old Hc Hold.
    assert (Hp : (p < 2)%nat).
    { destruct (Nat.lt_ge_cases p 2) as [Hlt|Hge]; [exact Hlt|exfalso].
      assert (Hnone : nth_error (pixels cv) (4 * p + c) = None)
        by (apply nth_error_None; cbn; lia).
      rewrite Hnone in Hold. discriminate. }
    rewrite (Hpx p c Hc), Hold.
    change (total_of (canvas w) cv) with 8.
    replace (4 * Z.of_nat p <? 8) with true by (symmetry; apply Z.ltb_lt; lia).
    cbn [truthy].
    replace (Nat.ltb c 4) with true by (symmetry; apply Nat.ltb_lt; exact Hc).
    cbn [andb bump option_map]. change (upcoming w p) with 0%Q. rewrite Hd.
    f_equal.
Defined.

(** C8 holds where the pass reaches and fails beyond it.  Called with
    alpha absent or false, neither granulate method changes sample
    [4p + 3] of any pixel [p].  Called with alpha true, both add a
    delta to the alpha sample of every pixel of the pass,
    [granulateSimple] the delta it adds to the colour samples of that
    pixel and [granulateChannels] a fourth one of the pixel's own; a
    delta lies in [-a .. a] for [a = round(amount)] not negative and in
    [a + 1 .. -a] otherwise.  But the pass is [total] samples long,
    [total] taken from the size of the main canvas, and the alpha
    sample of every other pixel of the array is left as it was: on a
    2x1 buffer beside a 1x1 canvas, with alpha true, the alpha sample
    of the second pixel receives no delta from either method. *)
Theorem alpha_frame_condition :
  (forall (sample : Z -> Z) (amount : Q) (alpha pg : Value) (target : Surface) (w : World),
      boolean_or_absent alpha -> targets pg w target ->
      let a := round amount in
      let total := total_of (canvas w) target in
      exists pg1 w1 pg2 w2,
        granulateSimple sample (VNum amount) alpha pg w = (Normal pg1, w1)
        /\ granulateChannels sample (VNum amount) alpha pg w = (Normal pg2, w2)
        /\ (truthy alpha = false ->
            forall p,
              nth_error (result_pixels pg1 w1) (4 * p + 3)
              = nth_error (pixels target) (4 * p + 3)
              /\ nth_error (result_pixels pg2 w2) (4 * p + 3)
                 = nth_error (pixels target) (4 * p + 3))
        /\ (truthy alpha = true ->
            exists delta : Q -> Z,
              (forall r, (0 <= r < 1)%Q ->
                 (0 <= a -> - a <= delta r <= a) /\ (a < 0 -> a + 1 <= delta r <= - a))
              /\ forall p,
                   (forall c, (c < 4)%nat ->
                      nth_error (result_pixels pg1 w1) (4 * p + c)
                      = if 4 * Z.of_nat p <? total
                        then bump sample (delta (upcoming w p))
                                  (nth_error (pixels target) (4 * p + c))
                        else nth_error (pixels target) (4 * p + c))
                   /\ nth_error (result_pixels pg2 w2) (4 * p + 3)
                      = if 4 * Z.of_nat p <? total
                        then bump sample (delta (upcoming w (3 + 4 * p)))
                                  (nth_error (pixels target) (4 * p + 3))
                        else nth_error (pixels target) (4 * p + 3)))
  /\ (let px := [100; 100; 100; 255] in
      let small := {| width := 1; height := 1; pixelDensity := 1; pixels := px |} in
      let large := {| width := 2; height := 1; pixelDensity := 1; pixels := px ++ px |} in
      let w := start (fun _ => 0%Q) small in
      (exists pg1 w1,
          granulateSimple (fun v => v) (VNum 10) (VBool true) (VGraphics large) w
          = (Normal pg1, w1)
          /\ nth_error (result_pixels pg1 w1) 3 = Some 245
          /\ nth_error (result_pixels pg1 w1) 7 = Some 255)
      /\ (exists pg2 w2,
             granulateChannels (fun v => v) (VNum 10) (VBool true) (VGraphics large) w
             = (Normal pg2, w2)
             /\ nth_error (result_pixels pg2 w2) 3 = Some 245
             /\ nth_error (result_pixels pg2 w2) 7 = Some 255)).
Proof.
  split.
  - intros sample amount alpha pg target w Ha Hpg a total.
    destruct (granulateSimple_run sample amount alpha pg target w Ha Hpg)
      as (pg1 & w1 & Hrun1 & Hpx1).
    destruct (granulateChannels_run sample amount alpha pg target w Ha Hpg)
      as (pg2 & w2 & Hrun2 & Hpx2).
    exists pg1, w1, pg2, w2.
    split; [exact Hrun1|]. split; [exact Hrun2|].
    split; intros Halpha.
    + intro p. rewrite (Hpx1 p 3%nat), (Hpx2 p 3%nat) by lia.
      rewrite Halpha. cbn [Nat.ltb Nat.leb orb]. rewrite andb_false_r.
      split; reflexivity.
    + exists (grainAmount_of a). split.
      * intros r Hr. split; intro Hsign;
          [apply grainAmount_range|apply grainAmount_range_negative]; assumption.
      * intro p. split.
        -- intros c Hc. rewrite (Hpx1 p c Hc), Halpha, orb_true_r, andb_true_r.
           reflexivity.
        -- rewrite (Hpx2 p 3%nat) by lia. rewrite Halpha, orb_true_r, andb_true_r.
           reflexivity.
  - cbv zeta. split; eexists; eexists; (split; [vm_compute; reflexivity|]);
      split; reflexivity.
Qed.

Lemma alpha_frame_condition_witness :
  let cv := {| width := 2; height := 1; pixelDensity := 1;
               pixels := [100; 100; 100; 255; 50; 60; 70; 200] |} in
  let w := start (fun _ => 0%Q) cv in
  exists pg1 w1,
    granulateSimple (fun v => v) (VNum 10) (VBool true) VUndefined w = (Normal pg1, w1)
    /\ exists g, - 10 <= g <= 10
         /\ nth_error (result_pixels pg1 w1) 3 = Some (255 + g)
         /\ nth_error (result_pixels pg1 w1) 7 = Some (200 + g).
Proof.
  intros cv w.
  destruct (proj1 alpha_frame_condition (fun v => v) 10%Q (VBool true) VUndefined cv w)
    as (pg1 & w1 & pg2 & w2 & Hrun1 & _ & _ & Hadd).
  - right. exists true. reflexivity.
  - left. split; reflexivity.
  - destruct (Hadd eq_refl) as (delta & Hrange & Hpx).
    exists pg1, w1. split; [exact Hrun1|].
    exists (delta 0%Q). split.
    + apply (Hrange 0%Q); [split; [apply Qle_refl|reflexivity]|].
      vm_compute. discriminate.
    + split.
      * exact (proj1 (Hpx 0%nat) 3%nat ltac:(lia)).
      * exact (proj1 (Hpx 1%nat) 3%nat ltac:(lia)).
Defined.




(** ** The length of a pixel pass *)

(** C6 fails on the code: [total] is computed from the size of the main
    canvas, also when the pass works on an offscreen buffer.  With a 1x1
    canvas and a 2x1 buffer, [granulateSimple] changes the first pixel
    of the buffer only and [tinkerPixels] calls back once, with a total
    of 4 for a buffer of 8 samples; with a 2x1 canvas and a 1x1 buffer,
    [tinkerPixels] calls back for index 4, beyond the 4 samples of the
    buffer. *)
Theorem pixel_pass_sized_by_canvas :
  let px := [100; 100; 100; 255] in
  let small := {| width := 1; height := 1; pixelDensity := 1; pixels := px |} in
  let large := {| width := 2; height := 1; pixelDensity := 1; pixels := px ++ px |} in
  let record := fun (i total : Z) (log : list (Z * Z)) => log ++ [(i, total)] in
  fst (granulateSimple (fun v => v) (VNum 10) VUndefined (VGraphics large)
         (start (fun _ => 0%Q) small))
  = Normal (VGraphics (with_pixels large [90; 90; 90; 255; 100; 100; 100; 255]))
  /\ fst (tinkerPixels record (VGraphics large) [] (start (fun _ => 0%Q) small))
     = Normal [(0, 4)]
  /\ fst (tinkerPixels record (VGraphics small) [] (start (fun _ => 0%Q) large))
     = Normal [(0, 8); (4, 8)]
  /\ fst (tinkerPixels record VUndefined [] (start (fun _ => 0%Q) large))
     = Normal [(0, 8); (4, 8)].
Proof.
  cbv zeta. repeat split; vm_compute; reflexivity.
Qed.

(** * Further properties *)

(** ** [setup] *)

Ltac run_setup :=
  unfold setup, validateArguments, check_optional_prop, bind, read, throw_if, throw, lift, ret,
    set_random, set_ignoreErrors, set_ignoreWarnings, write.

(** X1.  While errors are not ignored, [setup] is idempotent: a second
    call with the same config completes as the first did and leaves the
    world the first left. *)
Theorem setup_idempotent (p5_random config_random : nat -> Q) (config : Value) (w : World) :
  ignoreErrors (grain w) = false ->
  let w1 := snd (setup p5_random config_random config w) in
  setup p5_random config_random config w1 = (fst (setup p5_random config_random config w), w1).
Proof.
  intro Hig. cbv zeta. run_setup.
  destruct config as [| |b|q|s| |props|iw ih|sf|k];
    try (cbn; rewrite ?Hig; cbn; rewrite ?Hig; reflexivity).
  cbn [typeof arg nth get String.eqb Ascii.eqb Bool.eqb typeof_ne negb andb fst snd].
  rewrite Hig. cbn [negb].
  destruct (assoc "random" props) as [| | | | | | | | |];
    try (cbn; rewrite ?Hig; reflexivity);
    (destruct (assoc "ignoreErrors" props) as [| |[]| | | | | | |];
     try (cbn; rewrite ?Hig; reflexivity);
     (destruct (assoc "ignoreWarnings" props) as [| |[]| | | | | | |];
      cbn; rewrite ?Hig; reflexivity)).
Qed.

Lemma setup_idempotent_witness :
  let config := VObject [("random", VFun); ("ignoreErrors", VBool true)] in
  let w := start (fun _ => 0%Q)
             {| width := 1; height := 1; pixelDensity := 1; pixels := [] |} in
  let w1 := snd (setup (fun _ => 0%Q) (fun _ => 1 # 2) config w) in
  setup (fun _ => 0%Q) (fun _ => 1 # 2) config w1
  = (fst (setup (fun _ => 0%Q) (fun _ => 1 # 2) config w), w1).
Proof.
  intros config w w1.
  apply (setup_idempotent (fun _ => 0%Q) (fun _ => 1 # 2) config w).
  reflexivity.
Defined.

(** *** What a computation leaves alone *)

Lemma keeps_pure {A X : Type} (f : World -> X) (m : M A) : pure m -> keeps f m.
Proof. intros Hm w. rewrite (Hm w). reflexivity. Qed.

Lemma keeps_bind {A B X : Type} (f : World -> X) (m : M A) (k : A -> M B) :
  keeps f m -> (forall a, keeps f (k a)) -> keeps f (bind m k).
Proof.
  intros Hm Hk w. unfold bind.
  specialize (Hm w). destruct (m w) as [[a|e| |] w1]; cbn [snd] in *; try exact Hm.
  rewrite (Hk a w1). exact Hm.
Qed.

Lemma keeps_if {A X : Type} (f : World -> X) (b : bool) (m m' : M A) :
  keeps f m -> keeps f m' -> keeps f (if b then m else m').
Proof. destruct b; auto. Qed.

Lemma keeps_write {X : Type} (f : World -> X) (g : World -> World) :
  (forall w, f (g w) = f w) -> keeps f (write g).
Proof. intros Hg w. apply Hg. Qed.

Lemma keeps_for_pixels {A X : Type} (f : World -> X) (body : Z -> A -> M A) (total : Z) :
  (forall i a, keeps f (body i a)) ->
  forall i a, keeps f (for_pixels body total i a).
Proof.
  intros Hbody i a.
  remember (Z.to_nat (total - i)) as n eqn:Hn.
  revert i a Hn. induction n as [n IH] using lt_wf_ind. intros i a Hn w.
  destruct (Z_lt_dec i total) as [Hlt|Hge].
  - rewrite for_pixels_step by exact Hlt.
    apply keeps_bind; [apply Hbody|].
    intros a'. apply (IH (Z.to_nat (total - (i + 4)))); [lia|reflexivity].
  - rewrite for_pixels_done by lia. reflexivity.
Qed.

(** Take a method body apart, one bind, branch or primitive at a time. *)
Ltac keeps_steps :=
  repeat first
    [ apply keeps_bind; [|intro]
    | apply keeps_if
    | apply keeps_for_pixels; intros
    | apply keeps_pure; solve [auto with pure]
    | apply keeps_write; intro; reflexivity
    | match goal with
      | |- keeps _ (match ?v with _ => _ end) => destruct v
      end ].

(** X2.  Whatever the config and however the call ends, [setup] leaves
    the frame counters, the overlay anchor, the main canvas and the
    calls made to the host as they were. *)
Theorem setup_keeps_animation_and_host
        (p5_random config_random : nat -> Q) (config : Value) (w : World) :
  let w' := snd (setup p5_random config_random config w) in
  textureAnimateState (grain w') = textureAnimateState (grain w)
  /\ textureOverlayState (grain w') = textureOverlayState (grain w)
  /\ canvas w' = canvas w /\ drawn w' = drawn w /\ styled w' = styled w.
Proof.
  cbv zeta.
  assert (Hk : forall (X : Type) (f : World -> X),
             (forall r w0, f (snd (set_random r w0)) = f w0) ->
             (forall b w0, f (snd (set_ignoreErrors b w0)) = f w0) ->
             (forall b w0, f (snd (set_ignoreWarnings b w0)) = f w0) ->
             keeps f (setup p5_random config_random config)).
  { intros X f H1 H2 H3. unfold setup.
    repeat first
      [ apply keeps_bind; [|intro]
      | apply keeps_if
      | apply keeps_pure; solve [auto with pure]
      | intro; apply H1 | intro; apply H2 | intro; apply H3
      | match goal with
        | |- keeps _ (match ?v with _ => _ end) => destruct v
        end ]. }
  repeat split;
    match goal with
    | |- ?f (grain (snd ?r)) = _ => apply (Hk _ (fun w0 => f (grain w0)))
    | |- ?f (snd ?r) = _ => apply (Hk _ f)
    end; reflexivity.
Qed.

Lemma validate_ignored (method : string) (args : list Value) (w : World) :
  ignoreErrors (grain w) = true -> validateArguments method args w = (Normal tt, w).
Proof.
  intro Hig. unfold validateArguments, bind, read. rewrite Hig. reflexivity.
Qed.

(** X3.  A [setup] call that returns with [config.ignoreErrors] a
    boolean leaves that boolean in the instance; when it is [true],
    no later validation of any method's arguments rejects anything. *)
Theorem setup_switches_validation
        (p5_random config_random : nat -> Q) (props : list (string * Value))
        (b : bool) (w : World) :
  assoc "ignoreErrors" props = VBool b ->
  fst (setup p5_random config_random (VObject props) w) = Normal tt ->
  let w' := snd (setup p5_random config_random (VObject props) w) in
  ignoreErrors (grain w') = b
  /\ (b = true ->
      forall method args, validateArguments method args w' = (Normal tt, w')).
Proof.
  intros Hb Hrun. cbv zeta.
  assert (Hflag : ignoreErrors
                    (grain (snd (setup p5_random config_random (VObject props) w))) = b).
  { revert Hrun. run_setup.
    cbn [typeof arg nth get String.eqb Ascii.eqb Bool.eqb typeof_ne negb andb fst snd].
    rewrite Hb.
    destruct (ignoreErrors (grain w));
      (destruct (assoc "random" props) as [| | | | | | | | |];
       try (cbn; discriminate);
       (destruct (assoc "ignoreWarnings" props) as [| |[]| | | | | | |];
        cbn; try discriminate; reflexivity)). }
  split; [exact Hflag|].
  intros -> method args. apply validate_ignored, Hflag.
Qed.

Lemma setup_switches_validation_witness :
  let w := start (fun _ => 0%Q)
             {| width := 1; height := 1; pixelDensity := 1; pixels := [] |} in
  let w' := snd (setup (fun _ => 0%Q) (fun _ => 0%Q)
                   (VObject [("ignoreErrors", VBool true)]) w) in
  ignoreErrors (grain w') = true
  /\ (true = true ->
      forall method args, validateArguments method args w' = (Normal tt, w')).
Proof.
  intros w w'.
  apply (setup_switches_validation (fun _ => 0%Q) (fun _ => 0%Q)
           [("ignoreErrors", VBool true)] true w); reflexivity.
Defined.

(** ** A [null] config *)

(** X4.  [typeof null] is ['object'], so validation reads the
    properties of a [null] config: [setup(null)] always ends in a
    [TypeError]; so does [textureOverlay(img, null)], in validation or
    at [config.mode]; and [textureAnimate(el, null)] ends in a
    [TypeError] while errors are not ignored, although its body treats
    [null] like an absent config, as it does when they are.  The world
    is left as it was in each case that throws. *)
Theorem null_config
        (p5_random config_random : nat -> Q) (fuel : nat)
        (textureImage textureElement pg : Value) (w : World) :
  setup p5_random config_random VNull w = (Thrown TypeError, w)
  /\ (ignoreErrors (grain w) = true \/ instanceof textureImage P5Image = true ->
      textureOverlay fuel textureImage VNull pg w = (Thrown TypeError, w))
  /\ (ignoreErrors (grain w) = false ->
      instanceof textureElement HTMLElement
      || instanceof textureElement SVGElement
      || instanceof textureElement P5Element = true ->
      textureAnimate textureElement VNull w = (Thrown TypeError, w))
  /\ (ignoreErrors (grain w) = true ->
      textureAnimate textureElement VNull w = textureAnimate textureElement VUndefined w).
Proof.
  split; [|split; [|split]].
  - run_setup. destruct (ignoreErrors (grain w)); reflexivity.
  - intros Hok.
    unfold textureOverlay, resolve, validateArguments, check_optional_prop,
      bind, read, throw_if, throw, lift, ret.
    destruct (ignoreErrors (grain w)); [reflexivity|].
    destruct Hok as [Hig|Hti]; [discriminate|].
    cbn [negb arg nth]. rewrite Hti. reflexivity.
  - intros Hig Hel.
    unfold textureAnimate, validateArguments, check_optional_prop,
      bind, read, throw_if, throw, lift, ret.
    rewrite Hig. cbn [negb arg nth]. rewrite Hel. reflexivity.
  - intros Hig. unfold textureAnimate.
    rewrite !(bind_normal _ _ _ _ _ (validate_ignored _ _ w Hig)). reflexivity.
Qed.

Lemma null_config_witness :
  let w := start (fun _ => 0%Q)
             {| width := 4; height := 4; pixelDensity := 1; pixels := [] |} in
  textureOverlay 5 (VImage 2 2) VNull VUndefined w = (Thrown TypeError, w)
  /\ textureAnimate (VElement HTMLElement) VNull w = (Thrown TypeError, w).
Proof.
  intro w.
  destruct (null_config (fun _ => 0%Q) (fun _ => 0%Q) 5 (VImage 2 2)
              (VElement HTMLElement) VUndefined w) as (_ & Hov & Han & _).
  split; [apply Hov; right; reflexivity|apply Han; reflexivity].
Defined.

(** ** Validation *)

(** X5.  A validation error is all that happens: when
    [#validateArguments] throws, the method ends with that error and
    the world is the one before the call (nothing drawn or styled, no
    pixel written, no random number taken, no counter moved). *)
Theorem validation_failure_is_atomic
        {St : Type} (sample : Z -> Z) (callback : Z -> Z -> St -> St) (s : St)
        (p5_random config_random : nat -> Q) (fuel : nat)
        (a b c : Value) (w : World) (e : Exn) :
  (fst (validateArguments "granulateSimple" [a; b; c] w) = Thrown e ->
   granulateSimple sample a b c w = (Thrown e, w))
  /\ (fst (validateArguments "granulateChannels" [a; b; c] w) = Thrown e ->
      granulateChannels sample a b c w = (Thrown e, w))
  /\ (fst (validateArguments "tinkerPixels" [VFun; b] w) = Thrown e ->
      tinkerPixels callback b s w = (Thrown e, w))
  /\ (fst (validateArguments "textureAnimate" [a; b] w) = Thrown e ->
      textureAnimate a b w = (Thrown e, w))
  /\ (fst (validateArguments "textureOverlay" [a; b; c] w) = Thrown e ->
      textureOverlay fuel a b c w = (Thrown e, w))
  /\ (fst (validateArguments "setup" [a] w) = Thrown e ->
      setup p5_random config_random a w = (Thrown e, w)).
Proof.
  repeat split; intro Hv;
    match goal with
    | Hv : fst (validateArguments ?m ?args w) = _ |- _ =>
        pose proof (pure_run _ w (pure_validateArguments m args)) as Hrun;
        rewrite Hv in Hrun
    end;
    [ unfold granulateSimple | unfold granulateChannels | unfold tinkerPixels
    | unfold textureAnimate | unfold textureOverlay | unfold setup ];
    apply bind_thrown, Hrun.
Qed.

Lemma validation_failure_is_atomic_witness :
  let w := start (fun _ => 0%Q)
             {| width := 1; height := 1; pixelDensity := 1; pixels := [1; 2; 3; 4] |} in
  granulateSimple (fun v => v) (VStr "10") VUndefined VUndefined w
  = (Thrown (JsError
       "[p5.grain] The amount argument passed to granulateSimple() must be of type number."),
     w).
Proof.
  intro w.
  refine (proj1 (validation_failure_is_atomic (fun v => v) (fun _ _ (u : unit) => u) tt
                   (fun _ => 0%Q) (fun _ => 0%Q) 0
                   (VStr "10") VUndefined VUndefined w _) _).
  reflexivity.
Defined.

(** X6.  While errors are not ignored, the granulate methods accept
    exactly a number for the amount, an absent or boolean alpha and an
    absent or [p5.Graphics] buffer; anything else, [null] included, is
    answered by an [Error] of the validation's own. *)
Theorem granulate_validation (method : string) (amount alpha pg : Value) (w : World) :
  method = "granulateSimple" \/ method = "granulateChannels" ->
  ignoreErrors (grain w) = false ->
  (fst (validateArguments method [amount; alpha; pg] w) = Normal tt
   <-> (exists q, amount = VNum q) /\ boolean_or_absent alpha
       /\ (pg = VUndefined \/ exists s, pg = VGraphics s))
  /\ (fst (validateArguments method [amount; alpha; pg] w) = Normal tt
      \/ exists msg, fst (validateArguments method [amount; alpha; pg] w) = Thrown (JsError msg)).
Proof.
  intros Hm Hig.
  assert (Hcases :
            ((exists q, amount = VNum q) /\ boolean_or_absent alpha
             /\ (pg = VUndefined \/ exists s, pg = VGraphics s))
            \/ exists msg,
                fst (validateArguments method [amount; alpha; pg] w) = Thrown (JsError msg)).
  { unfold validateArguments, bind, read, throw_if, throw, lift, ret, boolean_or_absent.
    rewrite Hig.
    destruct Hm as [-> | ->];
      (destruct amount as [| | | | | | | | |[]];
       try (right; eexists; reflexivity);
       (destruct alpha as [| | | | | | | | |[]];
        try (right; eexists; reflexivity);
        (destruct pg as [| | | | | | | | |[]];
         try (right; eexists; reflexivity);
         left;
         (split; [eexists; reflexivity|]);
         split; first [left; reflexivity | right; eexists; reflexivity]))). }
  assert (Hok : (exists q, amount = VNum q) -> boolean_or_absent alpha ->
                (pg = VUndefined \/ exists s, pg = VGraphics s) ->
                fst (validateArguments method [amount; alpha; pg] w) = Normal tt).
  { intros [q ->] Ha Hpg.
    assert (Ht : exists target, targets pg w target).
    { destruct Hpg as [-> | [sf ->]];
        [exists (canvas w); left; split; reflexivity|exists sf; right; reflexivity]. }
    destruct Ht as [target Ht].
    rewrite (validate_granulate method q alpha pg target w Hm Ha Ht). reflexivity. }
  split.
  - split.
    + intro Hn. destruct Hcases as [H|[msg H]]; [exact H|].
      rewrite H in Hn. discriminate.
    + intros (H1 & H2 & H3). apply Hok; assumption.
  - destruct Hcases as [(H1 & H2 & H3)|H]; [left; apply Hok; assumption|right; exact H].
Qed.

Lemma granulate_validation_witness :
  let w := start (fun _ => 0%Q)
             {| width := 1; height := 1; pixelDensity := 1; pixels := [1; 2; 3; 4] |} in
  exists msg,
    fst (validateArguments "granulateChannels" [VNum 3; VNull; VUndefined] w)
    = Thrown (JsError msg).
Proof.
  intro w.
  destruct (granulate_validation "granulateChannels" (VNum 3) VNull VUndefined w
              (or_intror eq_refl) eq_refl) as [Hiff [Hn|Hthrown]].
  - exfalso. apply Hiff in Hn. destruct Hn as (_ & [Hu|[b Hb]] & _); discriminate.
  - exact Hthrown.
Defined.

(** ** The transform around a tile *)

Lemma paint_draw_tile (reflect gb : bool) (tw th : Q) (rf cf : bool) (x y : Q) (p : Painter) :
  let p' := paint p (ops_on (receiver gb) (draw_tile reflect gb tw th rf cf x y)) in
  scale_x p' = scale_x p /\ scale_y p' = scale_y p /\ saved p' = saved p
  /\ List.length (painted p') = S (List.length (painted p)).
Proof.
  destruct p as [sx sy sv done].
  destruct reflect, gb, rf, cf; cbn; repeat split; rewrite length_app; cbn; lia.
Qed.

Lemma draw_tile_receiver (reflect gb : bool) (tw th : Q) (rf cf : bool) (x y : Q) :
  Forall (fun c => fst c = receiver gb) (draw_tile reflect gb tw th rf cf x y).
Proof.
  destruct reflect, gb, rf, cf; cbn; repeat constructor.
Qed.

Section Isolation.

Variables (reflect gb : bool) (W H tw th ax : Q).

Lemma isolated_nil : isolated_on gb [].
Proof. split; [constructor|]. intro p. cbn. repeat split. Qed.

Lemma isolated_app (a b : list (Receiver * DrawOp)) :
  isolated_on gb a -> isolated_on gb b -> isolated_on gb (a ++ b).
Proof.
  intros [Ha1 Ha2] [Hb1 Hb2]. split.
  - apply Forall_app. split; assumption.
  - intro p. cbv zeta. rewrite ops_on_app, paint_app.
    destruct (Ha2 p) as (H1 & H2 & H3).
    destruct (Hb2 (paint p (ops_on (receiver gb) a))) as (H4 & H5 & H6).
    repeat split; congruence.
Qed.

Lemma isolated_tile (rf cf : bool) (x y : Q) :
  isolated_on gb (draw_tile reflect gb tw th rf cf x y).
Proof.
  split; [apply draw_tile_receiver|].
  intro p. destruct (paint_draw_tile reflect gb tw th rf cf x y p) as (H1 & H2 & H3 & _).
  repeat split; assumption.
Qed.

Lemma sweep_row_isolated :
  forall fuel rf x y cf x' y' cf' ops,
    sweep_row reflect gb W tw th ax fuel rf x y cf = Some (x', y', cf', ops) ->
    isolated_on gb ops.
Proof.
  induction fuel as [|fuel IH]; intros rf x y cf x' y' cf' ops; [discriminate|].
  cbn [sweep_row].
  destruct (Qltb x W); [|intros [= <- <- <- <-]; apply isolated_nil].
  destruct (Qgeb (rnd (x + tw)) W); [intros [= <- <- <- <-]; apply isolated_tile|].
  destruct (sweep_row reflect gb W tw th ax fuel rf (rnd (x + tw)) y (negb cf))
    as [[[[x1 y1] c1] o1]|] eqn:E; [|discriminate].
  intros [= <- <- <- <-].
  apply isolated_app; [apply isolated_tile|apply (IH _ _ _ _ _ _ _ _ E)].
Qed.

Lemma sweep_isolated :
  forall fuel x y rf cf ops,
    sweep reflect gb W H tw th ax fuel x y rf cf = Some ops -> isolated_on gb ops.
Proof.
  induction fuel as [|fuel IH]; intros x y rf cf ops; [discriminate|].
  cbn [sweep].
  destruct (Qltb y H); [|intros [= <-]; apply isolated_nil].
  destruct (sweep_row reflect gb W tw th ax fuel rf x y cf)
    as [[[[x1 y1] c1] o1]|] eqn:E; [|discriminate].
  destruct (sweep reflect gb W H tw th ax fuel x1 y1 (negb rf) c1) as [o2|] eqn:E2;
    [|discriminate].
  intros [= <-].
  apply isolated_app; [apply (sweep_row_isolated _ _ _ _ _ _ _ _ _ E)|apply (IH _ _ _ _ _ E2)].
Qed.

End Isolation.

Lemma ops_on_other (r : Receiver) (gb : bool) (ops : list (Receiver * DrawOp)) :
  Forall (fun c => fst c = receiver gb) ops -> r <> receiver gb -> ops_on r ops = [].
Proof.
  intros Hall Hr. induction Hall as [|c ops Hc _ IH]; [reflexivity|].
  unfold ops_on in *. cbn [filter]. rewrite Hc.
  destruct r, gb; cbn in *; try congruence; exact IH.
Qed.

(** X9.  The calls of a sweep that ended all go to one receiver (the
    buffer when there is one, else the main canvas; none to the other),
    and whatever transform and saved transforms that surface had before
    them, it has after them: every mirrored tile is drawn between a
    [push] and the [pop] that undoes its [scale]. *)
Theorem sweep_leaves_transform
        (reflect gb : bool) (W H tw th ax : Q) (fuel : nat) (x y : Q) (rf cf : bool)
        (ops : list (Receiver * DrawOp)) :
  sweep reflect gb W H tw th ax fuel x y rf cf = Some ops ->
  (forall c, In c ops -> fst c = receiver gb)
  /\ (forall r, r <> receiver gb -> ops_on r ops = [])
  /\ forall p,
       let p' := paint p (ops_on (receiver gb) ops) in
       scale_x p' = scale_x p /\ scale_y p' = scale_y p /\ saved p' = saved p.
Proof.
  intro Hrun.
  destruct (sweep_isolated reflect gb W H tw th ax fuel x y rf cf ops Hrun) as [Hall Hp].
  split; [apply Forall_forall, Hall|].
  split; [intros r Hr; apply (ops_on_other r gb ops Hall Hr)|exact Hp].
Qed.

Lemma sweep_leaves_transform_witness :
  exists ops,
    sweep true true 10 10 4 4 0 8 0 0 true true = Some ops
    /\ forall p,
         let p' := paint p (ops_on OnPg ops) in
         scale_x p' = scale_x p /\ scale_y p' = scale_y p /\ saved p' = saved p.
Proof.
  destruct (sweep true true 10 10 4 4 0 8 0 0 true true) as [ops|] eqn:E;
    [|vm_compute in E; discriminate].
  exists ops. split; [reflexivity|].
  exact (proj2 (proj2 (sweep_leaves_transform true true 10 10 4 4 0 8 0 0 true true ops E))).
Defined.

(** ** The calls of a [textureOverlay] that returns *)

(** Take a pure step of a computation known to return normally. *)
Ltac normal_step m Hpure w a E :=
  destruct (pure_cases m w Hpure) as [[a E]|[[? E]|[E|E]]];
  [ rewrite ?(bind_normal _ _ _ _ _ E)
  | rewrite ?(bind_thrown _ _ _ _ _ E); try discriminate
  | rewrite ?(bind_unmodelled _ _ _ _ E); try discriminate
  | rewrite ?(bind_out_of_fuel _ _ _ _ E); try discriminate ].

(** The destination a call resolves to is the buffer when [pg] is a
    [p5.Graphics], else the main canvas. *)
Lemma resolve_target (textureImage config pg : Value) (w : World) (p : Resolved) :
  fst (resolve textureImage config pg w) = Normal p ->
  isGraphicsBuffer p = instanceof pg P5Graphics
  /\ _width p = width (match pg with VGraphics s => s | _ => canvas w end)
  /\ _height p = height (match pg with VGraphics s => s | _ => canvas w end).
Proof.
  unfold resolve. rewrite bind_read.
  normal_step (lift (get config "mode")) (pure_lift (get config "mode")) w mode E1.
  normal_step (lift (get config "reflect")) (pure_lift (get config "reflect")) w rfl E2.
  normal_step (lift (get config "animate")) (pure_lift (get config "animate")) w anim E3.
  normal_step (round_prop_or anim "atFrame" 2) (pure_round_prop_or anim "atFrame" 2) w atf E4.
  match goal with |- context [round_prop_or anim "amount" ?d] =>
    normal_step (round_prop_or anim "amount" d) (pure_round_prop_or anim "amount" d) w amt E5
  end.
  normal_step (tile_size config textureImage "width")
              (pure_tile_size config textureImage "width") w tw E6.
  normal_step (tile_size config textureImage "height")
              (pure_tile_size config textureImage "height") w th E7.
  intros [= <-]. repeat split.
Qed.

Lemma animate_step_keeps_host (p : Resolved) (w : World) :
  canvas (snd (animate_step p w)) = canvas w
  /\ drawn (snd (animate_step p w)) = drawn w
  /\ styled (snd (animate_step p w)) = styled w.
Proof.
  unfold animate_step, bind, read, set_textureOverlayState, write, next_random, ret.
  destruct (_animate p); [|repeat split].
  destruct (frameCount (textureOverlayState (grain w)) + 1 >=? _animateAtFrame p);
    repeat split.
Qed.

(** What a call that returned did. *)
Lemma textureOverlay_returned
      (fuel : nat) (textureImage config pg : Value) (w : World) :
  fst (textureOverlay fuel textureImage config pg w) = Normal tt ->
  let w' := snd (textureOverlay fuel textureImage config pg w) in
  exists p ops,
    resolve textureImage config pg w = (Normal p, w)
    /\ isGraphicsBuffer p = instanceof pg P5Graphics
    /\ (let st := textureOverlayState (grain (snd (animate_step p w))) in
        sweep (_reflect p) (isGraphicsBuffer p)
              (inject_Z (_width p)) (inject_Z (_height p)) (tW p) (tH p)
              (inject_Z (tX_anchor st)) fuel
              (inject_Z (tX_anchor st)) (inject_Z (tY st)) true true = Some ops)
    /\ drawn w'
       = drawn w
         ++ [(receiver (isGraphicsBuffer p), BlendMode (_mode p))]
         ++ ops
         ++ [(receiver (isGraphicsBuffer p), BlendMode BLEND)]
         ++ (if isGraphicsBuffer p then [(OnPg, Reset)] else [])
    /\ grain w' = grain (snd (animate_step p w))
    /\ styled w' = styled w.
Proof.
  cbv zeta. unfold textureOverlay.
  normal_step (validateArguments "textureOverlay" [textureImage; config; pg])
              (pure_validateArguments "textureOverlay" [textureImage; config; pg]) w a E.
  normal_step (resolve textureImage config pg) (pure_resolve textureImage config pg) w p Ep.
  pose proof (resolve_target textureImage config pg w p) as Htarget.
  rewrite Ep in Htarget. destruct (Htarget eq_refl) as (Hgb & _ & _).
  assert (Hstep : animate_step p w = (Normal tt, snd (animate_step p w))).
  { pose proof (animate_step_normal p w) as Hn.
    destruct (animate_step p w) as [c w1]. cbn in Hn. subst c. reflexivity. }
  rewrite !(bind_normal _ _ _ _ _ Hstep).
  destruct (animate_step_keeps_host p w) as (Hcv & Hdr & Hsty).
  intro Hrun. exists p.
  set (w1 := snd (animate_step p w)) in *. clearbody w1.
  revert Hrun.
  unfold composite, call_on, bind, read, emit, write, lift, ret.
  rewrite Hgb.
  destruct (truthy pg) eqn:Htr, (instanceof pg P5Graphics) eqn:Hinst;
    cbn [fst snd grain canvas drawn styled];
    try discriminate;
    try (exfalso; destruct pg as [| | | | | | | | |[]]; discriminate);
    match goal with |- context [sweep ?a ?b ?c ?d ?e ?f ?g ?h ?i ?j ?k ?l] =>
      destruct (sweep a b c d e f g h i j k l) as [ops|] end;
    cbn [fst snd grain canvas drawn styled receiver]; try discriminate;
    intros _; exists ops;
    rewrite ?Hdr, ?Hcv, ?Hsty, <- ?app_assoc; cbn [app];
    repeat split; rewrite ?app_nil_r; first [exact Ep | reflexivity].
Qed.

(** X10.  A [textureOverlay] call that returns has resolved its
    arguments, its sweep has ended, and what it asked of the host is,
    on one receiver (the buffer when one is given, else the main
    canvas): [blendMode] with the resolved mode, the calls of the sweep
    from the anchor the animation step left, [blendMode(BLEND)], and,
    on a buffer only, [reset()].  The element styles are untouched, and
    the instance is as the animation step left it. *)
Theorem textureOverlay_calls
        (fuel : nat) (textureImage config pg : Value) (w : World) :
  fst (textureOverlay fuel textureImage config pg w) = Normal tt ->
  let w' := snd (textureOverlay fuel textureImage config pg w) in
  exists p ops,
    resolve textureImage config pg w = (Normal p, w)
    /\ isGraphicsBuffer p = instanceof pg P5Graphics
    /\ (let st := textureOverlayState (grain (snd (animate_step p w))) in
        sweep (_reflect p) (isGraphicsBuffer p)
              (inject_Z (_width p)) (inject_Z (_height p)) (tW p) (tH p)
              (inject_Z (tX_anchor st)) fuel
              (inject_Z (tX_anchor st)) (inject_Z (tY st)) true true = Some ops)
    /\ drawn w'
       = drawn w
         ++ [(receiver (isGraphicsBuffer p), BlendMode (_mode p))]
         ++ ops
         ++ [(receiver (isGraphicsBuffer p), BlendMode BLEND)]
         ++ (if isGraphicsBuffer p then [(OnPg, Reset)] else [])
    /\ grain w' = grain (snd (animate_step p w))
    /\ styled w' = styled w.
Proof. exact (textureOverlay_returned fuel textureImage config pg w). Qed.

Lemma textureOverlay_calls_witness :
  let w := start (fun _ => 0%Q)
             {| width := 10; height := 10; pixelDensity := 1; pixels := [] |} in
  let pg := VGraphics {| width := 3; height := 3; pixelDensity := 1; pixels := [] |} in
  let w' := snd (textureOverlay 8 (VImage 4 4) (VObject []) pg w) in
  exists p ops,
    resolve (VImage 4 4) (VObject []) pg w = (Normal p, w)
    /\ isGraphicsBuffer p = instanceof pg P5Graphics
    /\ (let st := textureOverlayState (grain (snd (animate_step p w))) in
        sweep (_reflect p) (isGraphicsBuffer p)
              (inject_Z (_width p)) (inject_Z (_height p)) (tW p) (tH p)
              (inject_Z (tX_anchor st)) 8
              (inject_Z (tX_anchor st)) (inject_Z (tY st)) true true = Some ops)
    /\ drawn w'
       = drawn w
         ++ [(receiver (isGraphicsBuffer p), BlendMode (_mode p))]
         ++ ops
         ++ [(receiver (isGraphicsBuffer p), BlendMode BLEND)]
         ++ (if isGraphicsBuffer p then [(OnPg, Reset)] else [])
    /\ grain w' = grain (snd (animate_step p w))
    /\ styled w' = styled w.
Proof.
  intros w pg w'.
  apply (textureOverlay_calls 8 (VImage 4 4) (VObject []) pg w).
  vm_compute. reflexivity.
Defined.

(** ** The animation step of [textureOverlay] *)

Lemma floor_scaled_bounds (r : Q) (amount : Z) :
  (0 <= r < 1)%Q -> 0 < amount -> 0 <= floor (r * inject_Z amount) < amount.
Proof.
  intros [Hr0 Hr1] Ha.
  split; [apply floor_scaled_nonneg; assumption|].
  unfold floor.
  assert (Hn : (0 < inject_Z amount)%Q)
    by (change 0%Q with (inject_Z 0); rewrite <- Zlt_Qlt; lia).
  assert (Hlt : (r * inject_Z amount < 1 * inject_Z amount)%Q)
    by (apply Qmult_lt_compat_r; lra).
  pose proof (Qfloor_le (r * inject_Z amount)) as Hf.
  assert (Hz : (inject_Z (Qfloor (r * inject_Z amount)) < inject_Z amount)%Q) by lra.
  rewrite <- Zlt_Qlt in Hz. exact Hz.
Qed.



(** ** What each method leaves alone *)

Lemma textureAnimate_keeps {X : Type} (f : World -> X) (textureElement config : Value) :
  (forall s w, f (snd (set_textureAnimateState s w)) = f w) ->
  (forall w, f (snd (next_random w)) = f w) ->
  (forall ops w, f (snd (style ops w)) = f w) ->
  keeps f (textureAnimate textureElement config).
Proof.
  intros H1 H2 H3. unfold textureAnimate.
  repeat first
    [ apply keeps_bind; [|intro]
    | apply keeps_if
    | apply keeps_pure; solve [auto with pure]
    | intro; apply H1 | intro; apply H2 | intro; apply H3 ].
Qed.

Lemma textureOverlay_keeps {X : Type} (f : World -> X)
      (fuel : nat) (textureImage config pg : Value) :
  (forall s w, f (snd (set_textureOverlayState s w)) = f w) ->
  (forall w, f (snd (next_random w)) = f w) ->
  (forall ops w, f (snd (emit ops w)) = f w) ->
  keeps f (textureOverlay fuel textureImage config pg).
Proof.
  intros H1 H2 H3. unfold textureOverlay, animate_step, composite, call_on.
  repeat first
    [ apply keeps_bind; [|intro]
    | apply keeps_if
    | apply keeps_pure; solve [auto with pure]
    | intro; apply H1 | intro; apply H2 | intro; apply H3
    | match goal with
      | |- keeps _ (match ?v with _ => _ end) => destruct v
      end ].
Qed.

Lemma pure_surface_of (pg : Value) : pure (surface_of pg).
Proof.
  unfold surface_of. destruct (truthy pg); [destruct pg; auto with pure|].
  apply pure_bind; [auto with pure|]. intro. auto with pure.
Qed.

Lemma pixel_methods_keep {X : Type} (f : World -> X) (sample : Z -> Z)
      (amount alpha pg : Value) :
  (forall w, f (snd (next_random w)) = f w) ->
  (forall ops w, f (snd (emit ops w)) = f w) ->
  (forall c w, f (set_canvas c w) = f w) ->
  keeps f (granulateSimple sample amount alpha pg)
  /\ keeps f (granulateChannels sample amount alpha pg).
Proof.
  intros H1 H2 H3.
  unfold granulateSimple, granulateChannels,
    granulateSimple_body, granulateChannels_body, randomIntInclusive, put_pixels.
  split;
    repeat first
      [ apply keeps_bind; [|intro]
      | apply keeps_if
      | apply keeps_for_pixels; intros
      | apply keeps_pure; solve [auto using pure_surface_of with pure]
      | intro; apply H1 | intro; apply H2 | intro; apply H3
      | match goal with
        | |- keeps _ (match ?v with _ => _ end) => destruct v
        end ].
Qed.

(** X12.  However they complete, the methods mind their own state.
    [textureAnimate] leaves the main canvas, the drawing calls, the
    overlay counter and anchor alone; [textureOverlay] leaves the
    element styles and the counter of [textureAnimate] alone;
    [granulateSimple] and [granulateChannels] leave both animation
    states and the styles alone; and none of the four changes
    [ignoreErrors], [ignoreWarnings] or which random source is in use. *)
Theorem methods_mind_their_own_state
        (sample : Z -> Z) (fuel : nat) (a b c : Value) (w : World) :
  let same_setup (w' : World) :=
    ignoreErrors (grain w') = ignoreErrors (grain w)
    /\ ignoreWarnings (grain w') = ignoreWarnings (grain w)
    /\ stream (random (grain w')) = stream (random (grain w)) in
  let same_animation (w' : World) :=
    same_setup w' /\ styled w' = styled w
    /\ textureAnimateState (grain w') = textureAnimateState (grain w)
    /\ textureOverlayState (grain w') = textureOverlayState (grain w) in
  (let w' := snd (textureAnimate a b w) in
   same_setup w' /\ canvas w' = canvas w /\ drawn w' = drawn w
   /\ textureOverlayState (grain w') = textureOverlayState (grain w))
  /\ (let w' := snd (textureOverlay fuel a b c w) in
      same_setup w' /\ styled w' = styled w
      /\ textureAnimateState (grain w') = textureAnimateState (grain w))
  /\ same_animation (snd (granulateSimple sample a b c w))
  /\ same_animation (snd (granulateChannels sample a b c w)).
Proof.
  cbv zeta. split; [|split].
  - repeat split;
      match goal with
      | |- ?f (?h (grain (snd ?r))) = _ =>
          apply (textureAnimate_keeps (fun w0 => f (h (grain w0))))
      | |- ?f (grain (snd ?r)) = _ => apply (textureAnimate_keeps (fun w0 => f (grain w0)))
      | |- ?f (snd ?r) = _ => apply (textureAnimate_keeps f)
      end; reflexivity.
  - repeat split;
      match goal with
      | |- ?f (?h (grain (snd ?r))) = _ =>
          apply (textureOverlay_keeps (fun w0 => f (h (grain w0))))
      | |- ?f (grain (snd ?r)) = _ => apply (textureOverlay_keeps (fun w0 => f (grain w0)))
      | |- ?f (snd ?r) = _ => apply (textureOverlay_keeps f)
      end; reflexivity.
  - assert (Hk : forall (X : Type) (f : World -> X),
               (forall w0, f (snd (next_random w0)) = f w0) ->
               (forall ops w0, f (snd (emit ops w0)) = f w0) ->
               (forall cv w0, f (set_canvas cv w0) = f w0) ->
               f (snd (granulateSimple sample a b c w)) = f w
               /\ f (snd (granulateChannels sample a b c w)) = f w).
    { intros X f H1 H2 H3.
      destruct (pixel_methods_keep f sample a b c H1 H2 H3) as (K1 & K2).
      split; [apply K1|apply K2]. }
    repeat split;
      match goal with
      | |- ?f (?h (grain (snd ?r))) = _ =>
          apply (Hk _ (fun w0 => f (h (grain w0))))
      | |- ?f (grain (snd ?r)) = _ => apply (Hk _ (fun w0 => f (grain w0)))
      | |- ?f (snd ?r) = _ => apply (Hk _ f)
      end; reflexivity.
Qed.

(** ** The cadence of [textureAnimate] *)

Lemma steady_ret {A : Type} (a : A) : steady (ret a).
Proof. intros w1 w2. reflexivity. Qed.

Lemma steady_lift {A : Type} (c : Completion A) : steady (lift c).
Proof. intros w1 w2. reflexivity. Qed.

Lemma steady_throw {A : Type} (e : Exn) : steady (@throw A e).
Proof. intros w1 w2. reflexivity. Qed.

Lemma steady_bind {A B : Type} (m : M A) (f : A -> M B) :
  pure m -> steady m -> (forall a, steady (f a)) -> steady (bind m f).
Proof.
  intros Hp Hm Hf w1 w2. unfold bind.
  rewrite (pure_run m w1 Hp), (pure_run m w2 Hp), (Hm w1 w2).
  destruct (fst (m w2)); try reflexivity. apply Hf.
Qed.

Lemma steady_if {A : Type} (b : bool) (m m' : M A) :
  steady m -> steady m' -> steady (if b then m else m').
Proof. destruct b; auto. Qed.

Lemma steady_throw_if (b : bool) (msg : string) : steady (throw_if b msg).
Proof. unfold throw_if. destruct b; [apply steady_throw|apply steady_ret]. Qed.

Lemma steady_check_optional_prop (obj : Value) (prop t msg : string) :
  steady (check_optional_prop obj prop t msg).
Proof.
  unfold check_optional_prop.
  apply steady_bind; [auto with pure|apply steady_lift|intro p].
  apply steady_throw_if.
Qed.

Ltac steady_steps :=
  repeat first
    [ apply steady_ret | apply steady_lift | apply steady_throw
    | apply steady_throw_if | apply steady_check_optional_prop
    | apply steady_if
    | apply steady_bind; [solve [auto with pure]| |intro] ].

Lemma steady_round_prop_or (obj : Value) (prop : string) (dflt : Z) :
  steady (round_prop_or obj prop dflt).
Proof. unfold round_prop_or. steady_steps. Qed.

(** Validation looks at nothing of the world but [ignoreErrors]. *)
Lemma validate_steady (method : string) (args : list Value) (w1 w2 : World) :
  ignoreErrors (grain w1) = ignoreErrors (grain w2) ->
  fst (validateArguments method args w1) = fst (validateArguments method args w2).
Proof.
  intro Hig. unfold validateArguments. rewrite !bind_read, Hig.
  destruct (negb (ignoreErrors (grain w2))); [|reflexivity].
  match goal with
  | |- fst (?m w1) = fst (?m w2) => enough (Hs : steady m) by apply Hs
  end.
  unfold arg. steady_steps.
Qed.

Lemma run_pure_normal {A B : Type} (m : M A) (f : A -> M B) (w : World) (a : A) :
  pure m -> fst (m w) = Normal a -> bind m f w = f a w.
Proof.
  intros Hp E. apply bind_normal. rewrite (pure_run m w Hp), E. reflexivity.
Qed.

(** One call, when the counter has not yet reached [atFrame]: only the
    counter moves. *)
Lemma textureAnimate_wait (textureElement config : Value) (w : World) (atFrame : Z) :
  fst (validateArguments "textureAnimate" [textureElement; config] w) = Normal tt ->
  fst (round_prop_or config "atFrame" 2 w) = Normal atFrame ->
  ta_frameCount (textureAnimateState (grain w)) + 1 < atFrame ->
  textureAnimate textureElement config w
  = (Normal tt,
     snd (set_textureAnimateState
            {| ta_frameCount := ta_frameCount (textureAnimateState (grain w)) + 1 |} w)).
Proof.
  intros Hv Ha Hlt. unfold textureAnimate.
  rewrite (run_pure_normal _ _ w tt) by auto with pure.
  rewrite (run_pure_normal _ _ w atFrame) by auto with pure.
  rewrite bind_read. unfold set_textureAnimateState at 1. rewrite bind_write.
  destruct (Z.geb_spec (ta_frameCount (textureAnimateState (grain w)) + 1) atFrame) as [Hge|_];
    [lia|reflexivity].
Qed.

(** One call, when the counter reaches [atFrame]: two random numbers
    are drawn, the element is restyled and the counter starts over. *)
Lemma textureAnimate_fire (textureElement config : Value) (w : World) (atFrame amount : Z) :
  fst (validateArguments "textureAnimate" [textureElement; config] w) = Normal tt ->
  fst (round_prop_or config "atFrame" 2 w) = Normal atFrame ->
  fst (round_prop_or config "amount" (Z.min (width (canvas w)) (height (canvas w))) w)
  = Normal amount ->
  atFrame <= ta_frameCount (textureAnimateState (grain w)) + 1 ->
  exists w',
    textureAnimate textureElement config w = (Normal tt, w')
    /\ styled w'
       = styled w ++ shift_styles textureElement
                       (floor (upcoming w 0 * inject_Z amount))
                       (floor (upcoming w 1 * inject_Z amount))
    /\ ta_frameCount (textureAnimateState (grain w')) = 0
    /\ taken (random (grain w')) = S (S (taken (random (grain w)))).
Proof.
  intros Hv Ha Hm Hge. unfold textureAnimate.
  rewrite (run_pure_normal _ _ w tt) by auto with pure.
  rewrite (run_pure_normal _ _ w atFrame) by auto with pure.
  rewrite bind_read. unfold set_textureAnimateState at 1. rewrite bind_write.
  destruct (Z.geb_spec (ta_frameCount (textureAnimateState (grain w)) + 1) atFrame) as [_|Hlt];
    [|lia].
  rewrite bind_read.
  match goal with
  | |- context [bind (round_prop_or config "amount" ?d) _ ?w1] =>
      rewrite (run_pure_normal (round_prop_or config "amount" d) _ w1 amount)
        by (auto with pure; rewrite <- Hm; apply steady_round_prop_or)
  end.
  unfold shift_styles, upcoming.
  destruct (instanceof textureElement HTMLElement);
    [|destruct (instanceof textureElement SVGElement);
      [|destruct (instanceof textureElement P5Element)]];
    (eexists; split; [reflexivity|]); cbn;
    rewrite ?app_nil_r; repeat split; reflexivity.
Qed.

(** X13.  A call of [textureAnimate] that is let through, on the frame
    the counter reaches [atFrame], with the random source in [0, 1) and
    a positive [amount]: it returns, it writes on the element one
    position whose two offsets lie in [0, amount) (as
    [backgroundPosition] for an [HTMLElement], negated as [top] and
    [left] for an [SVGElement], through [style(...)] for a
    [p5.Element], nothing for anything else), it takes two random
    numbers and the counter starts over at 0. *)
Theorem textureAnimate_shift (textureElement config : Value) (w : World)
        (atFrame amount : Z) :
  fst (validateArguments "textureAnimate" [textureElement; config] w) = Normal tt ->
  fst (round_prop_or config "atFrame" 2 w) = Normal atFrame ->
  fst (round_prop_or config "amount" (Z.min (width (canvas w)) (height (canvas w))) w)
  = Normal amount ->
  atFrame <= ta_frameCount (textureAnimateState (grain w)) + 1 ->
  0 < amount ->
  (forall n, 0 <= stream (random (grain w)) n < 1)%Q ->
  exists bgPosX bgPosY w',
    0 <= bgPosX < amount /\ 0 <= bgPosY < amount
    /\ textureAnimate textureElement config w = (Normal tt, w')
    /\ styled w' = styled w ++ shift_styles textureElement bgPosX bgPosY
    /\ ta_frameCount (textureAnimateState (grain w')) = 0
    /\ taken (random (grain w')) = S (S (taken (random (grain w)))).
Proof.
  intros Hv Ha Hm Hge Hpos Hr.
  destruct (textureAnimate_fire textureElement config w atFrame amount Hv Ha Hm Hge)
    as (w' & E & Hs & Hc & Ht).
  exists (floor (upcoming w 0 * inject_Z amount)),
         (floor (upcoming w 1 * inject_Z amount)), w'.
  split; [apply floor_scaled_bounds; [apply Hr|exact Hpos]|].
  split; [apply floor_scaled_bounds; [apply Hr|exact Hpos]|].
  repeat split; assumption.
Qed.

Lemma textureAnimate_shift_witness :
  let w := start (fun _ => 1 # 2)
             {| width := 10; height := 8; pixelDensity := 1; pixels := [] |} in
  exists bgPosX bgPosY w',
    0 <= bgPosX < 8 /\ 0 <= bgPosY < 8
    /\ textureAnimate (VElement SVGElement) (VObject [("atFrame", VNum 1)]) w
       = (Normal tt, w')
    /\ styled w' = styled w ++ shift_styles (VElement SVGElement) bgPosX bgPosY
    /\ ta_frameCount (textureAnimateState (grain w')) = 0
    /\ taken (random (grain w')) = S (S (taken (random (grain w)))).
Proof.
  intro w.
  apply (textureAnimate_shift (VElement SVGElement) (VObject [("atFrame", VNum 1)]) w 1 8).
  - reflexivity.
  - reflexivity.
  - reflexivity.
  - vm_compute. discriminate.
  - lia.
  - intro n. cbn. split; [discriminate|reflexivity].
Defined.

Lemma animated_S (textureElement config : Value) (k : nat) (w : World) :
  animated textureElement config (S k) w
  = snd (textureAnimate textureElement config (animated textureElement config k w)).
Proof. reflexivity. Qed.

Lemma animated_keeps {X : Type} (f : World -> X) (textureElement config : Value)
      (k : nat) (w : World) :
  (forall s w, f (snd (set_textureAnimateState s w)) = f w) ->
  (forall w, f (snd (next_random w)) = f w) ->
  (forall ops w, f (snd (style ops w)) = f w) ->
  f (animated textureElement config k w) = f w.
Proof.
  intros H1 H2 H3. induction k as [|k IH]; [reflexivity|].
  rewrite animated_S, <- IH.
  apply (textureAnimate_keeps f textureElement config H1 H2 H3).
Qed.

(** X14.  With [n] the larger of 1 and the rounded [atFrame], calling
    [textureAnimate] frame after frame with the same arguments, from a
    counter at 0, shifts the texture on every [n]-th call exactly:
    after [q * n + r] calls, [r < n], the counter stands at [r] and
    [2 * q] random numbers have been taken, and the next call returns
    as well. *)
Theorem textureAnimate_cadence (textureElement config : Value) (w0 : World)
        (atFrame amount : Z) (q r : nat) :
  let n := Z.to_nat (Z.max 1 atFrame) in
  let w := animated textureElement config (q * n + r) w0 in
  fst (validateArguments "textureAnimate" [textureElement; config] w0) = Normal tt ->
  fst (round_prop_or config "atFrame" 2 w0) = Normal atFrame ->
  fst (round_prop_or config "amount" (Z.min (width (canvas w0)) (height (canvas w0))) w0)
  = Normal amount ->
  ta_frameCount (textureAnimateState (grain w0)) = 0 ->
  (r < n)%nat ->
  ta_frameCount (textureAnimateState (grain w)) = Z.of_nat r
  /\ taken (random (grain w)) = (2 * q + taken (random (grain w0)))%nat
  /\ fst (textureAnimate textureElement config w) = Normal tt.
Proof.
  intros n w Hv Ha Hm H0 Hr.
  assert (Hv' : forall k, fst (validateArguments "textureAnimate" [textureElement; config]
                                 (animated textureElement config k w0)) = Normal tt).
  { intro k. rewrite <- Hv. apply validate_steady.
    apply (animated_keeps (fun w => ignoreErrors (grain w))); reflexivity. }
  assert (Ha' : forall k, fst (round_prop_or config "atFrame" 2
                                 (animated textureElement config k w0)) = Normal atFrame).
  { intro k. rewrite <- Ha. apply steady_round_prop_or. }
  assert (Hm' : forall k,
             let wk := animated textureElement config k w0 in
             fst (round_prop_or config "amount"
                    (Z.min (width (canvas wk)) (height (canvas wk))) wk) = Normal amount).
  { intros k wk. unfold wk.
    rewrite (animated_keeps canvas) by reflexivity.
    rewrite <- Hm. apply steady_round_prop_or. }
  assert (Hn : (1 <= n)%nat) by (unfold n; lia).
  assert (Hmain : forall k q r, k = (q * n + r)%nat -> (r < n)%nat ->
             let wk := animated textureElement config k w0 in
             ta_frameCount (textureAnimateState (grain wk)) = Z.of_nat r
             /\ taken (random (grain wk)) = (2 * q + taken (random (grain w0)))%nat).
  { clear q r Hr w. induction k as [|k IH]; intros q r Hk Hr wk.
    - assert (q = 0%nat) by nia. assert (r = 0%nat) by nia. subst q r.
      unfold wk. cbn. split; [exact H0|reflexivity].
    - unfold wk. rewrite animated_S.
      set (w1 := animated textureElement config k w0) in *.
      destruct r as [|r'].
      + destruct q as [|q']; [cbn in Hk; discriminate|].
        destruct (IH q' (n - 1)%nat) as [Hc Ht]; [nia|lia|].
        fold w1 in Hc, Ht.
        destruct (textureAnimate_fire textureElement config w1 atFrame amount
                    (Hv' k) (Ha' k) (Hm' k)) as (w' & E & _ & Hc' & Ht');
          [rewrite Hc; unfold n; lia|].
        rewrite E. cbn [snd]. split; [exact Hc'|]. rewrite Ht', Ht. lia.
      + destruct (IH q r') as [Hc Ht]; [lia|lia|].
        fold w1 in Hc, Ht.
        rewrite (textureAnimate_wait textureElement config w1 atFrame (Hv' k) (Ha' k))
          by (rewrite Hc; unfold n in Hr; lia).
        cbn. rewrite Hc. split; [lia|exact Ht]. }
  destruct (Hmain (q * n + r)%nat q r eq_refl Hr) as [Hc Ht].
  fold w in Hc, Ht. split; [exact Hc|]. split; [exact Ht|].
  destruct (Z_lt_le_dec (ta_frameCount (textureAnimateState (grain w)) + 1) atFrame)
    as [Hlt|Hge].
  - rewrite (textureAnimate_wait textureElement config w atFrame (Hv' _) (Ha' _) Hlt).
    reflexivity.
  - destruct (textureAnimate_fire textureElement config w atFrame amount
                (Hv' _) (Ha' _) (Hm' _) Hge) as (w' & E & _).
    rewrite E. reflexivity.
Qed.

Lemma textureAnimate_cadence_witness :
  let w0 := start (fun _ => 1 # 2)
              {| width := 10; height := 8; pixelDensity := 1; pixels := [] |} in
  let w := animated (VElement HTMLElement) VUndefined 5 w0 in
  ta_frameCount (textureAnimateState (grain w)) = 1
  /\ taken (random (grain w)) = 4%nat
  /\ fst (textureAnimate (VElement HTMLElement) VUndefined w) = Normal tt.
Proof.
  intros w0 w.
  apply (textureAnimate_cadence (VElement HTMLElement) VUndefined w0 2 8 2 1);
    first [reflexivity | vm_compute; lia].
Defined.

(** ** The pixel methods: what a pass does beside the samples *)

Lemma set_nth_length (l : list Z) :
  forall (n : nat) (v : Z), List.length (set_nth n v l) = List.length l.
Proof.
  induction l as [|x l IH]; intros n v; destruct n; cbn; try reflexivity.
  rewrite IH. reflexivity.
Qed.

Lemma add_sample_length (sample : Z -> Z) (px : list Z) (i g : Z) :
  List.length (add_sample sample px i g) = List.length px.
Proof.
  unfold add_sample. destruct (i <? 0); [reflexivity|].
  destruct (nth_error px (Z.to_nat i)); [apply set_nth_length|reflexivity].
Qed.

(** What holds of the data before a loop and is kept by its body holds
    after it. *)
Lemma for_pixels_invariant {A : Type} (P : A -> Prop) (body : Z -> A -> M A) (total : Z) :
  (forall i a w a' w', P a -> body i a w = (Normal a', w') -> P a') ->
  forall (n : nat) i a w a' w',
    total - i <= 4 * Z.of_nat n ->
    P a -> for_pixels body total i a w = (Normal a', w') -> P a'.
Proof.
  intro Hbody. induction n as [|n IH]; intros i a w a' w' Hn Ha Hrun.
  - rewrite for_pixels_done in Hrun by lia. inversion Hrun. subst. exact Ha.
  - destruct (Z_lt_dec i total) as [Hi|Hi].
    + rewrite for_pixels_step in Hrun by exact Hi. unfold bind in Hrun.
      destruct (body i a w) as [[a1|e| |] w1] eqn:E; try discriminate.
      apply (IH (i + 4) a1 w1 a' w'); [lia| |exact Hrun].
      apply (Hbody i a w a1 w1 Ha E).
    + rewrite for_pixels_done in Hrun by lia. inversion Hrun. subst. exact Ha.
Qed.

Lemma granulateSimple_body_length (sample : Z -> Z) (a : Z) (alpha : bool)
      (n : nat) (i : Z) (px : list Z) (w : World) (px1 : list Z) (w1 : World) :
  List.length px = n ->
  granulateSimple_body sample a alpha i px w = (Normal px1, w1) ->
  List.length px1 = n.
Proof.
  unfold granulateSimple_body, randomIntInclusive, bind, next_random, ret.
  intros Hn E. inversion E. subst px1.
  destruct alpha; rewrite !add_sample_length; exact Hn.
Qed.

Lemma granulateChannels_body_length (sample : Z -> Z) (a : Z) (alpha : bool)
      (n : nat) (i : Z) (px : list Z) (w : World) (px1 : list Z) (w1 : World) :
  List.length px = n ->
  granulateChannels_body sample a alpha i px w = (Normal px1, w1) ->
  List.length px1 = n.
Proof.
  unfold granulateChannels_body, randomIntInclusive, bind, next_random, ret.
  intros Hn E. destruct alpha; inversion E; subst px1;
    rewrite !add_sample_length; exact Hn.
Qed.

(** The pixels of the surface a pass works on: the number of random
    numbers it takes is per pixel of [total]. *)
Lemma total_pixels (cv target : Surface) :
  total_of cv target
  = 4 * ((width cv * pixelDensity target) * (height cv * pixelDensity target)).
Proof. unfold total_of. ring. Qed.

Lemma visited_pixels (cv target : Surface) :
  visited cv target
  = Z.to_nat ((width cv * pixelDensity target) * (height cv * pixelDensity target)).
Proof.
  unfold visited. rewrite total_pixels, Z.mul_comm, Z.div_mul by lia. reflexivity.
Qed.

Section Pass.

Variable sample : Z -> Z.

(** A pass of either granulate method over the documented arguments,
    with the world it leaves spelled out. *)
Lemma granulateSimple_pass (amount : Q) (alpha pg : Value) (target : Surface) (w : World) :
  boolean_or_absent alpha -> targets pg w target ->
  exists px' pg' w',
    granulateSimple sample (VNum amount) alpha pg w = (Normal pg', w')
    /\ result_pixels pg' w' = px'
    /\ List.length px' = List.length (pixels target)
    /\ pg' = (if truthy pg then VGraphics (with_pixels target px') else pg)
    /\ canvas w' = (if truthy pg then canvas w else with_pixels (canvas w) px')
    /\ drawn w' = drawn w ++ [(pixel_receiver pg, LoadPixels); (pixel_receiver pg, UpdatePixels)]
    /\ taken (random (grain w'))
       = (1 * visited (canvas w) target + taken (random (grain w)))%nat.
Proof.
  intros Ha Hpg. unfold granulateSimple.
  rewrite (bind_normal _ _ _ _ _
             (validate_granulate "granulateSimple" amount alpha pg target w
                                 (or_introl eq_refl) Ha Hpg)).
  cbn [to_number]. rewrite bind_lift.
  rewrite (bind_normal _ _ _ _ _ (surface_of_target pg w target Hpg)).
  unfold emit at 1. rewrite bind_write, bind_read.
  cbn [fst snd canvas].
  set (w1 := {| grain := grain w; canvas := canvas w;
                drawn := drawn w ++ [(if truthy pg then OnPg else OnCanvas, LoadPixels)];
                styled := styled w |}).
  rewrite visited_pixels.
  set (n := (width (canvas w) * pixelDensity target) * (height (canvas w) * pixelDensity target)).
  destruct (loop_spec sample (granulateSimple_body sample (round amount) (truthy alpha))
              1 (fun c => Nat.ltb c 3 || truthy alpha)
              (grainAmount_of (round amount)) (fun _ => 0%nat)
              (granulateSimple_body_spec sample (round amount) (truthy alpha))
              (4 * n) (Z.to_nat n) 0%nat (pixels target) w1)
    as (px' & Hrun & _).
  - lia.
  - intros q Hq. lia.
  - change (4 * Z.of_nat 0) with 0 in Hrun.
    assert (Hlen : List.length px' = List.length (pixels target)).
    { eapply (for_pixels_invariant
               (fun px => List.length px = List.length (pixels target))
               _ (4 * n)
               (fun i a w0 a' w0' =>
                  granulateSimple_body_length sample _ _ _ i a w0 a' w0')
               (Z.to_nat n) 0 (pixels target) w1 px'); [lia|reflexivity|exact Hrun]. }
    replace (4 * (width (canvas w) * pixelDensity target)
               * (height (canvas w) * pixelDensity target)) with (4 * n) by (unfold n; ring).
    rewrite (bind_normal _ _ _ _ _ Hrun).
    unfold emit at 1. rewrite bind_write.
    unfold put_pixels, pixel_receiver. cbn [fst snd].
    exists px'.
    destruct Hpg as [[-> ->] | ->]; cbn [truthy];
      (eexists; eexists; split; [reflexivity|]);
      cbn [result_pixels with_pixels pixels canvas set_canvas snd drawn grain
           skip_random set_grain random taken];
      unfold w1; cbn [drawn grain canvas truthy]; rewrite <- app_assoc;
      repeat split; try reflexivity; exact Hlen.
Qed.

Lemma granulateChannels_pass (amount : Q) (alpha pg : Value) (target : Surface) (w : World) :
  boolean_or_absent alpha -> targets pg w target ->
  exists px' pg' w',
    granulateChannels sample (VNum amount) alpha pg w = (Normal pg', w')
    /\ result_pixels pg' w' = px'
    /\ List.length px' = List.length (pixels target)
    /\ pg' = (if truthy pg then VGraphics (with_pixels target px') else pg)
    /\ canvas w' = (if truthy pg then canvas w else with_pixels (canvas w) px')
    /\ drawn w' = drawn w ++ [(pixel_receiver pg, LoadPixels); (pixel_receiver pg, UpdatePixels)]
    /\ taken (random (grain w'))
       = ((if truthy alpha then 4 else 3) * visited (canvas w) target
          + taken (random (grain w)))%nat.
Proof.
  intros Ha Hpg. unfold granulateChannels.
  rewrite (bind_normal _ _ _ _ _
             (validate_granulate "granulateChannels" amount alpha pg target w
                                 (or_intror eq_refl) Ha Hpg)).
  cbn [to_number]. rewrite bind_lift.
  rewrite (bind_normal _ _ _ _ _ (surface_of_target pg w target Hpg)).
  unfold emit at 1. rewrite bind_write, bind_read.
  cbn [fst snd canvas].
  set (w1 := {| grain := grain w; canvas := canvas w;
                drawn := drawn w ++ [(if truthy pg then OnPg else OnCanvas, LoadPixels)];
                styled := styled w |}).
  rewrite visited_pixels.
  set (n := (width (canvas w) * pixelDensity target) * (height (canvas w) * pixelDensity target)).
  destruct (loop_spec sample (granulateChannels_body sample (round amount) (truthy alpha))
              (if truthy alpha then 4 else 3)%nat (fun c => Nat.ltb c 3 || truthy alpha)
              (grainAmount_of (round amount)) (fun c => c)
              (granulateChannels_body_spec sample (round amount) (truthy alpha))
              (4 * n) (Z.to_nat n) 0%nat (pixels target) w1)
    as (px' & Hrun & _).
  - lia.
  - intros q Hq. lia.
  - change (4 * Z.of_nat 0) with 0 in Hrun.
    assert (Hlen : List.length px' = List.length (pixels target)).
    { eapply (for_pixels_invariant
               (fun px => List.length px = List.length (pixels target))
               _ (4 * n)
               (fun i a w0 a' w0' =>
                  granulateChannels_body_length sample _ _ _ i a w0 a' w0')
               (Z.to_nat n) 0 (pixels target) w1 px'); [lia|reflexivity|exact Hrun]. }
    replace (4 * (width (canvas w) * pixelDensity target)
               * (height (canvas w) * pixelDensity target)) with (4 * n) by (unfold n; ring).
    rewrite (bind_normal _ _ _ _ _ Hrun).
    unfold emit at 1. rewrite bind_write.
    unfold put_pixels, pixel_receiver. cbn [fst snd].
    exists px'.
    destruct Hpg as [[-> ->] | ->]; cbn [truthy];
      (eexists; eexists; split; [reflexivity|]);
      cbn [result_pixels with_pixels pixels canvas set_canvas snd drawn grain
           skip_random set_grain random taken];
      unfold w1; cbn [drawn grain canvas truthy]; rewrite <- app_assoc;
      repeat split; try reflexivity; exact Hlen.
Qed.

End Pass.

(** X16.  A pass of [granulateSimple] or [granulateChannels] over the
    documented arguments returns, and beside the samples it changes:
    the host is asked [loadPixels()] then [updatePixels()], both on the
    buffer when one is given, else on the main canvas; the array keeps
    its length (an assignment beyond its end is dropped) and the
    surface its dimensions; with a buffer the main canvas is left as it
    was; and the random source is called once per visited pixel by
    [granulateSimple], three times, four with [alpha], by
    [granulateChannels]. *)
Theorem granulate_pass_effects (sample : Z -> Z) (channels : bool) (amount : Q)
        (alpha pg : Value) (target : Surface) (w : World) :
  boolean_or_absent alpha -> targets pg w target ->
  let run := if channels then granulateChannels sample else granulateSimple sample in
  let per_pixel := if channels then if truthy alpha then 4%nat else 3%nat else 1%nat in
  exists pg' w',
    run (VNum amount) alpha pg w = (Normal pg', w')
    /\ List.length (result_pixels pg' w') = List.length (pixels target)
    /\ pg' = (if truthy pg then VGraphics (with_pixels target (result_pixels pg' w')) else pg)
    /\ canvas w'
       = (if truthy pg then canvas w else with_pixels (canvas w) (result_pixels pg' w'))
    /\ drawn w' = drawn w ++ [(pixel_receiver pg, LoadPixels); (pixel_receiver pg, UpdatePixels)]
    /\ taken (random (grain w'))
       = (per_pixel * visited (canvas w) target + taken (random (grain w)))%nat.
Proof.
  intros Ha Hpg run per_pixel. unfold run, per_pixel.
  destruct channels;
    [destruct (granulateChannels_pass sample amount alpha pg target w Ha Hpg)
       as (px' & pg' & w' & E & Hpx & Hlen & Hpg' & Hcv & Hdr & Htk)
    |destruct (granulateSimple_pass sample amount alpha pg target w Ha Hpg)
       as (px' & pg' & w' & E & Hpx & Hlen & Hpg' & Hcv & Hdr & Htk)];
    exists pg', w'; rewrite Hpx; repeat split; assumption.
Qed.

Lemma granulate_pass_effects_witness :
  let cv := {| width := 2; height := 1; pixelDensity := 1;
               pixels := [10; 20; 30; 255; 40; 50; 60; 255] |} in
  let w := start (fun _ => 1 # 2) cv in
  exists pg' w',
    granulateChannels (fun v => Z.max 0 (Z.min 255 v)) (VNum 3) (VBool true) VUndefined w
    = (Normal pg', w')
    /\ List.length (result_pixels pg' w') = 8%nat
    /\ pg' = VUndefined
    /\ canvas w' = with_pixels cv (result_pixels pg' w')
    /\ drawn w' = [(OnCanvas, LoadPixels); (OnCanvas, UpdatePixels)]
    /\ taken (random (grain w')) = 8%nat.
Proof.
  intros cv w.
  apply (granulate_pass_effects (fun v => Z.max 0 (Z.min 255 v)) true 3
           (VBool true) VUndefined cv w).
  - right. exists true. reflexivity.
  - left. split; reflexivity.
Defined.

Lemma grainAmount_zero (r : Q) : (0 <= r < 1)%Q -> grainAmount_of 0 r = 0.
Proof.
  intros [H0 H1]. unfold grainAmount_of, randomIntInclusive_with, floor.
  change (Qceiling (inject_Z (- 0))) with 0.
  change (Qfloor (inject_Z 0)) with 0.
  change (inject_Z (0 - 0 + 1)) with 1%Q. change (inject_Z 0) with 0%Q.
  apply Qfloor_iff. change (inject_Z 0) with 0%Q. change (inject_Z (0 + 1)) with 1%Q.
  lra.
Qed.

Lemma bump_zero (sample : Z -> Z) (px : list Z) (k : nat) :
  Forall (fun v => sample v = v) px ->
  bump sample 0 (nth_error px k) = nth_error px k.
Proof.
  intro HF. unfold bump. destruct (nth_error px k) as [v|] eqn:E; [|reflexivity].
  cbn. rewrite Z.add_0_r. f_equal.
  rewrite Forall_forall in HF. apply HF. eapply nth_error_In. exact E.
Qed.

(** X17.  An [amount] that rounds to 0, with the random source in
    [0, 1) and an array that holds what it is given for the values it
    has: either granulate method returns with every sample as it was
    (the random numbers are taken all the same). *)
Theorem granulate_zero_amount (sample : Z -> Z) (channels : bool) (amount : Q)
        (alpha pg : Value) (target : Surface) (w : World) :
  boolean_or_absent alpha -> targets pg w target ->
  round amount = 0 ->
  (forall k, 0 <= stream (random (grain w)) k < 1)%Q ->
  Forall (fun v => sample v = v) (pixels target) ->
  let run := if channels then granulateChannels sample else granulateSimple sample in
  exists pg' w',
    run (VNum amount) alpha pg w = (Normal pg', w')
    /\ result_pixels pg' w' = pixels target.
Proof.
  intros Ha Hpg Hz Hr HF run. unfold run.
  destruct channels;
    [destruct (granulateChannels_run sample amount alpha pg target w Ha Hpg)
       as (pg' & w' & E & Hnth)
    |destruct (granulateSimple_run sample amount alpha pg target w Ha Hpg)
       as (pg' & w' & E & Hnth)];
    exists pg', w'; (split; [exact E|]);
    apply nth_error_ext; intro k;
    rewrite (Nat.div_mod_eq k 4);
    rewrite Hnth by (apply Nat.mod_upper_bound; lia);
    destruct (_ && _); try reflexivity;
    rewrite Hz, grainAmount_zero by apply Hr;
    apply bump_zero; exact HF.
Qed.

Lemma granulate_zero_amount_witness :
  let cv := {| width := 2; height := 1; pixelDensity := 1;
               pixels := [10; 20; 30; 255; 40; 50; 60; 255] |} in
  let w := start (fun _ => 9 # 10) cv in
  exists pg' w',
    granulateSimple (fun v => Z.max 0 (Z.min 255 v)) (VNum (2 # 5)) (VBool true) VUndefined w
    = (Normal pg', w')
    /\ result_pixels pg' w' = pixels cv.
Proof.
  intros cv w.
  apply (granulate_zero_amount (fun v => Z.max 0 (Z.min 255 v)) false (2 # 5)
           (VBool true) VUndefined cv w).
  - right. exists true. reflexivity.
  - left. split; reflexivity.
  - reflexivity.
  - intro k. cbn. split; [discriminate|reflexivity].
  - repeat constructor.
Defined.

(** ** [tinkerPixels]: the calls of the callback *)

Lemma validate_tinkerPixels (pg : Value) (target : Surface) (w : World) :
  targets pg w target ->
  validateArguments "tinkerPixels" [VFun; pg] w = (Normal tt, w).
Proof.
  intro Hpg.
  unfold validateArguments, bind, read, throw_if, throw, lift, ret.
  destruct (ignoreErrors (grain w)); cbn [negb]; [reflexivity|].
  destruct Hpg as [[-> _] | ->]; reflexivity.
Qed.

(** A loop whose body only computes folds it over the indices. *)
Lemma for_pixels_fold {A : Type} (f : Z -> A -> A) (total : Z) (w : World) :
  forall (n k : nat) (a : A),
    total <= 4 * Z.of_nat (k + n) ->
    (forall q, (q < n)%nat -> 4 * Z.of_nat (k + q) < total) ->
    for_pixels (fun i a => ret (f i a)) total (4 * Z.of_nat k) a w
    = (Normal (fold_left (fun a j => f (4 * Z.of_nat j) a) (seq k n) a), w).
Proof.
  induction n as [|n IH]; intros k a Hhi Hlo.
  - rewrite for_pixels_done by lia. reflexivity.
  - rewrite for_pixels_step by (specialize (Hlo 0%nat); rewrite Nat.add_0_r in Hlo; lia).
    unfold bind at 1. cbn [ret seq fold_left].
    replace (4 * Z.of_nat k + 4) with (4 * Z.of_nat (S k)) by lia.
    apply IH; [lia|].
    intros q Hq. specialize (Hlo (S q)). lia.
Qed.

(** X18.  [tinkerPixels] over a function and the documented [pg]
    returns having called the callback once per visited pixel, in
    ascending order, with the indices 0, 4, 8, ... and every time the
    same [total]; beside what the callback does, the host is asked
    [loadPixels()] before and [updatePixels()] after, on the buffer
    when one is given, and nothing else changes: no random number is
    taken. *)
Theorem tinkerPixels_calls {St : Type} (callback : Z -> Z -> St -> St)
        (pg : Value) (target : Surface) (s : St) (w : World) :
  targets pg w target ->
  let total := total_of (canvas w) target in
  tinkerPixels callback pg s w
  = (Normal (fold_left (fun s k => callback (4 * Z.of_nat k) total s)
                       (seq 0 (visited (canvas w) target)) s),
     {| grain := grain w; canvas := canvas w;
        drawn := drawn w ++ [(pixel_receiver pg, LoadPixels);
                             (pixel_receiver pg, UpdatePixels)];
        styled := styled w |}).
Proof.
  intros Hpg total. unfold tinkerPixels.
  rewrite (bind_normal _ _ _ _ _ (validate_tinkerPixels pg target w Hpg)).
  rewrite (bind_normal _ _ _ _ _ (surface_of_target pg w target Hpg)).
  unfold emit at 1. rewrite bind_write, bind_read.
  cbn [fst snd canvas].
  fold (total_of (canvas w) target). fold total.
  rewrite visited_pixels.
  set (n := (width (canvas w) * pixelDensity target) * (height (canvas w) * pixelDensity target)).
  assert (Ht : total = 4 * n) by (unfold total; apply total_pixels).
  change 0 with (4 * Z.of_nat 0) at 1.
  rewrite (bind_normal _ _ _ _ _
             (for_pixels_fold (fun i s0 => callback i total s0) total _
                (Z.to_nat n) 0%nat s ltac:(lia) ltac:(intros; lia))).
  unfold emit, pixel_receiver. rewrite bind_write. unfold ret.
  cbn [drawn grain canvas styled]. rewrite <- app_assoc. reflexivity.
Qed.

Lemma tinkerPixels_calls_witness :
  let cv := {| width := 3; height := 1; pixelDensity := 1; pixels := [] |} in
  let w := start (fun _ => 0%Q) cv in
  tinkerPixels (fun i total seen => seen ++ [(i, total)]) VUndefined [] w
  = (Normal [(0, 12); (4, 12); (8, 12)],
     {| grain := grain w; canvas := cv;
        drawn := [(OnCanvas, LoadPixels); (OnCanvas, UpdatePixels)];
        styled := [] |}).
Proof.
  intros cv w.
  apply (tinkerPixels_calls (fun i total seen => seen ++ [(i, total)])
           VUndefined cv [] w).
  left. split; reflexivity.
Defined.

(** ** How the animation settings of [textureOverlay] resolve *)

Lemma round_prop_or_cases (obj : Value) (prop : string) (dflt : Z) (w : World) (v : Z) :
  fst (round_prop_or obj prop dflt w) = Normal v ->
  (truthy obj = false -> v = dflt)
  /\ (truthy obj = true ->
      forall f, get obj prop = Normal f ->
        (truthy f = false -> v = dflt)
        /\ (forall q, f = VNum q -> truthy f = true -> v = round q)).
Proof.
  unfold round_prop_or, bind, lift, ret.
  destruct (truthy obj).
  - destruct (get obj prop) as [f|e| |]; cbn [fst]; try discriminate.
    destruct (truthy f) eqn:Hf.
    + intro Hv. split; [discriminate|]. intros _ f' [= <-].
      split; [rewrite Hf; discriminate|].
      intros q -> _. cbn in Hv. injection Hv as <-. reflexivity.
    + cbn [fst]. intros [= <-]. split; [discriminate|]. intros _ f' [= <-].
      split; [reflexivity|]. intros q _ Hq. rewrite Hf in Hq. discriminate.
  - cbn [fst]. intros [= <-]. split; [reflexivity|discriminate].
Qed.

Lemma resolve_settings (textureImage config pg : Value) (w : World) (p : Resolved) :
  fst (resolve textureImage config pg w) = Normal p ->
  exists animate,
    get config "animate" = Normal animate
    /\ _animate p = truthy animate
    /\ fst (round_prop_or animate "atFrame" 2 w) = Normal (_animateAtFrame p)
    /\ fst (round_prop_or animate "amount" (Z.min (_width p) (_height p)) w)
       = Normal (_animateAmount p).
Proof.
  unfold resolve. rewrite bind_read.
  normal_step (lift (get config "mode")) (pure_lift (get config "mode")) w mode E1.
  normal_step (lift (get config "reflect")) (pure_lift (get config "reflect")) w rfl E2.
  normal_step (lift (get config "animate")) (pure_lift (get config "animate")) w anim E3.
  normal_step (round_prop_or anim "atFrame" 2) (pure_round_prop_or anim "atFrame" 2) w atf E4.
  match goal with |- context [round_prop_or anim "amount" ?d] =>
    normal_step (round_prop_or anim "amount" d) (pure_round_prop_or anim "amount" d) w amt E5
  end.
  normal_step (tile_size config textureImage "width")
              (pure_tile_size config textureImage "width") w tw E6.
  normal_step (tile_size config textureImage "height")
              (pure_tile_size config textureImage "height") w th E7.
  intros [= <-]. exists anim. cbn [_animate _animateAtFrame _animateAmount _width _height].
  unfold lift in E3. injection E3 as E3.
  rewrite E4, E5. repeat split; try reflexivity; exact E3.
Qed.

(** X19.  [config.animate] is not validated and is only tested for
    truth: when [textureOverlay] resolves its settings, any truthy
    value turns the animation on, objects or not.  A falsy or missing
    [atFrame] (0 included) resolves to 2 and a falsy or missing
    [amount] (0 included) to the smaller of the destination's width
    and height; other numbers are rounded. *)
Theorem overlay_animation_settings
        (textureImage pg : Value) (props : list (string * Value)) (w : World)
        (p : Resolved) (atFrame amount : Value) :
  fst (resolve textureImage (VObject props) pg w) = Normal p ->
  get (assoc "animate" props) "atFrame" = Normal atFrame ->
  get (assoc "animate" props) "amount" = Normal amount ->
  truthy (assoc "animate" props) = true ->
  _animate p = true
  /\ (truthy atFrame = false -> _animateAtFrame p = 2)
  /\ (forall q, atFrame = VNum q -> truthy atFrame = true -> _animateAtFrame p = round q)
  /\ (truthy amount = false -> _animateAmount p = Z.min (_width p) (_height p))
  /\ (forall q, amount = VNum q -> truthy amount = true -> _animateAmount p = round q).
Proof.
  intros Hp Hf Hm Ha.
  destruct (resolve_settings textureImage (VObject props) pg w p Hp)
    as (animate & Hg & Han & Hat & Ham).
  cbn [get] in Hg. injection Hg as <-.
  destruct (round_prop_or_cases _ _ _ _ _ Hat) as [_ Hat'].
  destruct (round_prop_or_cases _ _ _ _ _ Ham) as [_ Ham'].
  destruct (Hat' Ha atFrame Hf) as [Hat0 Hat1].
  destruct (Ham' Ha amount Hm) as [Ham0 Ham1].
  rewrite Han, Ha. repeat split; assumption.
Qed.

Lemma overlay_animation_settings_witness :
  let w := start (fun _ => 0%Q)
             {| width := 10; height := 8; pixelDensity := 1; pixels := [] |} in
  let p := {| isGraphicsBuffer := false; _width := 10; _height := 8;
              _mode := MULTIPLY; _reflect := false; _animate := true;
              _animateAtFrame := 2; _animateAmount := 8; tW := 4; tH := 4 |} in
  fst (resolve (VImage 4 4) (VObject [("animate", VBool true)]) VUndefined w) = Normal p
  /\ _animate p = true
  /\ (truthy VUndefined = false -> _animateAtFrame p = 2)
  /\ (truthy VUndefined = false -> _animateAmount p = Z.min (_width p) (_height p)).
Proof.
  intros w p.
  destruct (overlay_animation_settings (VImage 4 4) VUndefined
              [("animate", VBool true)] w p VUndefined VUndefined
              eq_refl eq_refl eq_refl eq_refl) as (H1 & H2 & _ & H3 & _).
  split; [reflexivity|]. split; [exact H1|]. split; [exact H2|exact H3].
Defined.

(** ** Registration on the prototypes *)

Lemma member_register (p5grain : P5Grain) (on on' : Prototype) (name name' : string)
      (h : Host) :
  member (prototype_of on' (register p5grain on name h)) name'
  = match member (prototype_of on' h) name' with
    | Some m => Some m
    | None => if same_prototype on on' && String.eqb name name'
              then Some (wrapper on' name') else None
    end.
Proof.
  unfold register, hasOwnProperty, wrapper.
  destruct (member (prototype_of on h) name) as [m|] eqn:E; cbn [negb].
  - assert (Hsame : prototype_of on'
                      (if negb (ignoreWarnings p5grain)
                       then warn (CouldNotRegister on name) h else h)
                    = prototype_of on' h)
      by (destruct (ignoreWarnings p5grain), on'; reflexivity).
    rewrite Hsame.
    destruct (member (prototype_of on' h) name') as [m'|] eqn:E'; [reflexivity|].
    destruct on, on'; cbn [same_prototype andb]; try reflexivity;
      destruct (String.eqb_spec name name') as [->|_]; try reflexivity; congruence.
  - destruct on, on'; cbn [define prototype_of p5_prototype graphics_prototype member
                           same_prototype andb];
      try (destruct (member _ name'); reflexivity);
      destruct (String.eqb_spec name name') as [->|_];
      try (destruct (member _ name'); reflexivity);
      cbn [prototype_of] in E; rewrite E; reflexivity.
Qed.

Lemma console_register (p5grain : P5Grain) (on : Prototype) (name : string) (h : Host) :
  console (register p5grain on name h)
  = console h ++ (if hasOwnProperty (prototype_of on h) name && negb (ignoreWarnings p5grain)
                  then [CouldNotRegister on name] else []).
Proof.
  unfold register.
  destruct (hasOwnProperty (prototype_of on h) name); cbn [negb andb].
  - destruct (ignoreWarnings p5grain); cbn [negb warn console];
      [rewrite app_nil_r|]; reflexivity.
  - rewrite app_nil_r. destruct on; reflexivity.
Qed.

Lemma hasOwnProperty_register (p5grain : P5Grain) (on on' : Prototype) (name name' : string)
      (h : Host) :
  hasOwnProperty (prototype_of on' (register p5grain on name h)) name'
  = hasOwnProperty (prototype_of on' h) name'
    || (same_prototype on on' && String.eqb name name').
Proof.
  unfold hasOwnProperty. rewrite member_register.
  destruct (member (prototype_of on' h) name'); [reflexivity|].
  destruct (same_prototype on on' && String.eqb name name'); reflexivity.
Qed.

(** X20.  Loading the script never replaces a property: on either
    prototype a name that was defined keeps what it had, each of the
    nine names the script has a block for that was missing becomes the
    script's function (which hands [this] over on
    [p5.Graphics.prototype] only), and no other name appears, so
    [p5.Graphics.prototype.textureAnimate] is never defined.  Every
    name that was taken is answered by one warning, in the order of
    the script: the instance is new, so [ignoreWarnings] is still
    [false] and nothing can silence them. *)
Theorem script_registration (math_random : nat -> Q) (h : Host) :
  let h' := snd (script math_random h) in
  fst (script math_random h) = constructor math_random
  /\ (forall on name,
        member (prototype_of on h') name
        = match member (prototype_of on h) name with
          | Some m => Some m
          | None => if registers on name then Some (wrapper on name) else None
          end)
  /\ registers GraphicsPrototype "textureAnimate" = false
  /\ console h'
     = console h
       ++ map (fun r => CouldNotRegister (fst r) (snd r))
              (filter (fun r => hasOwnProperty (prototype_of (fst r) h) (snd r))
                      registrations).
Proof.
  cbv zeta. split; [reflexivity|]. split; [|split; [reflexivity|]].
  - intros on name. unfold script. cbn [snd].
    rewrite !member_register.
    destruct (member (prototype_of on h) name) as [m|]; [reflexivity|].
    unfold registers, registrations. cbn [existsb fst snd].
    destruct on; cbn [same_prototype andb orb];
      repeat match goal with
             | |- context [String.eqb ?a name] => destruct (String.eqb a name)
             end; reflexivity.
  - unfold script. cbn [snd].
    rewrite !console_register, !hasOwnProperty_register.
    cbn [same_prototype andb orb String.eqb Ascii.eqb Bool.eqb constructor ignoreWarnings negb].
    rewrite !orb_false_r, !andb_true_r.
    unfold registrations. cbn [filter fst snd].
    repeat match goal with
           | |- context [hasOwnProperty ?p ?n] => destruct (hasOwnProperty p n)
           end; cbn [map fst snd app]; rewrite ?app_nil_r, <- ?app_assoc; reflexivity.
Qed.

(** ** From [setup] to the pixel methods *)

Lemma setup_installs (p5_random config_random : nat -> Q) (config : Value)
      (source : nat -> Q) (w : World) :
  (config = VUndefined /\ source = p5_random)
  \/ (exists props, config = VObject props /\ assoc "random" props = VFun
                    /\ source = config_random) ->
  fst (setup p5_random config_random config w) = Normal tt ->
  random (grain (snd (setup p5_random config_random config w)))
  = {| stream := source; taken := 0 |}
  /\ canvas (snd (setup p5_random config_random config w)) = canvas w.
Proof.
  intros [[-> ->]|(props & -> & Hr & ->)]; run_setup.
  - destruct (ignoreErrors (grain w)); cbn; intros _; split; reflexivity.
  - cbn [typeof arg nth get String.eqb Ascii.eqb Bool.eqb typeof_ne negb andb fst snd].
    rewrite Hr.
    destruct (ignoreErrors (grain w)); cbn [negb];
      (destruct (assoc "ignoreErrors" props) as [| |[]| | | | | | |];
       try (cbn; discriminate);
       (destruct (assoc "ignoreWarnings" props) as [| |[]| | | | | | |];
        cbn; try discriminate; intros _; split; reflexivity)).
Qed.

(** X21.  The source [setup] installs is the one the pixel methods
    draw from, from its first number on: after [setup()] (the [random]
    of p5) or [setup({ random: f, ... })] has returned, a pass of
    [granulateSimple] over the documented arguments gives pixel [p] the
    delta made of the [p]-th number of that source, and a pass of
    [granulateChannels] gives channel [c] of pixel [p] the delta made
    of number [c + 3 * p], or [c + 4 * p] with [alpha]. *)
Theorem configured_random_is_used
        (sample : Z -> Z) (p5_random config_random source : nat -> Q)
        (config : Value) (amount : Q) (alpha pg : Value) (target : Surface) (w : World) :
  (config = VUndefined /\ source = p5_random)
  \/ (exists props, config = VObject props /\ assoc "random" props = VFun
                    /\ source = config_random) ->
  fst (setup p5_random config_random config w) = Normal tt ->
  boolean_or_absent alpha -> targets pg w target ->
  let w1 := snd (setup p5_random config_random config w) in
  let visited_channel (p c : nat) :=
    (4 * Z.of_nat p <? total_of (canvas w) target) && (Nat.ltb c 3 || truthy alpha) in
  (exists pg' w',
     granulateSimple sample (VNum amount) alpha pg w1 = (Normal pg', w')
     /\ forall p c, (c < 4)%nat ->
          nth_error (result_pixels pg' w') (4 * p + c)
          = if visited_channel p c
            then bump sample (grainAmount_of (round amount) (source p))
                      (nth_error (pixels target) (4 * p + c))
            else nth_error (pixels target) (4 * p + c))
  /\ (exists pg' w',
        granulateChannels sample (VNum amount) alpha pg w1 = (Normal pg', w')
        /\ forall p c, (c < 4)%nat ->
             nth_error (result_pixels pg' w') (4 * p + c)
             = if visited_channel p c
               then bump sample
                         (grainAmount_of (round amount)
                            (source (c + (if truthy alpha then 4 else 3) * p)%nat))
                         (nth_error (pixels target) (4 * p + c))
               else nth_error (pixels target) (4 * p + c)).
Proof.
  intros Hcfg Hset Ha Hpg w1 visited_channel.
  destruct (setup_installs p5_random config_random config source w Hcfg Hset) as [Hr Hcv].
  fold w1 in Hr, Hcv.
  assert (Hpg1 : targets pg w1 target).
  { destruct Hpg as [[-> ->] | ->];
      [left; split; [reflexivity|symmetry; exact Hcv]|right; reflexivity]. }
  assert (Hup : forall k, upcoming w1 k = source k).
  { intro k. unfold upcoming. rewrite Hr. cbn. rewrite Nat.add_0_r. reflexivity. }
  unfold visited_channel. split.
  - destruct (granulateSimple_run sample amount alpha pg target w1 Ha Hpg1)
      as (pg' & w' & E & Hnth).
    exists pg', w'. split; [exact E|].
    intros p c Hc. rewrite (Hnth p c Hc), Hcv, Hup. reflexivity.
  - destruct (granulateChannels_run sample amount alpha pg target w1 Ha Hpg1)
      as (pg' & w' & E & Hnth).
    exists pg', w'. split; [exact E|].
    intros p c Hc. rewrite (Hnth p c Hc), Hcv, Hup. reflexivity.
Qed.

Lemma configured_random_is_used_witness :
  let cv := {| width := 1; height := 1; pixelDensity := 1; pixels := [10; 20; 30; 255] |} in
  let w := start (fun _ => 0%Q) cv in
  let source := fun n : nat => if Nat.eqb n 0 then 9 # 10 else 0%Q in
  let w1 := snd (setup (fun _ => 0%Q) source (VObject [("random", VFun)]) w) in
  exists pg' w',
    granulateSimple (fun v => v) (VNum 2) VUndefined VUndefined w1 = (Normal pg', w')
    /\ forall p c, (c < 4)%nat ->
         nth_error (result_pixels pg' w') (4 * p + c)
         = if (4 * Z.of_nat p <? total_of (canvas w) cv) && (Nat.ltb c 3 || truthy VUndefined)
           then bump (fun v => v) (grainAmount_of (round 2) (source p))
                     (nth_error (pixels cv) (4 * p + c))
           else nth_error (pixels cv) (4 * p + c).
Proof.
  intros cv w source w1.
  refine (proj1 (configured_random_is_used (fun v => v) (fun _ => 0%Q) source source
                   (VObject [("random", VFun)]) 2 VUndefined VUndefined cv w
                   _ eq_refl _ _)).
  - right. exists [("random", VFun)]. repeat split.
  - left. reflexivity.
  - left. split; reflexivity.
Defined.

(** * The tiling sweep *)

(** ** Where the additions of the cursor are exact *)

Lemma double_comp (x y : Q) : (x == y)%Q -> double x -> double y.
Proof. unfold double. intros E Hx. rewrite <- E. exact Hx. Qed.

Lemma rowY_0 (ay th : Q) : (rowY ay th 0 == ay)%Q.
Proof. apply colX_0. Qed.

Lemma rowY_S (ay th : Q) (r : nat) : (rowY ay th (S r) == rowY ay th r + th)%Q.
Proof. apply colX_S. Qed.

Lemma colX_Z (a t : Z) (n : nat) :
  (colX (inject_Z a) (inject_Z t) n == inject_Z (a + Z.of_nat n * t))%Q.
Proof. unfold colX, num. rewrite inject_Z_plus, inject_Z_mult. reflexivity. Qed.

(** Integers that stay within [2 ^ 53] in magnitude step exactly. *)
Lemma safe_steps (a t b : Z) :
  0 < t -> - 2 ^ 53 <= a -> b + t <= 2 ^ 53 ->
  exact_steps (inject_Z a) (inject_Z t) (inject_Z b).
Proof.
  intros Ht Ha Hb n Hn.
  rewrite colX_Z in Hn. rewrite <- Zlt_Qlt in Hn.
  apply (double_comp (inject_Z (a + Z.of_nat (S n) * t))); [symmetry; apply colX_Z|].
  apply double_Z. nia.
Qed.

(** One exact step. *)
Lemma exact_step (o t bound x : Q) (n : nat) :
  exact_steps o t bound -> (x == colX o t n)%Q -> (x < bound)%Q ->
  (rnd (x + t) == colX o t (S n))%Q.
Proof.
  intros Hex Hx Hlt.
  assert (E : (x + t == colX o t (S n))%Q) by (rewrite colX_S, Hx; reflexivity).
  rewrite E. apply Hex. rewrite <- Hx. exact Hlt.
Qed.

(** The number of steps [t] that first reach [d]. *)
Lemma ceiling_steps (d t : Q) :
  (0 < t)%Q ->
  let m := Z.to_nat (Qceiling (d / t)) in
  (d <= num m * t)%Q /\ (m = 0%nat \/ (num (m - 1) * t < d)%Q).
Proof.
  intros Ht m.
  assert (E : (d / t * t == d)%Q) by (field; lra).
  pose proof (Qle_ceiling (d / t)) as Hup.
  pose proof (Qceiling_lt (d / t)) as Hdown.
  destruct (Z_le_gt_dec (Qceiling (d / t)) 0) as [Hc|Hc].
  - assert (m = 0%nat) as -> by (unfold m; lia).
    split; [|left; reflexivity].
    rewrite steps_0.
    assert (Hq : (d / t <= 0)%Q).
    { apply Qle_trans with (inject_Z (Qceiling (d / t))); [exact Hup|].
      change 0%Q with (inject_Z 0). rewrite <- Zle_Qle. exact Hc. }
    rewrite <- E. setoid_replace 0%Q with (0 * t)%Q by ring.
    apply Qmult_le_compat_r; lra.
  - assert (Hm : num m = inject_Z (Qceiling (d / t)))
      by (unfold num, m; rewrite Z2Nat.id by lia; reflexivity).
    assert (Hm1 : num (m - 1) = inject_Z (Qceiling (d / t) - 1)).
    { unfold num, m. f_equal. lia. }
    split.
    + rewrite Hm, <- E at 1. apply Qmult_le_compat_r; lra.
    + right. rewrite Hm1. rewrite <- E at 2. apply Qmult_lt_compat_r; lra.
Qed.

Lemma cell_unique (o t p : Q) (a b : nat) :
  (0 < t)%Q ->
  (o + num a * t <= p)%Q -> (p < o + num a * t + t)%Q ->
  (o + num b * t <= p)%Q -> (p < o + num b * t + t)%Q ->
  a = b.
Proof.
  intros Ht Ha1 Ha2 Hb1 Hb2.
  destruct (lt_eq_lt_dec a b) as [[Hlt|Heq]|Hlt]; [|exact Heq|]; exfalso.
  - assert (Hs : (num (S a) * t <= num b * t)%Q)
      by (apply Qmult_le_compat_r; [apply num_le; lia|lra]).
    rewrite steps_S in Hs. lra.
  - assert (Hs : (num (S b) * t <= num a * t)%Q)
      by (apply Qmult_le_compat_r; [apply num_le; lia|lra]).
    rewrite steps_S in Hs. lra.
Qed.

(** ** The sweep over an exact grid *)

Section Grid.

Variables (reflect gb : bool) (W H tw th ax ay : Q).
Hypothesis tw_pos : (0 < tw)%Q.
Hypothesis th_pos : (0 < th)%Q.
Hypothesis exact_x : exact_steps ax tw W.
Hypothesis exact_y : exact_steps ay th H.

(** A row entered at column [c0] with [n + 1] columns to go draws
    exactly those, left to right. *)
Lemma sweep_row_columns (n : nat) :
  forall fuel rf x y c0,
    (n < fuel)%nat ->
    (x == colX ax tw c0)%Q ->
    (num n * tw < W - x)%Q ->
    (W - x <= num (S n) * tw)%Q ->
    exists plan,
      sweep_row reflect gb W tw th ax fuel rf x y (Nat.even c0)
        = Some (ax, rnd (y + th), true, draw_plan reflect gb tw th plan)
      /\ List.length plan = S n
      /\ forall j, (j < S n)%nat ->
           exists pl, nth_error plan j = Some pl
             /\ pl_row pl = rf /\ pl_col pl = Nat.even (c0 + j)
             /\ (pl_x pl == colX ax tw (c0 + j))%Q /\ pl_y pl = y.
Proof.
  induction n as [|n IH]; intros fuel rf x y c0 Hfuel Hx Hlo Hhi;
    (destruct fuel as [|fuel]; [lia|]); cbn [sweep_row].
  - rewrite steps_0 in Hlo. rewrite steps_S, steps_0 in Hhi.
    assert (Hlt : Qltb x W = true) by (apply Qltb_true; lra).
    pose proof (exact_step ax tw W x c0 exact_x Hx ltac:(lra)) as Hr.
    rewrite colX_S, <- Hx in Hr.
    assert (Hge : Qgeb (rnd (x + tw)) W = true) by (apply Qgeb_true; rewrite Hr; lra).
    rewrite Hlt, Hge.
    exists [{| pl_row := rf; pl_col := Nat.even c0; pl_x := x; pl_y := y |}].
    split; [unfold draw_plan; cbn [flat_map pl_row pl_col pl_x pl_y];
            rewrite app_nil_r; reflexivity|].
    split; [reflexivity|].
    intros j Hj. assert (j = 0%nat) as -> by lia. rewrite Nat.add_0_r.
    eexists. split; [reflexivity|]. cbn. repeat split; auto.
  - rewrite steps_S in Hlo. rewrite steps_S in Hhi.
    assert (Hnn : (0 <= num n * tw)%Q)
      by (apply Qmult_le_0_compat; [apply num_nonneg|lra]).
    assert (Hlt : Qltb x W = true) by (apply Qltb_true; lra).
    pose proof (exact_step ax tw W x c0 exact_x Hx ltac:(lra)) as Hr.
    assert (Hr' : (rnd (x + tw) == x + tw)%Q) by (rewrite Hr, colX_S, Hx; reflexivity).
    assert (Hge : Qgeb (rnd (x + tw)) W = false) by (apply Qgeb_false; rewrite Hr'; lra).
    rewrite Hlt, Hge.
    destruct (IH fuel rf (rnd (x + tw)) y (S c0)) as (plan & Hrun & Hlen & Hnth).
    + lia.
    + exact Hr.
    + rewrite Hr'. lra.
    + rewrite Hr'. lra.
    + rewrite Nat.even_succ, <- Nat.negb_even in Hrun. rewrite Hrun.
      exists ({| pl_row := rf; pl_col := Nat.even c0; pl_x := x; pl_y := y |} :: plan).
      split; [reflexivity|].
      split; [cbn [List.length]; rewrite Hlen; reflexivity|].
      intros [|j] Hj.
      * rewrite Nat.add_0_r. eexists. split; [reflexivity|]. cbn. repeat split; auto.
      * destruct (Hnth j) as (pl & Hpl & Hrest); [lia|].
        exists pl. split; [exact Hpl|].
        replace (c0 + S j)%nat with (S c0 + j)%nat by lia. exact Hrest.
Qed.

(** The outer loop, entered at row [r0] with [m] rows to go of [S n]
    columns each, draws them row after row. *)
Lemma sweep_rows (n : nat) :
  (num n * tw < W - ax)%Q ->
  (W - ax <= num (S n) * tw)%Q ->
  forall m fuel y r0,
    (S n + m < fuel)%nat ->
    (y == rowY ay th r0)%Q ->
    (H - y <= num m * th)%Q ->
    (m = 0%nat \/ num (m - 1) * th < H - y)%Q ->
    exists plan,
      sweep reflect gb W H tw th ax fuel ax y (Nat.even r0) true
        = Some (draw_plan reflect gb tw th plan)
      /\ List.length plan = (m * S n)%nat
      /\ forall i j, (i < m)%nat -> (j < S n)%nat ->
           exists pl, nth_error plan (i * S n + j) = Some pl
             /\ pl_row pl = Nat.even (r0 + i) /\ pl_col pl = Nat.even j
             /\ (pl_x pl == colX ax tw j)%Q /\ (pl_y pl == rowY ay th (r0 + i))%Q.
Proof.
  intros Hlo Hhi.
  induction m as [|m IH]; intros fuel y r0 Hfuel Hy Hm Hm';
    (destruct fuel as [|fuel]; [lia|]); cbn [sweep].
  - rewrite steps_0 in Hm.
    assert (Hlt : Qltb y H = false) by (apply Qltb_false; lra).
    rewrite Hlt. exists []. split; [reflexivity|]. split; [reflexivity|].
    intros i j Hi. lia.
  - destruct Hm' as [Hm'|Hm']; [discriminate|].
    replace (S m - 1)%nat with m in Hm' by lia.
    assert (Hmm : (0 <= num m * th)%Q)
      by (apply Qmult_le_0_compat; [apply num_nonneg|lra]).
    assert (Hlt : Qltb y H = true) by (apply Qltb_true; lra).
    rewrite Hlt. rewrite steps_S in Hm.
    pose proof (exact_step ay th H y r0 exact_y Hy ltac:(lra)) as Hr.
    assert (Hr' : (rnd (y + th) == y + th)%Q)
      by (rewrite Hr; unfold rowY in Hy; rewrite colX_S, Hy; reflexivity).
    destruct (sweep_row_columns n fuel (Nat.even r0) ax y 0%nat)
      as (plan1 & Hrow & Hlen1 & Hnth1).
    + lia.
    + rewrite colX_0. reflexivity.
    + exact Hlo.
    + exact Hhi.
    + change (Nat.even 0) with true in Hrow. rewrite Hrow.
      destruct (IH fuel (rnd (y + th)) (S r0)) as (plan2 & Hrest & Hlen2 & Hnth2).
      * lia.
      * exact Hr.
      * rewrite Hr'. lra.
      * destruct m as [|m']; [left; reflexivity|right].
        replace (S m' - 1)%nat with m' by lia.
        rewrite steps_S in Hm'. rewrite Hr'. lra.
      * rewrite Nat.even_succ, <- Nat.negb_even in Hrest. rewrite Hrest.
        exists (plan1 ++ plan2).
        split; [unfold draw_plan; rewrite flat_map_app; reflexivity|].
        split; [rewrite length_app, Hlen1, Hlen2; lia|].
        intros [|i] j Hi Hj.
        -- cbn [Nat.mul Nat.add]. rewrite Nat.add_0_r.
           rewrite nth_error_app1 by lia.
           destruct (Hnth1 j Hj) as (pl & Hpl & Hr1 & Hc & Hpx & Hpy).
           exists pl. split; [exact Hpl|].
           cbn [Nat.add] in Hc, Hpx. rewrite Hpy.
           repeat split; auto.
        -- replace (S i * S n + j)%nat with (List.length plan1 + (i * S n + j))%nat
             by (rewrite Hlen1; lia).
           rewrite nth_error_app2 by lia.
           replace (List.length plan1 + (i * S n + j) - List.length plan1)%nat
             with (i * S n + j)%nat by lia.
           destruct (Hnth2 i j) as (pl & Hpl & Hrest'); [lia|exact Hj|].
           exists pl. split; [exact Hpl|].
           replace (r0 + S i)%nat with (S r0 + i)%nat by lia. exact Hrest'.
Qed.

(** From an anchor left of the right edge the sweep ends, having drawn
    [rows] rows of [cols] tiles in reading order. *)
Lemma sweep_closed_form :
  (ax < W)%Q ->
  let cols := Z.to_nat (Qceiling ((W - ax) / tw)) in
  let rows := Z.to_nat (Qceiling ((H - ay) / th)) in
  exists fuel plan,
    sweep reflect gb W H tw th ax fuel ax ay true true
      = Some (draw_plan reflect gb tw th plan)
    /\ (0 < cols)%nat
    /\ List.length plan = (rows * cols)%nat
    /\ forall i j, (i < rows)%nat -> (j < cols)%nat ->
         exists pl, nth_error plan (i * cols + j) = Some pl
           /\ pl_row pl = Nat.even i /\ pl_col pl = Nat.even j
           /\ (pl_x pl == colX ax tw j)%Q /\ (pl_y pl == rowY ay th i)%Q.
Proof.
  intros Hax cols rows.
  destruct (ceiling_steps (W - ax) tw tw_pos) as [Hchi Hclo]. fold cols in Hchi, Hclo.
  destruct (ceiling_steps (H - ay) th th_pos) as [Hrhi Hrlo]. fold rows in Hrhi, Hrlo.
  destruct cols as [|n].
  { exfalso. rewrite steps_0 in Hchi. lra. }
  destruct Hclo as [Hclo|Hclo]; [discriminate|].
  replace (S n - 1)%nat with n in Hclo by lia.
  destruct (sweep_rows n Hclo Hchi rows (S (S n + rows)) ay 0%nat)
    as (plan & Hrun & Hlen & Hnth).
  - lia.
  - rewrite rowY_0. reflexivity.
  - exact Hrhi.
  - exact Hrlo.
  - exists (S (S n + rows)), plan.
    split; [exact Hrun|]. split; [lia|]. split; [exact Hlen|].
    intros i j Hi Hj. destruct (Hnth i j Hi Hj) as (pl & Hpl & Hr & Hc & Hx & Hy).
    exists pl. repeat split; assumption.
Qed.

End Grid.

(** ** Sweeps that never end *)

Section Stuck.

Variables (reflect gb : bool) (W H tw th ax : Q).

(** A tile width that is not positive keeps the inner loop left of
    [W]: the rounded sum is no further right than the double the
    cursor started at or before. *)
Lemma sweep_row_stuck (x0 : Q) :
  (tw <= 0)%Q -> double x0 -> (x0 < W)%Q ->
  forall fuel rf x y cf,
    (x <= x0)%Q -> sweep_row reflect gb W tw th ax fuel rf x y cf = None.
Proof.
  intros Htw Hd Hx0. induction fuel as [|fuel IH]; intros rf x y cf Hx; [reflexivity|].
  cbn [sweep_row].
  assert (Hlt : Qltb x W = true) by (apply Qltb_true; lra).
  rewrite Hlt.
  assert (Hx' : (rnd (x + tw) <= x0)%Q) by (apply rnd_le_double; [exact Hd|lra]).
  assert (Hge : Qgeb (rnd (x + tw)) W = false) by (apply Qgeb_false; lra).
  rewrite Hge, (IH rf (rnd (x + tw)) y (negb cf) Hx'). reflexivity.
Qed.

(** The inner loop leaves [tY] where it was or one tile height further. *)
Lemma sweep_row_cursor :
  forall fuel rf x y cf x' y' cf' ops,
    sweep_row reflect gb W tw th ax fuel rf x y cf = Some (x', y', cf', ops) ->
    y' = rnd (y + th) \/ y' = y.
Proof.
  induction fuel as [|fuel IH]; intros rf x y cf x' y' cf' ops; [discriminate|].
  cbn [sweep_row].
  destruct (Qltb x W); [|intros [= <- <- <- <-]; right; reflexivity].
  destruct (Qgeb (rnd (x + tw)) W); [intros [= <- <- <- <-]; left; reflexivity|].
  destruct (sweep_row reflect gb W tw th ax fuel rf (rnd (x + tw)) y (negb cf))
    as [[[[x1 y1] c1] o1]|] eqn:E; [|discriminate].
  intros [= <- <- <- <-]. apply (IH _ _ _ _ _ _ _ _ E).
Qed.

(** A tile height that is not positive keeps the outer loop above [H]. *)
Lemma sweep_stuck_height (y0 : Q) :
  (th <= 0)%Q -> double y0 -> (y0 < H)%Q ->
  forall fuel x y rf cf,
    (y <= y0)%Q -> sweep reflect gb W H tw th ax fuel x y rf cf = None.
Proof.
  intros Hth Hd Hy0. induction fuel as [|fuel IH]; intros x y rf cf Hy; [reflexivity|].
  cbn [sweep].
  assert (Hlt : Qltb y H = true) by (apply Qltb_true; lra).
  rewrite Hlt.
  destruct (sweep_row reflect gb W tw th ax fuel rf x y cf)
    as [[[[x1 y1] c1] o1]|] eqn:E; [|reflexivity].
  rewrite IH; [reflexivity|].
  destruct (sweep_row_cursor _ _ _ _ _ _ _ _ _ E) as [-> | ->]; [|exact Hy].
  apply rnd_le_double; [exact Hd|lra].
Qed.

(** From a cursor at or beyond the right edge the inner loop draws
    nothing and [tY] never advances. *)
Lemma sweep_stuck_width :
  forall fuel x y rf cf,
    (W <= x)%Q -> (y < H)%Q -> sweep reflect gb W H tw th ax fuel x y rf cf = None.
Proof.
  induction fuel as [|fuel IH]; intros x y rf cf Hx Hy; [reflexivity|].
  cbn [sweep].
  apply Qltb_true in Hy as Hlt. rewrite Hlt.
  destruct fuel as [|fuel']; [reflexivity|].
  cbn [sweep_row].
  apply Qltb_false in Hx as Hf. rewrite Hf.
  rewrite (IH x y (negb rf) cf Hx Hy). reflexivity.
Qed.



(** With a tile width or height that is not positive, a sweep that
    starts above the bottom edge never ends, wherever the anchor is. *)
Lemma sweep_degenerate (ay : Q) :
  (tw <= 0 \/ th <= 0)%Q -> double ax -> double ay -> (ay < H)%Q ->
  forall fuel rf cf, sweep reflect gb W H tw th ax fuel ax ay rf cf = None.
Proof.
  intros [Htw|Hth] Hdx Hdy Hy fuel rf cf.
  - destruct (Qlt_le_dec ax W) as [Hx|Hx].
    + destruct fuel as [|fuel]; [reflexivity|]. cbn [sweep].
      apply Qltb_true in Hy as Hlt. rewrite Hlt.
      rewrite (sweep_row_stuck ax Htw Hdx Hx fuel rf ax ay cf (Qle_refl ax)). reflexivity.
    + apply sweep_stuck_width; assumption.
  - apply (sweep_stuck_height ay Hth Hdy Hy). apply Qle_refl.
Qed.

End Stuck.

(** ** From the sweep to the call *)

(** A call whose sweep ends returns, with these calls made. *)
Lemma textureOverlay_run (fuel : nat) (textureImage config pg : Value) (w : World)
      (p : Resolved) (ops : list (Receiver * DrawOp)) :
  fst (validateArguments "textureOverlay" [textureImage; config; pg] w) = Normal tt ->
  fst (resolve textureImage config pg w) = Normal p ->
  pg = VUndefined \/ (exists s, pg = VGraphics s) ->
  let w1 := snd (animate_step p w) in
  let st := textureOverlayState (grain w1) in
  sweep (_reflect p) (isGraphicsBuffer p)
        (inject_Z (_width p)) (inject_Z (_height p)) (tW p) (tH p)
        (inject_Z (tX_anchor st)) fuel
        (inject_Z (tX_anchor st)) (inject_Z (tY st)) true true = Some ops ->
  textureOverlay fuel textureImage config pg w
  = (Normal tt,
     {| grain := grain w1; canvas := canvas w;
        drawn := drawn w
                 ++ [(receiver (isGraphicsBuffer p), BlendMode (_mode p))]
                 ++ ops
                 ++ [(receiver (isGraphicsBuffer p), BlendMode BLEND)]
                 ++ (if isGraphicsBuffer p then [(OnPg, Reset)] else []);
        styled := styled w |}).
Proof.
  intros Hv Hp Hpg w1 st Hrun. subst st.
  assert (E1 : animate_step p w = (Normal tt, w1)).
  { unfold w1. rewrite <- (animate_step_normal p w). apply surjective_pairing. }
  destruct (animate_step_keeps_host p w) as (Hcv & Hdr & Hsty).
  fold w1 in Hcv, Hdr, Hsty.
  unfold textureOverlay.
  rewrite (run_pure_normal _ _ w tt) by auto with pure.
  rewrite (run_pure_normal _ _ w p) by (auto using pure_resolve).
  rewrite (bind_normal _ _ _ _ _ E1).
  unfold composite. rewrite bind_read, Hrun.
  destruct (resolve_target textureImage config pg w p Hp) as (Hgb & _).
  rewrite Hgb.
  destruct Hpg as [-> | [s ->]];
    unfold call_on, emit, bind, write, ret, lift; cbn;
    rewrite Hcv, Hdr, Hsty, <- ?app_assoc; reflexivity.
Qed.

(** A call whose sweep has not ended on the fuel given has not
    returned, and nothing was thrown. *)
Lemma textureOverlay_stuck (fuel : nat) (textureImage config pg : Value) (w : World)
      (p : Resolved) :
  fst (validateArguments "textureOverlay" [textureImage; config; pg] w) = Normal tt ->
  fst (resolve textureImage config pg w) = Normal p ->
  pg = VUndefined \/ (exists s, pg = VGraphics s) ->
  let st := textureOverlayState (grain (snd (animate_step p w))) in
  sweep (_reflect p) (isGraphicsBuffer p)
        (inject_Z (_width p)) (inject_Z (_height p)) (tW p) (tH p)
        (inject_Z (tX_anchor st)) fuel
        (inject_Z (tX_anchor st)) (inject_Z (tY st)) true true = None ->
  fst (textureOverlay fuel textureImage config pg w) = OutOfFuel.
Proof.
  intros Hv Hp Hpg st Hrun. subst st.
  set (w1 := snd (animate_step p w)) in *.
  assert (E1 : animate_step p w = (Normal tt, w1)).
  { unfold w1. rewrite <- (animate_step_normal p w). apply surjective_pairing. }
  unfold textureOverlay.
  rewrite (run_pure_normal _ _ w tt) by auto with pure.
  rewrite (run_pure_normal _ _ w p) by (auto using pure_resolve).
  rewrite (bind_normal _ _ _ _ _ E1).
  unfold composite. rewrite bind_read, Hrun.
  destruct Hpg as [-> | [s ->]]; reflexivity.
Qed.

(** ** The places of the tiles of any sweep that ends *)

Lemma cursor_shift (o t : Q) (n : nat) : cursor (rnd (o + t)) t n = cursor o t (S n).
Proof.
  induction n as [|n IH]; [reflexivity|].
  cbn [cursor] in *. rewrite IH. reflexivity.
Qed.

(** As long as the steps are exact the cursor stands on the grid. *)
Lemma cursor_exact (o t bound : Q) (n : nat) :
  exact_steps o t bound ->
  (forall k, (k < n)%nat -> (colX o t k < bound)%Q) ->
  (cursor o t n == colX o t n)%Q.
Proof.
  intros Hex. induction n as [|n IH]; intro Hlt.
  - cbn [cursor]. rewrite colX_0. reflexivity.
  - cbn [cursor].
    assert (E : (cursor o t n == colX o t n)%Q) by (apply IH; intros k Hk; apply Hlt; lia).
    apply (exact_step o t bound _ n Hex E).
    rewrite E. apply Hlt. lia.
Qed.

Section Places.

Variables (reflect gb : bool) (W H tw th ax : Q).

(** The tiles of a row: drawn from left to right where the cursor
    stands, under the row flag and a column flag that alternates, up to
    the first place at or beyond the right edge. *)
Lemma sweep_row_places :
  forall fuel rf x y cf x' y' cf' ops,
    sweep_row reflect gb W tw th ax fuel rf x y cf = Some (x', y', cf', ops) ->
    exists plan,
      ops = draw_plan reflect gb tw th plan
      /\ (forall j pl, nth_error plan j = Some pl ->
            pl_row pl = rf /\ pl_col pl = (if Nat.even j then cf else negb cf)
            /\ pl_x pl = cursor x tw j /\ pl_y pl = y)
      /\ (forall j, (j < List.length plan)%nat -> (cursor x tw j < W)%Q)
      /\ (W <= cursor x tw (List.length plan))%Q
      /\ (plan = [] -> x' = x /\ y' = y /\ cf' = cf)
      /\ (plan <> [] -> x' = ax /\ y' = rnd (y + th) /\ cf' = true).
Proof.
  induction fuel as [|fuel IH]; intros rf x y cf x' y' cf' ops; [discriminate|].
  cbn [sweep_row].
  destruct (Qltb x W) eqn:Hlt.
  - apply Qltb_true in Hlt.
    destruct (Qgeb (rnd (x + tw)) W) eqn:Hge.
    + apply Qgeb_true in Hge.
      intros [= <- <- <- <-].
      exists [{| pl_row := rf; pl_col := cf; pl_x := x; pl_y := y |}].
      split; [unfold draw_plan; cbn [flat_map pl_row pl_col pl_x pl_y];
              rewrite app_nil_r; reflexivity|].
      split; [intros [|[|j]] pl; cbn; intros [= <-]; repeat split; reflexivity|].
      split; [intros j Hj; cbn in Hj; assert (j = 0%nat) as -> by lia; exact Hlt|].
      split; [exact Hge|].
      split; [discriminate|]. intros _. repeat split; reflexivity.
    + apply Qgeb_false in Hge.
      destruct (sweep_row reflect gb W tw th ax fuel rf (rnd (x + tw)) y (negb cf))
        as [[[[x1 y1] c1] o1]|] eqn:E; [|discriminate].
      intros [= <- <- <- <-].
      destruct (IH _ _ _ _ _ _ _ _ E) as (plan & -> & Hpl & Hin & Hout & Hnil & Hcons).
      exists ({| pl_row := rf; pl_col := cf; pl_x := x; pl_y := y |} :: plan).
      split; [reflexivity|].
      split; [|split; [|split; [|split; [discriminate|]]]].
      * intros [|j] pl; cbn [nth_error].
        -- intros [= <-]. repeat split; reflexivity.
        -- intro Hj. destruct (Hpl j pl Hj) as (Hr & Hc & Hx & Hy).
           split; [exact Hr|]. split; [|split; [|exact Hy]].
           ++ rewrite Hc, Nat.even_succ, <- Nat.negb_even.
              destruct (Nat.even j), cf; reflexivity.
           ++ rewrite Hx. apply cursor_shift.
      * intros [|j] Hj; [exact Hlt|].
        rewrite <- cursor_shift. apply Hin. cbn in Hj. lia.
      * cbn [List.length]. rewrite <- cursor_shift. exact Hout.
      * intros _. destruct plan as [|pl plan]; [|apply Hcons; discriminate].
        exfalso. cbn in Hout. lra.
  - apply Qltb_false in Hlt.
    intros [= <- <- <- <-]. exists [].
    split; [reflexivity|].
    split; [intros [|j] pl; discriminate|].
    split; [intros j Hj; cbn in Hj; lia|].
    split; [exact Hlt|].
    split; [intros _; repeat split; reflexivity|].
    intro Hc. exfalso. apply Hc. reflexivity.
Qed.

(** The rows of a sweep from the anchor that ended: one row per place
    of the row cursor above the bottom edge, each with one tile per
    place of the column cursor left of the right edge. *)
Lemma sweep_places :
  forall fuel y rf ops,
    sweep reflect gb W H tw th ax fuel ax y rf true = Some ops ->
    exists rows : list (list Placement),
      ops = draw_plan reflect gb tw th (List.concat rows)
      /\ (forall i, (i < List.length rows)%nat -> (cursor y th i < H)%Q)
      /\ (H <= cursor y th (List.length rows))%Q
      /\ forall i row, nth_error rows i = Some row ->
           row <> []
           /\ (forall j, (j < List.length row)%nat -> (cursor ax tw j < W)%Q)
           /\ (W <= cursor ax tw (List.length row))%Q
           /\ forall j pl, nth_error row j = Some pl ->
                pl_row pl = (if Nat.even i then rf else negb rf)
                /\ pl_col pl = Nat.even j
                /\ pl_x pl = cursor ax tw j /\ pl_y pl = cursor y th i.
Proof.
  induction fuel as [|fuel IH]; intros y rf ops; [discriminate|].
  cbn [sweep].
  destruct (Qltb y H) eqn:Hy.
  - apply Qltb_true in Hy.
    destruct (sweep_row reflect gb W tw th ax fuel rf ax y true)
      as [[[[x1 y1] c1] o1]|] eqn:E; [|discriminate].
    destruct (sweep reflect gb W H tw th ax fuel x1 y1 (negb rf) c1) as [o2|] eqn:E2;
      [|discriminate].
    intros [= <-].
    destruct (sweep_row_places _ _ _ _ _ _ _ _ _ E)
      as (plan & -> & Hpl & Hin & Hout & Hnil & Hcons).
    destruct plan as [|pl0 plan].
    + exfalso. destruct (Hnil eq_refl) as (-> & -> & ->).
      cbn in Hout.
      rewrite (sweep_stuck_width reflect gb W H tw th ax fuel ax y (negb rf) true Hout Hy)
        in E2.
      discriminate.
    + destruct (Hcons ltac:(discriminate)) as (-> & -> & ->).
      destruct (IH _ _ _ E2) as (rows & -> & Hrin & Hrout & Hrows).
      exists ((pl0 :: plan) :: rows).
      split; [cbn [List.concat]; unfold draw_plan; rewrite flat_map_app; reflexivity|].
      split; [|split].
      * intros [|i] Hi; [exact Hy|].
        rewrite <- cursor_shift. apply Hrin. cbn in Hi. lia.
      * cbn [List.length]. rewrite <- cursor_shift. exact Hrout.
      * intros [|i] row; cbn [nth_error].
        -- intros [= <-]. split; [discriminate|].
           split; [exact Hin|]. split; [exact Hout|].
           intros j pl Hj. destruct (Hpl j pl Hj) as (Hr & Hc & Hx & Hy').
           repeat split; try assumption.
           rewrite Hc. destruct (Nat.even j); reflexivity.
        -- intro Hrow. destruct (Hrows i row Hrow) as (Hne & Hcin & Hcout & Hpls).
           split; [exact Hne|]. split; [exact Hcin|]. split; [exact Hcout|].
           intros j pl Hj. destruct (Hpls j pl Hj) as (Hr & Hc & Hx & Hy').
           split; [|split; [exact Hc|split; [exact Hx|]]].
           ++ rewrite Hr, Nat.even_succ, <- Nat.negb_even.
              destruct (Nat.even i), rf; reflexivity.
           ++ rewrite Hy'. apply cursor_shift.
  - apply Qltb_false in Hy.
    intros [= <-]. exists []. split; [reflexivity|].
    split; [intros i Hi; cbn in Hi; lia|].
    split; [exact Hy|].
    intros [|i] row; discriminate.
Qed.

(** The inner loop ends when the column cursor reaches the right edge. *)
Lemma sweep_row_ends (n : nat) :
  forall fuel rf x y cf,
    (n < fuel)%nat -> (W <= cursor x tw n)%Q ->
    exists res, sweep_row reflect gb W tw th ax fuel rf x y cf = Some res.
Proof.
  induction n as [|n IH]; intros fuel rf x y cf Hfuel Hout;
    (destruct fuel as [|fuel]; [lia|]); cbn [sweep_row].
  - cbn in Hout. apply Qltb_false in Hout. rewrite Hout. eexists. reflexivity.
  - destruct (Qltb x W); [|eexists; reflexivity].
    destruct (Qgeb (rnd (x + tw)) W); [eexists; reflexivity|].
    destruct (IH fuel rf (rnd (x + tw)) y (negb cf)) as ([[[x1 y1] c1] o1] & ->).
    + lia.
    + rewrite cursor_shift. exact Hout.
    + eexists. reflexivity.
Qed.

(** The sweep ends when both cursors reach their edges. *)
Lemma sweep_ends (n : nat) :
  (ax < W)%Q -> (W <= cursor ax tw n)%Q ->
  forall m fuel y rf,
    (n + m < fuel)%nat -> (H <= cursor y th m)%Q ->
    exists ops, sweep reflect gb W H tw th ax fuel ax y rf true = Some ops.
Proof.
  intros Hax Hn.
  induction m as [|m IH]; intros fuel y rf Hfuel Hout;
    (destruct fuel as [|fuel]; [lia|]); cbn [sweep].
  - cbn in Hout. apply Qltb_false in Hout. rewrite Hout. eexists. reflexivity.
  - destruct (Qltb y H); [|eexists; reflexivity].
    destruct (sweep_row_ends n fuel rf ax y true) as ([[[x1 y1] c1] o1] & E);
      [lia|exact Hn|].
    rewrite E.
    destruct (sweep_row_places _ _ _ _ _ _ _ _ _ E)
      as (plan & -> & _ & _ & Hpout & _ & Hcons).
    destruct plan as [|pl0 plan]; [exfalso; cbn in Hpout; lra|].
    destruct (Hcons ltac:(discriminate)) as (-> & -> & ->).
    destruct (IH fuel (rnd (y + th)) (negb rf)) as (o2 & ->).
    + lia.
    + rewrite cursor_shift. exact Hout.
    + eexists. reflexivity.
Qed.

End Places.

Lemma Forall2_concat {A B : Type} (R : A -> B -> Prop) (rows : list (list A)) :
  forall ts, Forall2 R (List.concat rows) ts ->
    exists grid, ts = List.concat grid /\ Forall2 (Forall2 R) rows grid.
Proof.
  induction rows as [|row rows IH]; intros ts Hts; cbn [List.concat] in Hts.
  - inversion Hts. subst. exists []. split; [reflexivity|constructor].
  - apply Forall2_app_inv_l in Hts as (t1 & t2 & H1 & H2 & ->).
    destruct (IH t2 H2) as (grid & -> & Hgrid).
    exists (t1 :: grid). split; [reflexivity|]. constructor; assumption.
Qed.

(** The first place at or beyond an edge is one place. *)
Lemma first_reach_unique (o t bound : Q) (n m : nat) :
  (forall j, (j < n)%nat -> (cursor o t j < bound)%Q) -> (bound <= cursor o t n)%Q ->
  (forall j, (j < m)%nat -> (cursor o t j < bound)%Q) -> (bound <= cursor o t m)%Q ->
  n = m.
Proof.
  intros Hn1 Hn2 Hm1 Hm2.
  destruct (lt_eq_lt_dec n m) as [[Hlt|Heq]|Hlt]; [|exact Heq|]; exfalso.
  - specialize (Hm1 n Hlt). lra.
  - specialize (Hn1 m Hlt). lra.
Qed.

(** The tiles of a sweep from the anchor that ended, row by row: row
    [i] lies where the row cursor stands after [i] steps and its tile
    [j] where the column cursor stands after [j] steps; with [reflect]
    the tile is mirrored horizontally exactly when [j] is odd and
    vertically exactly when [i] is odd. *)
Lemma sweep_tiles (reflect gb : bool) (W H tw th ax : Q) (fuel : nat) (y : Q)
      (ops : list (Receiver * DrawOp)) :
  sweep reflect gb W H tw th ax fuel ax y true true = Some ops ->
  exists grid : list (list Tile),
    tiles_on (receiver gb) ops = List.concat grid
    /\ (forall i, (i < List.length grid)%nat -> (cursor y th i < H)%Q)
    /\ (H <= cursor y th (List.length grid))%Q
    /\ forall i row, nth_error grid i = Some row ->
         row <> []
         /\ (forall j, (j < List.length row)%nat -> (cursor ax tw j < W)%Q)
         /\ (W <= cursor ax tw (List.length row))%Q
         /\ forall j t, nth_error row j = Some t ->
              (tile_x t == cursor ax tw j)%Q /\ (tile_y t == cursor y th i)%Q
              /\ (tile_w t == tw)%Q /\ (tile_h t == th)%Q
              /\ flipX t = reflect && Nat.odd j /\ flipY t = reflect && Nat.odd i.
Proof.
  intro Hrun.
  destruct (sweep_places reflect gb W H tw th ax fuel y true ops Hrun)
    as (rows & -> & Hrin & Hrout & Hrows).
  destruct (Forall2_concat _ rows _ (tiles_of_plan reflect gb tw th (List.concat rows)))
    as (grid & Hgrid & Hall).
  exists grid. split; [exact Hgrid|].
  rewrite <- (Forall2_length Hall).
  split; [exact Hrin|]. split; [exact Hrout|].
  intros i row Hrow.
  destruct (Forall2_nth_error_r _ _ _ Hall i row Hrow) as (prow & Hprow & Hrel).
  destruct (Hrows i prow Hprow) as (Hne & Hcin & Hcout & Hpls).
  rewrite <- (Forall2_length Hrel).
  split; [|split; [exact Hcin|split; [exact Hcout|]]].
  - intro Hnil. subst row. inversion Hrel. subst. apply Hne. reflexivity.
  - intros j t Ht.
    destruct (Forall2_nth_error_r _ _ _ Hrel j t Ht) as (pl & Hpl & Hplaced).
    destruct (Hpls j pl Hpl) as (Hr & Hc & Hx & Hy).
    destruct Hplaced as (Htx & Hty & Htw & Hth & Hfx & Hfy).
    rewrite Hx in Htx. rewrite Hy in Hty.
    rewrite Hfx, Hfy, Hr, Hc, Nat.negb_even.
    repeat split; try assumption.
    rewrite <- (Nat.negb_even i). destruct (Nat.even i); reflexivity.
Qed.
(** ** What a call covers *)





(** ** No guard on the tile dimensions *)

(** The verdict of the validation does not depend on the values of
    [config.width] and [config.height]. *)
Lemma validate_ignores_size (textureImage pg : Value) (props : list (string * Value))
      (q1 q2 q1' q2' : Q) (w : World) :
  validateArguments "textureOverlay"
    [textureImage; VObject (("width", VNum q1) :: ("height", VNum q2) :: props); pg] w
  = validateArguments "textureOverlay"
      [textureImage; VObject (("width", VNum q1') :: ("height", VNum q2') :: props); pg] w.
Proof. reflexivity. Qed.

(** C2, as the code has it.  [textureOverlay] has no guard on the tile
    dimensions: its validation looks at the types of [config.width] and
    [config.height] and never at their values, whatever else the call
    is given.  Every call that passes validation and resolves to a tile
    width or height that is zero or negative, on the main canvas or on
    a buffer, with or without [reflect] and [animate], throws nothing
    and never returns when the row the sweep starts at lies above the
    bottom edge of the destination.  A call that starts at or below the
    bottom edge returns at once.  With positive tile dimensions, an
    anchor left of the right edge and exact additions of the cursor,
    the call returns. *)
Theorem textureOverlay_no_value_guard :
  (forall (textureImage pg : Value) (props : list (string * Value))
          (q1 q2 q1' q2' : Q) (w : World),
      validateArguments "textureOverlay"
        [textureImage; VObject (("width", VNum q1) :: ("height", VNum q2) :: props); pg] w
      = validateArguments "textureOverlay"
          [textureImage; VObject (("width", VNum q1') :: ("height", VNum q2') :: props); pg] w)
  /\ (forall (textureImage config pg : Value) (w : World) (p : Resolved),
        fst (validateArguments "textureOverlay" [textureImage; config; pg] w) = Normal tt ->
        fst (resolve textureImage config pg w) = Normal p ->
        pg = VUndefined \/ (exists s, pg = VGraphics s) ->
        let st := textureOverlayState (grain (snd (animate_step p w))) in
        ((tW p <= 0 \/ tH p <= 0)%Q ->
         double (inject_Z (tX_anchor st)) -> double (inject_Z (tY st)) ->
         tY st < _height p ->
         forall fuel, fst (textureOverlay fuel textureImage config pg w) = OutOfFuel)
        /\ (_height p <= tY st ->
            forall fuel, fst (textureOverlay (S fuel) textureImage config pg w) = Normal tt)
        /\ ((0 < tW p)%Q -> (0 < tH p)%Q -> tX_anchor st < _width p ->
            exact_steps (inject_Z (tX_anchor st)) (tW p) (inject_Z (_width p)) ->
            exact_steps (inject_Z (tY st)) (tH p) (inject_Z (_height p)) ->
            exists fuel,
              forall fuel', (fuel <= fuel')%nat ->
                fst (textureOverlay fuel' textureImage config pg w) = Normal tt)).
Proof.
  split; [exact validate_ignores_size|].
  intros textureImage config pg w p Hv Hp Hpg st.
  split; [|split].
  - intros Hdeg Hdx Hdy Hy fuel.
    apply (textureOverlay_stuck fuel textureImage config pg w p Hv Hp Hpg).
    apply sweep_degenerate; [exact Hdeg|exact Hdx|exact Hdy|].
    rewrite <- Zlt_Qlt. exact Hy.
  - intros Hy fuel.
    rewrite (textureOverlay_run (S fuel) textureImage config pg w p [] Hv Hp Hpg);
      [reflexivity|].
    cbn [sweep].
    assert (Hlt : Qltb (inject_Z (tY st)) (inject_Z (_height p)) = false)
      by (apply Qltb_false; rewrite <- Zle_Qle; exact Hy).
    fold st. rewrite Hlt. reflexivity.
  - intros Htw Hth Hax Hex Hey.
    destruct (sweep_closed_form (_reflect p) (isGraphicsBuffer p)
                (inject_Z (_width p)) (inject_Z (_height p)) (tW p) (tH p)
                (inject_Z (tX_anchor st)) (inject_Z (tY st)) Htw Hth Hex Hey)
      as (fuel & plan & Hrun & _).
    + rewrite <- Zlt_Qlt. exact Hax.
    + exists fuel. intros fuel' Hle.
      apply (sweep_fuel_mono _ _ _ _ _ _ _ fuel fuel' _ _ _ _ _ Hle) in Hrun.
      rewrite (textureOverlay_run fuel' textureImage config pg w p _ Hv Hp Hpg Hrun).
      reflexivity.
Qed.

Lemma textureOverlay_no_value_guard_witness :
  let buffer := {| width := 6; height := 5; pixelDensity := 1; pixels := [] |} in
  let w := start (fun _ => 1 # 2)
             {| width := 10; height := 10; pixelDensity := 1; pixels := [] |} in
  let config := VObject [("reflect", VBool true);
                         ("animate", VObject [("atFrame", VNum 1); ("amount", VNum 3)])] in
  fst (textureOverlay 1000 (VImage 0 4) config (VGraphics buffer) w) = OutOfFuel.
Proof.
  intros buffer w config.
  pose (p := {| isGraphicsBuffer := true; _width := 6; _height := 5; _mode := MULTIPLY;
                _reflect := true; _animate := true; _animateAtFrame := 1;
                _animateAmount := 3; tW := 0; tH := 4 |}).
  refine (proj1 (proj2 textureOverlay_no_value_guard (VImage 0 4) config (VGraphics buffer)
                       w p _ _ _) _ _ _ _ 1000%nat).
  - reflexivity.
  - reflexivity.
  - right. exists buffer. reflexivity.
  - left. vm_compute. discriminate.
  - vm_compute. reflexivity.
  - vm_compute. reflexivity.
  - reflexivity.
Defined.

(** C2, as stated, fails: a 4x4 texture drawn with [config.width = 0] on
    a 10x10 canvas resolves to a tile width of 0, passes validation,
    and no error comes out of the call however long it runs.  Positive
    tile dimensions alone do not make the sweep end either: over a
    destination of width 0 and height 10 the 4x4 sweep from (0, 0)
    never does. *)
Lemma zero_width_is_not_rejected :
  let w := start (fun _ => 0%Q)
             {| width := 10; height := 10; pixelDensity := 1; pixels := [] |} in
  let config := VObject [("width", VNum 0); ("height", VNum 4)] in
  fst (validateArguments "textureOverlay" [VImage 4 4; config; VUndefined] w) = Normal tt
  /\ (exists p, fst (resolve (VImage 4 4) config VUndefined w) = Normal p /\ tW p = 0%Q)
  /\ fst (textureOverlay 1000 (VImage 4 4) config VUndefined w) = OutOfFuel
  /\ (forall fuel e, fst (textureOverlay fuel (VImage 4 4) config VUndefined w) <> Thrown e)
  /\ (forall fuel, sweep false false 0 10 4 4 0 fuel 0 0 true true = None).
Proof.
  cbv zeta.
  split; [reflexivity|].
  split; [eexists; split; reflexivity|].
  split; [vm_compute; reflexivity|].
  split.
  - intros fuel e.
    rewrite (textureOverlay_stuck fuel (VImage 4 4)
               (VObject [("width", VNum 0); ("height", VNum 4)]) VUndefined _
               {| isGraphicsBuffer := false; _width := 10; _height := 10; _mode := MULTIPLY;
                  _reflect := false; _animate := false; _animateAtFrame := 2;
                  _animateAmount := 10; tW := 0; tH := 4 |});
      [discriminate|reflexivity|reflexivity|left; reflexivity|].
    apply sweep_degenerate; [left; vm_compute; discriminate| | |];
      vm_compute; reflexivity.
  - intro fuel. apply sweep_stuck_width; vm_compute; congruence.
Qed.

(** ** Reflection *)

(** [config.reflect], tested for truth, is the flag the sweep runs under. *)
Lemma resolve_reflect (textureImage : Value) (props : list (string * Value)) (pg : Value)
      (w : World) (p : Resolved) :
  fst (resolve textureImage (VObject props) pg w) = Normal p ->
  _reflect p = truthy (assoc "reflect" props).
Proof.
  unfold resolve. rewrite bind_read.
  cbn [get]. rewrite !bind_lift.
  set (anim := assoc "animate" props).
  normal_step (round_prop_or anim "atFrame" 2) (pure_round_prop_or anim "atFrame" 2) w atf E4.
  match goal with |- context [round_prop_or anim "amount" ?d] =>
    normal_step (round_prop_or anim "amount" d) (pure_round_prop_or anim "amount" d) w amt E5
  end.
  normal_step (tile_size (VObject props) textureImage "width")
              (pure_tile_size (VObject props) textureImage "width") w tw E6.
  normal_step (tile_size (VObject props) textureImage "height")
              (pure_tile_size (VObject props) textureImage "height") w th E7.
  intros [= <-]. reflexivity.
Qed.

(** The tiles of a call that returned. *)
Lemma textureOverlay_tiles (fuel : nat) (textureImage config pg : Value) (w : World) :
  fst (textureOverlay fuel textureImage config pg w) = Normal tt ->
  let w' := snd (textureOverlay fuel textureImage config pg w) in
  exists (p : Resolved) (ops : list (Receiver * DrawOp)) (grid : list (list Tile)),
    let st := textureOverlayState (grain w') in
    let r := receiver (isGraphicsBuffer p) in
    let x := cursor (inject_Z (tX_anchor st)) (tW p) in
    let y := cursor (inject_Z (tY st)) (tH p) in
    resolve textureImage config pg w = (Normal p, w)
    /\ drawn w'
       = drawn w ++ [(r, BlendMode (_mode p))] ++ ops ++ [(r, BlendMode BLEND)]
         ++ (if isGraphicsBuffer p then [(OnPg, Reset)] else [])
    /\ tiles_on r ops = List.concat grid
    /\ (forall i, (i < List.length grid)%nat -> (y i < inject_Z (_height p))%Q)
    /\ (inject_Z (_height p) <= y (List.length grid))%Q
    /\ forall i row, nth_error grid i = Some row ->
         row <> []
         /\ (forall j, (j < List.length row)%nat -> (x j < inject_Z (_width p))%Q)
         /\ (inject_Z (_width p) <= x (List.length row))%Q
         /\ forall j t, nth_error row j = Some t ->
              (tile_x t == x j)%Q /\ (tile_y t == y i)%Q
              /\ (tile_w t == tW p)%Q /\ (tile_h t == tH p)%Q
              /\ flipX t = _reflect p && Nat.odd j /\ flipY t = _reflect p && Nat.odd i.
Proof.
  intros Hret w'.
  destruct (textureOverlay_returned fuel textureImage config pg w Hret)
    as (p & ops & Hp & _ & Hrun & Hdrawn & Hgrain & _).
  destruct (sweep_tiles _ _ _ _ _ _ _ _ _ _ Hrun) as (grid & Hgrid & Hrows).
  exists p, ops, grid. cbv zeta. fold w'.
  change (snd (textureOverlay fuel textureImage config pg w)) with w' in Hgrain, Hdrawn.
  rewrite Hgrain.
  split; [exact Hp|]. split; [exact Hdrawn|]. split; [exact Hgrid|]. exact Hrows.
Qed.

(** C3.  In every call of [textureOverlay] with a [config.reflect] that
    is true (or any value taken for true) that returns, the tiles are
    drawn row by row, row [i] where the row cursor stands after [i]
    additions of the tile height and its tile [j] where the column
    cursor stands after [j] additions of the tile width, one tile for
    every such place before the edge; the tile of row [i] and column [j]
    is mirrored horizontally exactly when [j] is odd and vertically
    exactly when [i] is odd.  So the first tile is unmirrored, and a
    tile and its right-hand neighbour differ in the horizontal mirror
    and agree in the vertical one, a tile and the one below it differ
    in the vertical mirror and agree in the horizontal one, whatever
    the numbers of rows and columns.  The orientation is the one the
    reflect branch draws under the two flags: unmirrored in a first row
    and first column, mirrored horizontally in a second column,
    vertically in a second row, on both axes in a second row and second
    column.  A 4x4 texture on an 8x8 canvas is drawn in these four
    orientations. *)
Theorem reflect_orientation_law :
  (forall (fuel : nat) (textureImage : Value) (props : list (string * Value)) (pg : Value)
          (w : World),
      truthy (assoc "reflect" props) = true ->
      fst (textureOverlay fuel textureImage (VObject props) pg w) = Normal tt ->
      let w' := snd (textureOverlay fuel textureImage (VObject props) pg w) in
      exists (p : Resolved) (ops : list (Receiver * DrawOp)) (grid : list (list Tile)),
        let st := textureOverlayState (grain w') in
        let r := receiver (isGraphicsBuffer p) in
        let x := cursor (inject_Z (tX_anchor st)) (tW p) in
        let y := cursor (inject_Z (tY st)) (tH p) in
        resolve textureImage (VObject props) pg w = (Normal p, w)
        /\ drawn w'
           = drawn w ++ [(r, BlendMode (_mode p))] ++ ops ++ [(r, BlendMode BLEND)]
             ++ (if isGraphicsBuffer p then [(OnPg, Reset)] else [])
        /\ tiles_on r ops = List.concat grid
        /\ (forall i, (i < List.length grid)%nat -> (y i < inject_Z (_height p))%Q)
        /\ (inject_Z (_height p) <= y (List.length grid))%Q
        /\ forall i row, nth_error grid i = Some row ->
             row <> []
             /\ (forall j, (j < List.length row)%nat -> (x j < inject_Z (_width p))%Q)
             /\ (inject_Z (_width p) <= x (List.length row))%Q
             /\ (forall j t, nth_error row j = Some t ->
                   (tile_x t == x j)%Q /\ (tile_y t == y i)%Q
                   /\ (tile_w t == tW p)%Q /\ (tile_h t == tH p)%Q
                   /\ flipX t = Nat.odd j /\ flipY t = Nat.odd i)
             /\ (forall j t1 t2,
                   nth_error row j = Some t1 -> nth_error row (S j) = Some t2 ->
                   flipX t2 = negb (flipX t1) /\ flipY t2 = flipY t1)
             /\ (forall below j t1 t2,
                   nth_error grid (S i) = Some below ->
                   nth_error row j = Some t1 -> nth_error below j = Some t2 ->
                   flipY t2 = negb (flipY t1) /\ flipX t2 = flipX t1))
  /\ (forall (gb rf cf : bool) (tw th x y : Q),
        exists t,
          tiles_on (receiver gb) (draw_tile true gb tw th rf cf x y) = [t]
          /\ flipX t = negb cf /\ flipY t = negb rf)
  /\ (forall (math_random : nat -> Q) (px : list Z),
        let w := start math_random
                   {| width := 8; height := 8; pixelDensity := 1; pixels := px |} in
        let r := textureOverlay 8 (VImage 4 4) (VObject [("reflect", VBool true)])
                                VUndefined w in
        fst r = Normal tt
        /\ drawn (snd r) =
             [(OnCanvas, BlendMode MULTIPLY);
              (OnCanvas, Push); (OnCanvas, Image 0 0 4 4); (OnCanvas, Pop);
              (OnCanvas, Push); (OnCanvas, Scale (-1) 1);
              (OnCanvas, Image (-4) 0 (-4) 4); (OnCanvas, Pop);
              (OnCanvas, Push); (OnCanvas, Scale 1 (-1));
              (OnCanvas, Image 0 (-4) 4 (-4)); (OnCanvas, Pop);
              (OnCanvas, Push); (OnCanvas, Scale (-1) (-1));
              (OnCanvas, Image (-4) (-4) (-4) (-4)); (OnCanvas, Pop);
              (OnCanvas, BlendMode BLEND)]
        /\ map (fun t => (tile_x t, tile_y t, flipX t, flipY t))
               (tiles_on OnCanvas (drawn (snd r)))
           = [(0, 0, false, false); (4, 0, true, false);
              (0, 4, false, true); (4, 4, true, true)]%Q).
Proof.
  split; [|split].
  - intros fuel textureImage props pg w Hreflect Hret w'.
    destruct (textureOverlay_tiles fuel textureImage (VObject props) pg w Hret)
      as (p & ops & grid & Hp & Hdrawn & Hgrid & Hrin & Hrout & Hrows).
    assert (Hrf : _reflect p = true).
    { rewrite <- Hreflect. apply (resolve_reflect textureImage props pg w).
      rewrite Hp. reflexivity. }
    rewrite Hrf in Hrows. cbn [andb] in Hrows.
    exists p, ops, grid. cbv zeta.
    split; [exact Hp|]. split; [exact Hdrawn|]. split; [exact Hgrid|].
    split; [exact Hrin|]. split; [exact Hrout|].
    intros i row Hrow.
    destruct (Hrows i row Hrow) as (Hne & Hcin & Hcout & Htiles).
    split; [exact Hne|]. split; [exact Hcin|]. split; [exact Hcout|].
    split; [exact Htiles|]. split.
    + intros j t1 t2 H1 H2.
      destruct (Htiles j t1 H1) as (_ & _ & _ & _ & Hx1 & Hy1).
      destruct (Htiles (S j) t2 H2) as (_ & _ & _ & _ & Hx2 & Hy2).
      rewrite Hx1, Hx2, Hy1, Hy2, Nat.odd_succ, <- Nat.negb_odd. split; reflexivity.
    + intros below j t1 t2 Hbelow H1 H2.
      destruct (Htiles j t1 H1) as (_ & _ & _ & _ & Hx1 & Hy1).
      destruct (Hrows (S i) below Hbelow) as (_ & _ & _ & Htiles').
      destruct (Htiles' j t2 H2) as (_ & _ & _ & _ & Hx2 & Hy2).
      rewrite Hx1, Hx2, Hy1, Hy2, Nat.odd_succ, <- Nat.negb_odd. split; reflexivity.
  - intros gb rf cf tw th x y.
    destruct gb, rf, cf; eexists; (split; [reflexivity|split; reflexivity]).
  - intros math_random px. vm_compute. repeat split; reflexivity.
Qed.

Lemma reflect_orientation_law_witness :
  let w := start (fun _ => 0%Q)
             {| width := 10; height := 7; pixelDensity := 1; pixels := [] |} in
  let buffer := {| width := 9; height := 5; pixelDensity := 2; pixels := [] |} in
  let w' := snd (textureOverlay 9 (VImage 4 3) (VObject [("reflect", VBool true)])
                   (VGraphics buffer) w) in
  exists (ops : list (Receiver * DrawOp)) (grid : list (list Tile)),
    drawn w' = [(OnPg, BlendMode MULTIPLY)] ++ ops
               ++ [(OnPg, BlendMode BLEND)] ++ [(OnPg, Reset)]
    /\ tiles_on OnPg ops = List.concat grid
    /\ List.length grid = 2%nat
    /\ forall i row, nth_error grid i = Some row ->
         List.length row = 3%nat
         /\ forall j t, nth_error row j = Some t ->
              flipX t = Nat.odd j /\ flipY t = Nat.odd i.
Proof.
  intros w buffer w'.
  destruct (proj1 reflect_orientation_law 9%nat (VImage 4 3) [("reflect", VBool true)]
                  (VGraphics buffer) w)
    as (p & ops & grid & Hp & Hdrawn & Hgrid & Hrin & Hrout & Hrows).
  - reflexivity.
  - vm_compute. reflexivity.
  - fold w' in Hdrawn, Hrin, Hrout, Hrows.
    assert (Ep : p = {| isGraphicsBuffer := true; _width := 9; _height := 5;
                        _mode := MULTIPLY; _reflect := true; _animate := false;
                        _animateAtFrame := 2; _animateAmount := 5; tW := 4; tH := 3 |}).
    { assert (E : Normal p = fst (resolve (VImage 4 3) (VObject [("reflect", VBool true)])
                                   (VGraphics buffer) w)) by (rewrite Hp; reflexivity).
      vm_compute in E. injection E as ->. reflexivity. }
    subst p. cbn [isGraphicsBuffer _width _height _mode tW tH receiver] in *.
    exists ops, grid.
    split; [exact Hdrawn|]. split; [exact Hgrid|].
    split.
    + apply (first_reach_unique (inject_Z (tY (textureOverlayState (grain w')))) 3
                                (inject_Z 5)); try assumption.
      * intros j Hj. destruct j as [|[|j]]; [| |lia]; vm_compute; reflexivity.
      * vm_compute. discriminate.
    + intros i row Hrow.
      destruct (Hrows i row Hrow) as (_ & Hcin & Hcout & Htiles & _).
      split.
      * apply (first_reach_unique (inject_Z (tX_anchor (textureOverlayState (grain w')))) 4
                                  (inject_Z 9)); try assumption.
        -- intros j Hj. destruct j as [|[|[|j]]]; [| | |lia]; vm_compute; reflexivity.
        -- vm_compute. discriminate.
      * intros j t Ht. destruct (Htiles j t Ht) as (_ & _ & _ & _ & Hx & Hy).
        split; assumption.
Defined.

(** ** When the sweep ends *)

(** X8.  The tiling sweep from the anchor ends exactly when it starts
    at or below the bottom edge (and nothing is drawn), or the anchor is
    left of the right edge and both cursors, advanced by rounded
    additions of the tile width and of the tile height, reach their
    edges.  A sweep that starts above the bottom edge from an anchor
    that is a double ends only if the anchor is left of the right edge
    and both tile dimensions are positive; and it does end from such an
    anchor with positive tile dimensions when the additions of both
    cursors are exact. *)
Theorem sweep_ends_iff (reflect gb : bool) (W H tw th ax ay : Q) :
  ((exists fuel ops, sweep reflect gb W H tw th ax fuel ax ay true true = Some ops)
   <-> (H <= ay)%Q
       \/ ((ax < W)%Q /\ (exists n, (W <= cursor ax tw n)%Q)
           /\ (exists m, (H <= cursor ay th m)%Q)))
  /\ (double ax -> double ay -> (ay < H)%Q ->
      (exists fuel ops, sweep reflect gb W H tw th ax fuel ax ay true true = Some ops) ->
      (ax < W)%Q /\ (0 < tw)%Q /\ (0 < th)%Q)
  /\ ((0 < tw)%Q -> (0 < th)%Q -> (ax < W)%Q ->
      exact_steps ax tw W -> exact_steps ay th H ->
      exists fuel ops, sweep reflect gb W H tw th ax fuel ax ay true true = Some ops).
Proof.
  split; [split|split].
  - intros (fuel & ops & Hrun).
    destruct (Qlt_le_dec ay H) as [Hay|Hay]; [right|left; exact Hay].
    destruct (sweep_places reflect gb W H tw th ax fuel ay true ops Hrun)
      as (rows & _ & _ & Hrout & Hrows).
    destruct rows as [|row rows]; [exfalso; cbn in Hrout; lra|].
    destruct (Hrows 0%nat row eq_refl) as (Hne & Hcin & Hcout & _).
    split; [|split].
    + apply (Hcin 0%nat). destruct row; [contradiction|cbn; lia].
    + exists (List.length row). exact Hcout.
    + exists (List.length (row :: rows)). exact Hrout.
  - intros [Hay|(Hax & (n & Hn) & (m & Hm))].
    + exists 1%nat, []. cbn [sweep]. apply Qltb_false in Hay. rewrite Hay. reflexivity.
    + destruct (sweep_ends reflect gb W H tw th ax n Hax Hn m (S (n + m)) ay true)
        as (ops & Hrun); [lia|exact Hm|].
      exists (S (n + m)), ops. exact Hrun.
  - intros Hdx Hdy Hay (fuel & ops & Hrun).
    destruct (Qlt_le_dec ax W) as [Hax|Hax].
    + split; [exact Hax|].
      destruct (Qlt_le_dec 0 tw) as [Htw|Htw], (Qlt_le_dec 0 th) as [Hth|Hth];
        [split; assumption| | |]; exfalso;
        rewrite (sweep_degenerate reflect gb W H tw th ax ay) in Hrun;
        try discriminate; auto.
    + exfalso.
      rewrite (sweep_stuck_width reflect gb W H tw th ax fuel ax ay true true Hax Hay) in Hrun.
      discriminate.
  - intros Htw Hth Hax Hex Hey.
    destruct (sweep_closed_form reflect gb W H tw th ax ay Htw Hth Hex Hey Hax)
      as (fuel & plan & Hrun & _).
    exists fuel, (draw_plan reflect gb tw th plan). exact Hrun.
Qed.

Lemma sweep_ends_iff_witness :
  (exists fuel ops, sweep true false 10 7 4 4 (-1) fuel (-1) 0 true true = Some ops)
  /\ (-1 < 10)%Q /\ (0 < 4)%Q.
Proof.
  assert (Hends : exists fuel ops,
             sweep true false 10 7 4 4 (-1) fuel (-1) 0 true true = Some ops).
  { apply (proj2 (proj2 (sweep_ends_iff true false 10 7 4 4 (-1) 0))).
    - reflexivity.
    - reflexivity.
    - reflexivity.
    - apply (safe_steps (-1) 4 10); lia.
    - apply (safe_steps 0 4 7); lia.  }
  split; [exact Hends|].
  destruct (proj1 (proj2 (sweep_ends_iff true false 10 7 4 4 (-1) 0))) as (H1 & H2 & _).
  - vm_compute. reflexivity.
  - vm_compute. reflexivity.
  - reflexivity.
  - exact Hends.
  - split; assumption.
Defined.

(** ** The order and the number of the tiles *)

(** Rows of one length, laid end to end. *)
Lemma concat_uniform {A : Type} (c : nat) (grid : list (list A)) :
  (forall i row, nth_error grid i = Some row -> List.length row = c) ->
  List.length (List.concat grid) = (List.length grid * c)%nat
  /\ forall i j row, nth_error grid i = Some row -> (j < c)%nat ->
       nth_error (List.concat grid) (i * c + j) = nth_error row j.
Proof.
  induction grid as [|row0 grid IH]; intro Hlen.
  - split; [reflexivity|]. intros [|i] j row; discriminate.
  - assert (H0 : List.length row0 = c) by (apply (Hlen 0%nat); reflexivity).
    destruct IH as [IHlen IHnth]; [intros i row Hi; apply (Hlen (S i)); exact Hi|].
    cbn [List.concat List.length]. split.
    + rewrite length_app, IHlen, H0. lia.
    + intros [|i] j row Hi Hj; cbn [nth_error] in Hi.
      * injection Hi as <-. cbn [Nat.mul Nat.add].
        apply nth_error_app1. lia.
      * rewrite nth_error_app2 by (rewrite H0; lia).
        replace (S i * c + j - List.length row0)%nat with (i * c + j)%nat
          by (rewrite H0; lia).
        apply (IHnth i j row Hi Hj).
Qed.

(** X15.  A sweep from the anchor that ends has drawn [rows] rows of
    [cols] tiles each, row after row and left to right within a row:
    [rows] is the number of places of the row cursor above the bottom
    edge and [cols] that of the column cursor left of the right edge,
    each cursor advancing by rounded additions; the draw number
    [i * cols + j] is the tile of row [i] and column [j], which lies
    where the two cursors stand after [i] and [j] steps and, with
    [reflect], is mirrored by the parity of [j] and [i].  When the
    tile dimensions are positive, the anchor is left of the right edge
    and the additions are exact, the sweep ends, [cols] is the ceiling
    of [(W - ax) / tw], [rows] that of [(H - ay) / th] (none when [ay]
    is at or below the bottom edge), and the tile of row [i] and column
    [j] lies at [(ax + j * tw, ay + i * th)]. *)
Theorem sweep_row_major (reflect gb : bool) (W H tw th ax ay : Q) :
  (forall fuel ops,
      sweep reflect gb W H tw th ax fuel ax ay true true = Some ops ->
      exists rows cols : nat,
        (forall i, (i < rows)%nat -> (cursor ay th i < H)%Q)
        /\ (H <= cursor ay th rows)%Q
        /\ ((0 < rows)%nat ->
            (forall j, (j < cols)%nat -> (cursor ax tw j < W)%Q)
            /\ (W <= cursor ax tw cols)%Q)
        /\ List.length (tiles_on (receiver gb) ops) = (rows * cols)%nat
        /\ forall i j, (i < rows)%nat -> (j < cols)%nat ->
             exists t, nth_error (tiles_on (receiver gb) ops) (i * cols + j) = Some t
               /\ (tile_x t == cursor ax tw j)%Q /\ (tile_y t == cursor ay th i)%Q
               /\ (tile_w t == tw)%Q /\ (tile_h t == th)%Q
               /\ flipX t = reflect && Nat.odd j /\ flipY t = reflect && Nat.odd i)
  /\ ((0 < tw)%Q -> (0 < th)%Q -> (ax < W)%Q ->
      exact_steps ax tw W -> exact_steps ay th H ->
      let cols := Z.to_nat (Qceiling ((W - ax) / tw)) in
      let rows := Z.to_nat (Qceiling ((H - ay) / th)) in
      exists fuel plan,
        sweep reflect gb W H tw th ax fuel ax ay true true
          = Some (draw_plan reflect gb tw th plan)
        /\ List.length plan = (rows * cols)%nat
        /\ forall i j, (i < rows)%nat -> (j < cols)%nat ->
             exists pl, nth_error plan (i * cols + j) = Some pl
               /\ pl_row pl = Nat.even i /\ pl_col pl = Nat.even j
               /\ (pl_x pl == ax + num j * tw)%Q /\ (pl_y pl == ay + num i * th)%Q).
Proof.
  split.
  - intros fuel ops Hrun.
    destruct (sweep_tiles reflect gb W H tw th ax fuel ay ops Hrun)
      as (grid & Hgrid & Hrin & Hrout & Hrows).
    rewrite Hgrid.
    set (cols := match grid with [] => 0%nat | row :: _ => List.length row end).
    assert (Hcols : forall i row, nth_error grid i = Some row -> List.length row = cols).
    { intros i row Hrow. destruct grid as [|row0 grid0] eqn:Eg; [destruct i; discriminate|].
      destruct (Hrows 0%nat row0 eq_refl) as (_ & Hin0 & Hout0 & _).
      destruct (Hrows i row Hrow) as (_ & Hin & Hout & _).
      apply (first_reach_unique ax tw W); assumption. }
    destruct (concat_uniform cols grid Hcols) as [Hlen Hnth].
    exists (List.length grid), cols.
    split; [exact Hrin|]. split; [exact Hrout|]. split; [|split; [exact Hlen|]].
    + intro Hpos. destruct grid as [|row0 grid0]; [cbn in Hpos; lia|].
      destruct (Hrows 0%nat row0 eq_refl) as (_ & Hin0 & Hout0 & _).
      split; assumption.
    + intros i j Hi Hj.
      destruct (nth_error grid i) as [row|] eqn:Hrow;
        [|apply nth_error_None in Hrow; lia].
      destruct (Hrows i row Hrow) as (_ & _ & _ & Htiles).
      pose proof (Hcols i row Hrow) as Hc.
      destruct (nth_error row j) as [t|] eqn:Ht;
        [|apply nth_error_None in Ht; lia].
      exists t. split; [rewrite (Hnth i j row Hrow Hj); exact Ht|].
      apply (Htiles j t Ht).
  - intros Htw Hth Hax Hex Hey cols rows.
    destruct (sweep_closed_form reflect gb W H tw th ax ay Htw Hth Hex Hey Hax)
      as (fuel & plan & Hrun & _ & Hlen & Hnth).
    exists fuel, plan. split; [exact Hrun|]. split; [exact Hlen|]. exact Hnth.
Qed.

Lemma sweep_row_major_witness :
  exists fuel plan,
    sweep true false 10 7 4 4 (-1) fuel (-1) 0 true true
      = Some (draw_plan true false 4 4 plan)
    /\ List.length plan = 6%nat
    /\ forall i j, (i < 2)%nat -> (j < 3)%nat ->
         exists pl, nth_error plan (i * 3 + j) = Some pl
           /\ pl_row pl = Nat.even i /\ pl_col pl = Nat.even j
           /\ (pl_x pl == -1 + num j * 4)%Q /\ (pl_y pl == 0 + num i * 4)%Q.
Proof.
  apply (proj2 (sweep_row_major true false 10 7 4 4 (-1) 0)); try reflexivity.
  - apply (safe_steps (-1) 4 10); lia.
  - apply (safe_steps 0 4 7); lia.
Defined.

(** ** No two tiles over one point *)

(** X22.  With positive tile dimensions, the anchor left of the right
    edge and exact additions of both cursors, the sweep ends and no
    point lies under two of the tiles it drew, mirrored or not: nothing
    is blended twice. *)
Theorem tiles_never_overlap (reflect gb : bool) (W H tw th ax ay : Q) :
  (0 < tw)%Q -> (0 < th)%Q -> (ax < W)%Q ->
  exact_steps ax tw W -> exact_steps ay th H ->
  exists fuel ops,
    sweep reflect gb W H tw th ax fuel ax ay true true = Some ops
    /\ forall i j t1 t2 px py,
         nth_error (tiles_on (receiver gb) ops) i = Some t1 ->
         nth_error (tiles_on (receiver gb) ops) j = Some t2 ->
         covers t1 px py -> covers t2 px py ->
         i = j.
Proof.
  intros Htw Hth Hax Hex Hey.
  destruct (sweep_closed_form reflect gb W H tw th ax ay Htw Hth Hex Hey Hax)
    as (fuel & plan & Hrun & Hcols & Hlen & Hnth).
  set (cols := Z.to_nat (Qceiling ((W - ax) / tw))) in *.
  set (rows := Z.to_nat (Qceiling ((H - ay) / th))) in *.
  exists fuel, (draw_plan reflect gb tw th plan).
  split; [exact Hrun|].
  pose proof (tiles_of_plan reflect gb tw th plan) as Hall.
  assert (Hcell : forall i t px py,
             nth_error (tiles_on (receiver gb) (draw_plan reflect gb tw th plan)) i = Some t ->
             covers t px py ->
             (ax + num (i mod cols) * tw <= px)%Q
             /\ (px < ax + num (i mod cols) * tw + tw)%Q
             /\ (ay + num (i / cols) * th <= py)%Q
             /\ (py < ay + num (i / cols) * th + th)%Q).
  { intros i t px py Hi Hcov.
    destruct (Forall2_nth_error_r _ _ _ Hall i t Hi) as (pl & Hpl & Hplaced).
    assert (Hil : (i < rows * cols)%nat).
    { rewrite <- Hlen. apply nth_error_Some. rewrite Hpl. discriminate. }
    assert (Hr : (i / cols < rows)%nat)
      by (apply Nat.Div0.div_lt_upper_bound; lia).
    assert (Hc : (i mod cols < cols)%nat) by (apply Nat.mod_upper_bound; lia).
    destruct (Hnth (i / cols)%nat (i mod cols)%nat Hr Hc)
      as (pl' & Hpl' & _ & _ & Hx & Hy).
    replace (i / cols * cols + i mod cols)%nat with i in Hpl'
      by (rewrite (Nat.div_mod_eq i cols) at 1; lia).
    rewrite Hpl in Hpl'. injection Hpl' as <-.
    destruct (placed_covers reflect tw th pl t px py Htw Hth Hplaced Hcov)
      as (H1 & H2 & H3 & H4).
    unfold colX in Hx. unfold rowY in Hy.
    repeat split; lra. }
  intros i j t1 t2 px py Hi Hj Hc1 Hc2.
  destruct (Hcell i t1 px py Hi Hc1) as (A1 & A2 & A3 & A4).
  destruct (Hcell j t2 px py Hj Hc2) as (B1 & B2 & B3 & B4).
  assert (Hm : (i mod cols = j mod cols)%nat)
    by (apply (cell_unique ax tw px); assumption).
  assert (Hd : (i / cols = j / cols)%nat)
    by (apply (cell_unique ay th py); assumption).
  rewrite (Nat.div_mod_eq i cols), (Nat.div_mod_eq j cols), Hm, Hd. reflexivity.
Qed.

Lemma tiles_never_overlap_witness :
  exists fuel ops,
    sweep true false 10 7 4 4 (-1) fuel (-1) 0 true true = Some ops
    /\ forall i j t1 t2 px py,
         nth_error (tiles_on (receiver false) ops) i = Some t1 ->
         nth_error (tiles_on (receiver false) ops) j = Some t2 ->
         covers t1 px py -> covers t2 px py ->
         i = j.
Proof.
  apply (tiles_never_overlap true false 10 7 4 4 (-1) 0); try reflexivity.
  - apply (safe_steps (-1) 4 10); lia.
  - apply (safe_steps 0 4 7); lia.
Defined.

(** ** Calls that return *)

Lemma floor_scaled_range (r : Q) (amount : Z) :
  (0 <= r < 1)%Q -> 0 <= amount -> 0 <= floor (r * inject_Z amount) <= amount.
Proof.
  intros Hr Ha.
  destruct (Z.eq_dec amount 0) as [->|Hne].
  - unfold floor. assert (E : (r * inject_Z 0 == 0)%Q) by ring.
    rewrite E. cbn. lia.
  - pose proof (floor_scaled_bounds r amount Hr ltac:(lia)). lia.
Qed.

Lemma exact_steps_comp (o t t' bound : Q) :
  (t == t')%Q -> exact_steps o t bound -> exact_steps o t' bound.
Proof.
  intros E Hex n Hn. unfold colX in *.
  apply (double_comp (o + num (S n) * t)); [rewrite E; reflexivity|].
  apply Hex. unfold colX. rewrite E. exact Hn.
Qed.

(** X23.  A [textureOverlay] call returns whenever its arguments pass
    the validation and resolve, the buffer is absent or a
    [p5.Graphics], the tile dimensions are positive integers, the
    destination has a positive width, the anchor kept from earlier
    calls is at or before the origin, the random numbers lie in
    [0, 1), the animation amount is not negative, and no number
    involved exceeds [2 ^ 53] in magnitude: the additions of the sweep
    are then exact and it ends. *)
Theorem textureOverlay_returns (textureImage config pg : Value) (w : World) (p : Resolved)
        (tw th : Z) :
  fst (validateArguments "textureOverlay" [textureImage; config; pg] w) = Normal tt ->
  fst (resolve textureImage config pg w) = Normal p ->
  pg = VUndefined \/ (exists s, pg = VGraphics s) ->
  (tW p == inject_Z tw)%Q -> (tH p == inject_Z th)%Q ->
  0 < tw -> 0 < th ->
  0 < _width p -> _width p + tw <= 2 ^ 53 -> _height p + th <= 2 ^ 53 ->
  - 2 ^ 53 <= tX_anchor (textureOverlayState (grain w)) <= 0 ->
  - 2 ^ 53 <= tY (textureOverlayState (grain w)) ->
  0 <= _animateAmount p <= 2 ^ 53 ->
  (forall n, 0 <= stream (random (grain w)) n < 1)%Q ->
  exists fuel, forall fuel',
    (fuel <= fuel')%nat ->
    fst (textureOverlay fuel' textureImage config pg w) = Normal tt.
Proof.
  intros Hv Hp Hpg Etw Eth Htw Hth HW HWb HHb Hax Hay Ham Hr.
  set (w1 := snd (animate_step p w)).
  assert (Hanchor : - 2 ^ 53 <= tX_anchor (textureOverlayState (grain w1)) <= 0
                    /\ - 2 ^ 53 <= tY (textureOverlayState (grain w1))).
  { pose proof (animate_step_spec p w) as [_ Hs]. cbv zeta in Hs. fold w1 in Hs.
    destruct (_animate p).
    - destruct (frameCount (textureOverlayState (grain w)) + 1 >=? _animateAtFrame p);
        rewrite Hs; cbn [tX_anchor tY]; [|split; assumption].
      pose proof (floor_scaled_range _ _ (Hr (taken (random (grain w)))) (proj1 Ham)).
      pose proof (floor_scaled_range _ _ (Hr (S (taken (random (grain w))))) (proj1 Ham)).
      lia.
    - rewrite Hs. split; assumption. }
  destruct Hanchor as [Hx Hy].
  assert (Htw' : (0 < tW p)%Q)
    by (rewrite Etw; change 0%Q with (inject_Z 0); rewrite <- Zlt_Qlt; exact Htw).
  assert (Hth' : (0 < tH p)%Q)
    by (rewrite Eth; change 0%Q with (inject_Z 0); rewrite <- Zlt_Qlt; exact Hth).
  destruct (sweep_closed_form (_reflect p) (isGraphicsBuffer p)
              (inject_Z (_width p)) (inject_Z (_height p)) (tW p) (tH p)
              (inject_Z (tX_anchor (textureOverlayState (grain w1))))
              (inject_Z (tY (textureOverlayState (grain w1)))) Htw' Hth')
    as (fuel & plan & Hrun & _).
  - apply (exact_steps_comp _ (inject_Z tw)); [symmetry; exact Etw|].
    apply safe_steps; lia.
  - apply (exact_steps_comp _ (inject_Z th)); [symmetry; exact Eth|].
    apply safe_steps; lia.
  - rewrite <- Zlt_Qlt. lia.
  - exists fuel. intros fuel' Hfuel.
    apply (sweep_fuel_mono _ _ _ _ _ _ _ fuel fuel') in Hrun; [|exact Hfuel].
    rewrite (textureOverlay_run fuel' textureImage config pg w p _ Hv Hp Hpg Hrun).
    reflexivity.
Qed.

Lemma textureOverlay_returns_witness :
  let w := start (fun _ => 1 # 2)
             {| width := 10; height := 8; pixelDensity := 1; pixels := [] |} in
  exists fuel, forall fuel',
    (fuel <= fuel')%nat ->
    fst (textureOverlay fuel' (VImage 4 4) (VObject [("animate", VBool true)]) VUndefined w)
    = Normal tt.
Proof.
  intro w.
  apply (textureOverlay_returns (VImage 4 4) (VObject [("animate", VBool true)]) VUndefined w
           {| isGraphicsBuffer := false; _width := 10; _height := 8;
              _mode := MULTIPLY; _reflect := false; _animate := true;
              _animateAtFrame := 2; _animateAmount := 8; tW := 4; tH := 4 |} 4 4);
    try reflexivity.
  - left. reflexivity.
  - cbn. lia.
  - cbn. lia.
  - cbn. lia.
  - cbn. lia.
  - cbn. lia.
  - intro n. cbn. split; [discriminate|reflexivity].
Defined.
